(** * JSONElement: schema getters, JSON assembly, change batching and the
      structural diff engine of [json-element.js], embedded in Rocq.

    JavaScript values are modelled by the inductive type [value]; code that
    can throw runs in the [outcome] monad; the recursion of [diff] is bounded
    by a fuel argument that stands for the depth of the call stack. *)

From Stdlib Require Import Ascii QArith.
From stdpp Require Import base numbers option strings pretty list.

Open Scope string_scope.
Open Scope list_scope.

Set Warnings "-register-all".

(* ===================================================================== *)
(** * JavaScript values *)
(* ===================================================================== *)

(** A JS [number].  Finite numbers are kept as exact rationals: rounding to
    binary64 and the sign of zero are outside the model. *)
Inductive number : Type :=
| NaN
| Infinity (negative : bool)
| Finite (q : Q).

Arguments Finite q%_Q.

(** The values [diff] and the getters handle: [undefined], the JSON scalars,
    arrays, and plain objects.  An object is the list of its own enumerable
    properties in the order [Object.keys] lists them. *)
Inductive value : Type :=
| Undefined
| Null
| Bool (b : bool)
| Num (n : number)
| Str (s : string)
| Arr (elems : list value)
| Obj (props : list (string * value)).

(** [typeof x]. *)
Definition typeof (x : value) : string :=
  match x with
  | Undefined => "undefined"
  | Null => "object"
  | Bool _ => "boolean"
  | Num _ => "number"
  | Str _ => "string"
  | Arr _ | Obj _ => "object"
  end.

(** [a === b] on numbers: IEEE equality, so [NaN] equals nothing. *)
Definition number_eqb (a b : number) : bool :=
  match a, b with
  | Finite p, Finite q => Qeq_bool p q
  | Infinity s, Infinity t => bool_decide (s = t)
  | _, _ => false
  end.

(** [a === b].  Scalars are compared by value.  Two arrays, or two objects,
    are strictly equal exactly when they are one and the same object; a tree
    of values carries no addresses, so that fact is the argument [same]. *)
Definition strict_eq (same : bool) (a b : value) : bool :=
  match a, b with
  | Undefined, Undefined => true
  | Null, Null => true
  | Bool x, Bool y => bool_decide (x = y)
  | Num x, Num y => number_eqb x y
  | Str x, Str y => bool_decide (x = y)
  | Arr _, Arr _ => same
  | Obj _, Obj _ => same
  | _, _ => false
  end.

(* ===================================================================== *)
(** * Completions: code that can throw *)
(* ===================================================================== *)

Inductive outcome (A : Type) : Type :=
| Return (a : A)
| Throw (error : string)
| OutOfFuel.

Arguments Return {A} a.
Arguments Throw {A} error.
Arguments OutOfFuel {A}.

Global Instance outcome_ret : MRet outcome := fun A a => Return a.
Global Instance outcome_bind : MBind outcome := fun A B k m =>
  match m with
  | Return a => k a
  | Throw e => Throw e
  | OutOfFuel => OutOfFuel
  end.

(** [for (const x of xs) acc = body(acc, x)], stopping at the first throw. *)
Fixpoint for_of {A B : Type} (body : B -> A -> outcome B) (xs : list A) (acc : B)
  : outcome B :=
  match xs with
  | [] => Return acc
  | x :: xs' => acc' ← body acc x; for_of body xs' acc'
  end.

(* ===================================================================== *)
(** * Property access *)
(* ===================================================================== *)

(** The index keys of an array-like of length [n]: ["" + i] for [i < n]. *)
Definition index_keys (n : nat) : list string := pretty <$> seq 0 n.

(** The element of [l] whose index, counted from [i], prints as [prop]. *)
Fixpoint array_get_from (i : nat) (l : list value) (prop : string) : value :=
  match l with
  | [] => Undefined
  | v :: l' => if decide (pretty i = prop) then v else array_get_from (S i) l' prop
  end.

Definition number_of_nat (n : nat) : number := Finite (inject_Z (Z.of_nat n)).

Definition array_get (l : list value) (prop : string) : value :=
  if decide (prop = "length") then Num (number_of_nat (length l))
  else array_get_from 0 l prop.

(** The own property [prop] of an object, [undefined] when there is none. *)
Fixpoint obj_get (props : list (string * value)) (prop : string) : value :=
  match props with
  | [] => Undefined
  | (k, v) :: props' => if decide (k = prop) then v else obj_get props' prop
  end.

Definition chars (s : string) : list value :=
  (fun c => Str (String c "")) <$> String.list_ascii_of_string s.

(** [x[prop]].  Reading a property of [undefined] or [null] throws; members
    inherited from [Object.prototype] and [Array.prototype] are not modelled. *)
Definition get (x : value) (prop : string) : outcome value :=
  match x with
  | Undefined | Null => Throw "TypeError"
  | Bool _ | Num _ => Return Undefined
  | Str s => Return (array_get (chars s) prop)
  | Arr l => Return (array_get l prop)
  | Obj props => Return (obj_get props prop)
  end.

(** [Object.keys(obj)]. *)
Definition Object_keys (obj : value) : outcome (list string) :=
  match obj with
  | Undefined | Null => Throw "TypeError"
  | Bool _ | Num _ => Return []
  | Str s => Return (index_keys (String.length s))
  | Arr l => Return (index_keys (length l))
  | Obj props => Return props.*1
  end.

(* ===================================================================== *)
(** * The structural diff engine *)
(* ===================================================================== *)

Inductive Op : Type := add | replace | remove.

(** A JSON Patch operation; [patch_value] is [None] where the source object
    has no [value] member (the [remove] operations). *)
Record Patch : Type := mkPatch {
  op : Op;
  path : string;
  patch_value : option value
}.

(** [function keys(obj)]: the index keys when [Array.isArray(obj)], and
    [Object.keys(obj)] otherwise. *)
Definition keys (obj : value) : outcome (list string) :=
  match obj with
  | Arr l => Return (index_keys (length l))
  | _ => Object_keys obj
  end.

(** [s.replace(/c/g, by)] for a one-character pattern [c]. *)
Fixpoint replace_all (c : ascii) (by_ : string) (s : string) : string :=
  match s with
  | EmptyString => EmptyString
  | String a s' =>
      if decide (a = c) then by_ +:+ replace_all c by_ s'
      else String a (replace_all c by_ s')
  end.

(** [function append(path, prop)]. *)
Definition append (path prop : string) : string :=
  path +:+ "/" +:+ replace_all "/" "~1" (replace_all "~" "~0" prop).

(** [function isScalar(x)]. *)
Definition isScalar (x : value) : bool :=
  negb (bool_decide (typeof x = "object")) || strict_eq false x Null.

(** The three object literals [diff] pushes. *)
Definition mk_replace (path : string) (v : value) : Patch :=
  mkPatch replace path (Some v).
Definition mk_add (path : string) (v : value) : Patch :=
  mkPatch add path (Some v).
Definition mk_remove (path : string) : Patch :=
  mkPatch remove path None.

Section Diff.

(** [same_object p] tells whether the two containers that [diff] compares
    at pointer [p] are one and the same JS object. *)
Variable same_object : string -> bool.

(** [function diff(prev, next, path = "")].  [patches.push(x)] appends at
    the end of [patches]. *)
Fixpoint diff (fuel : nat) (prev next : value) (path : string)
  : outcome (list Patch) :=
  match fuel with
  | O => OutOfFuel
  | S fuel' =>
      if strict_eq (same_object path) prev next then Return []
      else if isScalar prev || isScalar next then Return [mk_replace path next]
      else
        next_keys ← keys next;
        patches ← for_of (fun patches prop =>
          let newPath := append path prop in
          prev_prop ← get prev prop;
          next_prop ← get next prop;
          if bool_decide (typeof prev_prop = "undefined") then
            Return (patches ++ [mk_add newPath next_prop])
          else if bool_decide (typeof next_prop = "object")
                  && bool_decide (typeof prev_prop = "object") then
            nested ← diff fuel' prev_prop next_prop newPath;
            Return (patches ++ nested)
          else if negb (strict_eq (same_object newPath) prev_prop next_prop) then
            Return (patches ++ [mk_replace newPath next_prop])
          else Return patches) next_keys [];
        prev_keys ← keys prev;
        for_of (fun patches prop =>
          next_prop ← get next prop;
          if bool_decide (typeof next_prop = "undefined") then
            Return (patches ++ [mk_remove (append path prop)])
          else Return patches) prev_keys patches
  end.

End Diff.

(** The two arguments of [diff] share no container. *)
Definition distinct_objects : string -> bool := fun _ => false.

(** The number [z] as a value. *)
Definition num (z : Z) : value := Num (Finite (inject_Z z)).

(* ===================================================================== *)
(** * JSON Pointer escaping *)
(* ===================================================================== *)

(** The escaping of one character of a reference token, as the
    specification words it: ['~'] becomes ["~0"], ['/'] becomes ["~1"]. *)
Definition escape_char (c : ascii) : string :=
  if decide (c = "~"%char) then "~0"
  else if decide (c = "/"%char) then "~1"
  else String c "".

Fixpoint escape_segment (s : string) : string :=
  match s with
  | EmptyString => EmptyString
  | String c s' => escape_char c +:+ escape_segment s'
  end.

(* ===================================================================== *)
(** * JSON documents, deep equality and RFC 6902 patch application *)
(* ===================================================================== *)

(** A JSON value: no [undefined], no [NaN] or infinity, and no object with
    two members of the same name. *)
Fixpoint is_json (v : value) : bool :=
  match v with
  | Undefined => false
  | Null | Bool _ | Str _ => true
  | Num n => match n with Finite _ => true | _ => false end
  | Arr elems => forallb is_json elems
  | Obj props =>
      bool_decide (NoDup props.*1) && forallb (fun kv => is_json kv.2) props
  end.

(** Nesting depth: one [diff] call per level. *)
Fixpoint depth (v : value) : nat :=
  match v with
  | Arr elems => S (foldr (fun x d => Nat.max (depth x) d) 0%nat elems)
  | Obj props => S (foldr (fun kv d => Nat.max (depth kv.2) d) 0%nat props)
  | _ => 0%nat
  end.

(** The member named [k] of an object, if it has one. *)
Fixpoint member {A : Type} (props : list (string * A)) (k : string) : option A :=
  match props with
  | [] => None
  | (k', v) :: props' => if decide (k' = k) then Some v else member props' k
  end.

(** Same number, in the sense of a deep comparison. *)
Definition number_same (a b : number) : bool :=
  match a, b with
  | NaN, NaN => true
  | Infinity s, Infinity t => bool_decide (s = t)
  | Finite p, Finite q => Qeq_bool p q
  | _, _ => false
  end.

(** Deep equality: arrays element by element, objects member by member
    whatever the order of their members. *)
Fixpoint deep_equal (a b : value) : bool :=
  match a, b with
  | Undefined, Undefined => true
  | Null, Null => true
  | Bool x, Bool y => bool_decide (x = y)
  | Num x, Num y => number_same x y
  | Str x, Str y => bool_decide (x = y)
  | Arr l1, Arr l2 =>
      (fix elems (l1 l2 : list value) : bool :=
         match l1, l2 with
         | [], [] => true
         | x :: l1', y :: l2' => deep_equal x y && elems l1' l2'
         | _, _ => false
         end) l1 l2
  | Obj p1, Obj p2 =>
      bool_decide (length p1 = length p2)
      && (fix members (p : list (string * value)) : bool :=
            match p with
            | [] => true
            | (k, x) :: p' =>
                match member p2 k with
                | Some y => deep_equal x y
                | None => false
                end && members p'
            end) p1
  | _, _ => false
  end.

(** Patch application as RFC 6902 defines it, with the JSON Pointers of
    RFC 6901.  The repository has no code for it: its patches are meant for
    consumers that apply them by the standard. *)
Module RFC6902.

(** RFC 6901: a reference token with ["~1"] turned into ['/'] and ["~0"]
    into ['~']; any other use of ['~'] is a syntax error. *)
Fixpoint unescape (s : string) : option string :=
  match s with
  | EmptyString => Some EmptyString
  | String c r =>
      if decide (c = "~"%char) then
        match r with
        | String d r' =>
            if decide (d = "0"%char) then String "~" <$> unescape r'
            else if decide (d = "1"%char) then String "/" <$> unescape r'
            else None
        | EmptyString => None
        end
      else String c <$> unescape r
  end.

(** The pieces of [s] between its ['/'] characters. *)
Fixpoint split_slash (s : string) : list string :=
  match s with
  | EmptyString => [EmptyString]
  | String c r =>
      if decide (c = "/"%char) then EmptyString :: split_slash r
      else match split_slash r with
           | t :: ts => String c t :: ts
           | [] => [String c EmptyString]
           end
  end.

(** RFC 6901: the reference tokens of a JSON Pointer; the empty pointer
    names the whole document. *)
Definition parse_pointer (p : string) : option (list string) :=
  match p with
  | EmptyString => Some []
  | String c r =>
      if decide (c = "/"%char) then mapM unescape (split_slash r) else None
  end.

(** The array index below [bound] that the token [tok] denotes: digits
    without leading zeros. *)
Definition array_index (tok : string) (bound : nat) : option nat :=
  fst <$> list_find (fun i => pretty i = tok) (seq 0 bound).

(** The object with the member [k] set to [v]: in place when it exists, as
    a new last member otherwise. *)
Definition set_member (props : list (string * value)) (k : string) (v : value)
  : list (string * value) :=
  match member props k with
  | Some _ => (fun kv => if decide (kv.1 = k) then (k, v) else kv) <$> props
  | None => props ++ [(k, v)]
  end.

(** The object without the member [k]. *)
Definition delete_member (props : list (string * value)) (k : string)
  : list (string * value) :=
  filter (fun kv => kv.1 <> k) props.

(** Walks [doc] along all tokens but the last, applies [leaf] to the
    container found there and the last token, and rebuilds the document.
    A token that names nothing is an error. *)
Fixpoint update_at (tokens : list string)
    (leaf : value -> string -> option value) (doc : value) : option value :=
  match tokens with
  | [] => None
  | t :: ts =>
      match ts with
      | [] => leaf doc t
      | _ :: _ =>
          match doc with
          | Obj props =>
              child ← member props t;
              child' ← update_at ts leaf child;
              Some (Obj (set_member props t child'))
          | Arr elems =>
              i ← array_index t (length elems);
              child ← elems !! i;
              child' ← update_at ts leaf child;
              Some (Arr (<[i:=child']> elems))
          | _ => None
          end
      end
  end.

(** RFC 6902, 4.1: a new member, or a new element shifting the later ones. *)
Definition add_leaf (v : value) (target : value) (t : string) : option value :=
  match target with
  | Obj props => Some (Obj (set_member props t v))
  | Arr elems =>
      if decide (t = "-") then Some (Arr (elems ++ [v]))
      else i ← array_index t (S (length elems));
           Some (Arr (take i elems ++ v :: drop i elems))
  | _ => None
  end.

(** RFC 6902, 4.2: the target location must exist. *)
Definition remove_leaf (target : value) (t : string) : option value :=
  match target with
  | Obj props => _ ← member props t; Some (Obj (delete_member props t))
  | Arr elems => i ← array_index t (length elems); Some (Arr (delete i elems))
  | _ => None
  end.

(** RFC 6902, 4.3: the target location must exist. *)
Definition replace_leaf (v : value) (target : value) (t : string) : option value :=
  match target with
  | Obj props => _ ← member props t; Some (Obj (set_member props t v))
  | Arr elems => i ← array_index t (length elems); Some (Arr (<[i:=v]> elems))
  | _ => None
  end.

(** One operation; [None] is an error.  An [add] or a [replace] at the
    empty pointer exchanges the whole document, a [remove] there is an
    error. *)
Definition apply_patch (doc : value) (p : Patch) : option value :=
  tokens ← parse_pointer (path p);
  match op p, patch_value p with
  | add, Some v => if tokens is [] then Some v else update_at tokens (add_leaf v) doc
  | replace, Some v =>
      if tokens is [] then Some v else update_at tokens (replace_leaf v) doc
  | remove, _ => update_at tokens remove_leaf doc
  | _, None => None
  end.

(** The operations are applied one after the other, each to the result of
    the one before; the first error ends the application. *)
Fixpoint apply_patches (doc : value) (ps : list Patch) : option value :=
  match ps with
  | [] => Some doc
  | p :: ps' => doc' ← apply_patch doc p; apply_patches doc' ps'
  end.

End RFC6902.

(* ===================================================================== *)
(** * [Number(string)] *)
(* ===================================================================== *)

(** The conversion of a string to a number, after the StringNumericLiteral
    grammar of ECMAScript. *)
Module StringToNumber.

(** The value of [c] as a digit of the given radix (at most 16). *)
Definition digit_value (radix : Z) (c : ascii) : option Z :=
  let n := Z.of_N (N_of_ascii c) in
  let d :=
    if (48 <=? n)%Z && (n <=? 57)%Z then Some (n - 48)%Z
    else if (97 <=? n)%Z && (n <=? 102)%Z then Some (n - 87)%Z
    else if (65 <=? n)%Z && (n <=? 70)%Z then Some (n - 55)%Z
    else None in
  d' ← d; if (d' <? radix)%Z then Some d' else None.

(** Reads the longest run of digits at the head of [s]: the number they
    spell after [acc], how many there were, and what follows them. *)
Fixpoint digits (radix : Z) (s : string) (acc : Z) (count : nat)
  : Z * nat * string :=
  match s with
  | EmptyString => (acc, count, EmptyString)
  | String c r =>
      match digit_value radix c with
      | Some d => digits radix r (acc * radix + d)%Z (S count)
      | None => (acc, count, s)
      end
  end.

(** [mantissa * 10 ^ exponent]. *)
Definition scale (mantissa exponent : Z) : Q :=
  Qred (inject_Z mantissa * Qpower (inject_Z 10) exponent).

(** StrUnsignedDecimalLiteral without [Infinity]: digits, an optional
    fraction, an optional exponent, and at least one digit before the
    exponent. *)
Definition unsigned_decimal (s : string) : option Q :=
  let '(int_part, n1, r1) := digits 10 s 0 0 in
  let '(mantissa, n2, r2) :=
    match r1 with
    | String "." r => digits 10 r int_part 0
    | _ => (int_part, 0%nat, r1)
    end in
  if decide (n1 + n2 = 0)%nat then None
  else match r2 with
       | EmptyString => Some (scale mantissa (- Z.of_nat n2))
       | String e r3 =>
           if decide (e = "e"%char \/ e = "E"%char) then
             let '(sign, r4) :=
               match r3 with
               | String "+" r => (1%Z, r)
               | String "-" r => ((-1)%Z, r)
               | _ => (1%Z, r3)
               end in
             let '(x, n3, r5) := digits 10 r4 0 0 in
             if decide (n3 = 0%nat) then None
             else if decide (r5 = EmptyString)
                  then Some (scale mantissa (sign * x - Z.of_nat n2))
                  else None
           else None
       end.

(** NonDecimalIntegerLiteral: at least one digit of the radix and nothing
    after them. *)
Definition radix_literal (radix : Z) (s : string) : number :=
  let '(x, n, r) := digits radix s 0 0 in
  if decide (n = 0%nat) then NaN
  else if decide (r = EmptyString) then Finite (inject_Z x) else NaN.

Fixpoint trim_start (s : string) : string :=
  match s with
  | EmptyString => EmptyString
  | String c r => if Ascii.is_space c then trim_start r else s
  end.

(** White space is stripped at both ends (the ASCII white space and line
    terminators only). *)
Definition trim (s : string) : string :=
  String.rev (trim_start (String.rev (trim_start s))).

(** A numeric literal: a radix literal without sign, or a signed decimal
    literal or [Infinity]. *)
Definition StrNumericLiteral (s : string) : number :=
  match s with
  | String "0" (String "x" r) | String "0" (String "X" r) => radix_literal 16 r
  | String "0" (String "o" r) | String "0" (String "O" r) => radix_literal 8 r
  | String "0" (String "b" r) | String "0" (String "B" r) => radix_literal 2 r
  | _ =>
      let '(negative, u) :=
        match s with
        | String "+" r => (false, r)
        | String "-" r => (true, r)
        | _ => (false, s)
        end in
      if decide (u = "Infinity") then Infinity negative
      else match unsigned_decimal u with
           | Some q => Finite (if negative then Qopp q else q)
           | None => NaN
           end
  end.

End StringToNumber.

(** [Number(value)] for a string [value]: the empty or all-blank string is
    [0], a numeric literal is its value, anything else is [NaN]. *)
Definition Number (s : string) : number :=
  let t := StringToNumber.trim s in
  if decide (t = EmptyString) then Finite 0
  else StringToNumber.StrNumericLiteral t.

(** [Number.isNaN(x)]. *)
Definition Number_isNaN (x : number) : bool :=
  match x with NaN => true | _ => false end.

(* ===================================================================== *)
(** * Value getters and schema compilation *)
(* ===================================================================== *)

(** A [ValueGetter]: a function of the raw attribute ([null] is [None]) and
    the slotted elements, together with its [length] (its arity), which
    [isCompositeSchema] inspects.  [E] is the type of [JSONElement]
    instances. *)
Record ValueGetter (E : Type) : Type := mkGetter {
  fn_length : nat;
  call : option string -> list E -> value
}.

Arguments mkGetter {E} fn_length call.
Arguments fn_length {E} _.
Arguments call {E} _ _ _.

(** What a schema may hold under a key. *)
Inductive SchemaInput (E : Type) : Type :=
| SValue (v : value)              (* a plain value, such as a literal *)
| SArrayLiteral                   (* an array literal, such as [[Child]] *)
| SBoolean                        (* the constructor [Boolean] *)
| SNumber                         (* the constructor [Number] *)
| SString                         (* the constructor [String] *)
| SObject                         (* the constructor [Object] *)
| SArray                          (* the constructor [Array] *)
| SElement                        (* a class that extends [JSONElement] *)
| SFunction (fn : ValueGetter E). (* any other function *)

Arguments SValue {E} v.
Arguments SArrayLiteral {E}.
Arguments SBoolean {E}.
Arguments SNumber {E}.
Arguments SString {E}.
Arguments SObject {E}.
Arguments SArray {E}.
Arguments SElement {E}.
Arguments SFunction {E} fn.

Module Getters.
Section Getters.

Context {E : Type}.

(** [el.json], the JSON each slotted element reports. *)
Variable json_of : E -> value.

(** [const boolean = value => value !== null]. *)
Definition boolean : ValueGetter E :=
  mkGetter 1 (fun value _ => Bool (bool_decide (value <> None))).

(** [const number]. *)
Definition number : ValueGetter E :=
  mkGetter 1 (fun value _ =>
    match value with
    | None => Undefined
    | Some s =>
        let num := Number s in
        if Number_isNaN num then Undefined else Num num
    end).

(** [const object = (_, [el]) => el?.json]. *)
Definition object : ValueGetter E :=
  mkGetter 2 (fun _ els =>
    match els with
    | [] => Undefined
    | el :: _ => json_of el
    end).

(** [const array = (_, els) => els.map(el => el.json)]. *)
Definition array : ValueGetter E :=
  mkGetter 2 (fun _ els => Arr (json_of <$> els)).

(** [const string = value => value || undefined]. *)
Definition string : ValueGetter E :=
  mkGetter 1 (fun value _ =>
    match value with
    | None => Undefined
    | Some s => if decide (s = EmptyString) then Undefined else Str s
    end).

End Getters.
End Getters.

Section Schema.

Context {E : Type}.
Variable json_of : E -> value.

(** [const LITERAL_TYPES]. *)
Definition LITERAL_TYPES : list string := ["boolean"; "number"; "string"; "null"].

(** [typeof schema]. *)
Definition typeof_schema (schema : SchemaInput E) : string :=
  match schema with
  | SValue v => typeof v
  | SArrayLiteral => "object"
  | _ => "function"
  end.

(** [schema.length] of a schema that is a function. *)
Definition schema_length (schema : SchemaInput E) : nat :=
  match schema with
  | SFunction fn => fn_length fn
  | SElement => 0
  | SBoolean | SNumber | SString | SObject | SArray => 1
  | _ => 0
  end.

(** [const isLiteralSchema]. *)
Definition isLiteralSchema (schema : SchemaInput E) : bool :=
  bool_decide (typeof_schema schema ∈ LITERAL_TYPES).

(** [const isArraySchema]: an array, or the constructor [Array]. *)
Definition isArraySchema (schema : SchemaInput E) : bool :=
  match schema with
  | SArrayLiteral | SValue (Arr _) | SArray => true
  | _ => false
  end.

(** [const isObjectSchema]: a class that extends [JSONElement], or the
    constructor [Object]. *)
Definition isObjectSchema (schema : SchemaInput E) : bool :=
  match schema with
  | SElement | SObject => true
  | _ => false
  end.

(** [const isCompositeSchema]. *)
Definition isCompositeSchema (schema : SchemaInput E) : bool :=
  isObjectSchema schema
  || isArraySchema schema
  || (bool_decide (typeof_schema schema = "function")
      && bool_decide (2 <= schema_length schema)%nat).

(** The literal getter [() => schema]. *)
Definition literal (v : value) : ValueGetter E := mkGetter 0 (fun _ _ => v).

(** The schema itself as the value a literal getter returns. *)
Definition as_value (schema : SchemaInput E) : value :=
  match schema with SValue v => v | _ => Undefined end.

Definition is_Boolean (schema : SchemaInput E) : bool :=
  match schema with SBoolean => true | _ => false end.
Definition is_Number (schema : SchemaInput E) : bool :=
  match schema with SNumber => true | _ => false end.
Definition is_String (schema : SchemaInput E) : bool :=
  match schema with SString => true | _ => false end.

(** [function compile(schema)]. *)
Definition compile (schema : SchemaInput E) : outcome (ValueGetter E) :=
  if isLiteralSchema schema then Return (literal (as_value schema))
  else if is_Boolean schema then Return Getters.boolean
  else if is_Number schema then Return Getters.number
  else if is_String schema then Return Getters.string
  else if isObjectSchema schema then Return (Getters.object json_of)
  else if isArraySchema schema then Return (Getters.array json_of)
  else match schema with
       | SFunction fn => Return fn
       | _ => Throw "Invalid schema input"
       end.

(** The loop in the function [Enum] returns: the first result that is not
    [undefined], or [undefined] when the alternatives are exhausted. *)
Fixpoint first_defined (fns : list (ValueGetter E))
    (attr : option string) (els : list E) : value :=
  match fns with
  | [] => Undefined
  | fn :: fns' =>
      let result := call fn attr els in
      if negb (strict_eq false result Undefined) then result
      else first_defined fns' attr els
  end.

(** [schemata.map(schema => compile(schema))]: stops at the first throw. *)
Fixpoint compile_all (schemata : list (SchemaInput E))
  : outcome (list (ValueGetter E)) :=
  match schemata with
  | [] => Return []
  | schema :: rest =>
      fn ← compile schema; fns ← compile_all rest; Return (fn :: fns)
  end.

(** [export function Enum(...schemata)]. *)
Definition Enum (schemata : list (SchemaInput E)) : outcome (ValueGetter E) :=
  fns ← compile_all schemata;
  Return (mkGetter 2 (first_defined fns)).

End Schema.

(* ===================================================================== *)
(** * Objects as JavaScript orders their keys *)
(* ===================================================================== *)

(** An array index: the canonical decimal spelling of an integer below
    [2^32 - 1].  Own keys that are array indices come first, in ascending
    numeric order; the other keys follow in the order of their creation. *)
Definition parse_array_index (k : string) : option Z :=
  match k with
  | EmptyString => None
  | String "0" EmptyString => Some 0%Z
  | String "0" _ => None
  | _ =>
      let '(x, _, r) := StringToNumber.digits 10 k 0 0 in
      if decide (r = EmptyString) then
        if (x <? 2 ^ 32 - 1)%Z then Some x else None
      else None
  end.

(** Whether a new key [k] is listed before the existing key [k']. *)
Definition key_before (k k' : string) : bool :=
  match parse_array_index k, parse_array_index k' with
  | Some i, Some j => (i <? j)%Z
  | Some _, None => true
  | None, _ => false
  end.

(** [obj[k] = v]: an existing property keeps its place and takes the new
    value; a new property is created at its place in the key order. *)
Fixpoint obj_set {A : Type} (props : list (string * A)) (k : string) (v : A)
  : list (string * A) :=
  match props with
  | [] => [(k, v)]
  | (k', v') :: rest =>
      if decide (k' = k) then (k, v) :: rest
      else if key_before k k' then (k, v) :: props
      else (k', v') :: obj_set rest k v
  end.

(** The key lists an object can have: no key twice, and no key listed
    after one it should precede. *)
Fixpoint key_ordered (ks : list string) : bool :=
  match ks with
  | [] => true
  | k :: ks' => forallb (fun k' => negb (key_before k' k)) ks' && key_ordered ks'
  end.

Definition own_keys (ks : list string) : Prop :=
  NoDup ks /\ key_ordered ks = true.

(** The object that an object literal evaluates to, for the members [decl]
    of the literal in the order they are written: every member is defined
    in turn, a key written twice keeps its first place and its last value. *)
Definition object_literal {A : Type} (decl : list (string * A)) : list (string * A) :=
  foldl (fun obj member => obj_set obj member.1 member.2) [] decl.

(* ===================================================================== *)
(** * Element instances and the [json] getter *)
(* ===================================================================== *)

(** An element assigned to a slot: an instance of [JSONElement], or some
    other element. *)
Inductive Assigned (E : Type) : Type :=
| IsJSONElement (el : E)
| OtherElement.

Arguments IsJSONElement {E} el.
Arguments OtherElement {E}.

(** The DOM state an element reads: its attributes as the markup lists
    them, and the elements assigned to the slot of each name. *)
Record Dom (E : Type) : Type := mkDom {
  attributes : list (string * string);
  assigned : string -> list (Assigned E)
}.

Arguments mkDom {E} attributes assigned.
Arguments attributes {E} _.
Arguments assigned {E} _ _.

(** The private fields of an instance, and the names of the slots its
    constructor put in the shadow root. *)
Record Instance (E : Type) : Type := mkInstance {
  queued : bool;
  prev : value;
  schema : list (string * ValueGetter E);
  slots : list string
}.

Arguments mkInstance {E} queued prev schema slots.
Arguments queued {E} _.
Arguments prev {E} _.
Arguments schema {E} _.
Arguments slots {E} _.

Section Element.

Context {E : Type}.
Variable json_of : E -> value.

(** [this.getAttribute(name)]. *)
Definition getAttribute (dom : Dom E) (name : string) : option string :=
  member (attributes dom) name.

(** [this.hasAttribute(name)]. *)
Definition hasAttribute (dom : Dom E) (name : string) : bool :=
  bool_decide (is_Some (member (attributes dom) name)).

(** [#slotted(name)]: the [JSONElement] instances assigned to the slot the
    selector finds, which is the slot of that name, or the first slot when
    [name] is empty.  The selector [slot[name=...]] holds the name without
    quotes: it is well formed when the name is an identifier, and the
    syntax error [querySelector] throws on other names is not modelled. *)
Definition slotted (this : Instance E) (dom : Dom E) (name : string) : list E :=
  let slot :=
    if decide (name = EmptyString) then head (slots this)
    else if decide (name ∈ slots this) then Some name else None in
  match slot with
  | Some n =>
      omap (fun el => match el with IsJSONElement e => Some e | OtherElement => None end)
           (assigned dom n)
  | None => []
  end.

(** [get json()]. *)
Definition json (this : Instance E) (dom : Dom E) : value :=
  Obj (foldl (fun (json : list (string * value)) (entry : string * ValueGetter E) =>
                let '(key, fn) := entry in
                let els :=
                  if isCompositeSchema (SFunction fn) then slotted this dom key
                  else [] in
                let result := call fn (getAttribute dom key) els in
                if negb (strict_eq false result Undefined)
                then obj_set json key result
                else json)
             [] (schema this)).

(** The loop of the constructor over [Object.entries(schema)]; [calls]
    counts the invocations of [compile]. *)
Fixpoint constructor_loop (entries : list (string * SchemaInput E))
    (this : Instance E) (calls : nat) : outcome (Instance E) * nat :=
  match entries with
  | [] => (Return this, calls)
  | (key, input) :: rest =>
      match compile json_of input with
      | Return fn =>
          let this' :=
            mkInstance (queued this) (prev this) (obj_set (schema this) key fn)
              (if isCompositeSchema input then slots this ++ [key] else slots this) in
          constructor_loop rest this' (S calls)
      | Throw e => (Throw e, S calls)
      | OutOfFuel => (OutOfFuel, S calls)
      end
  end.

(** [constructor()], for a class whose static [schema] has the entries
    [static_schema]. *)
Definition constructor (static_schema : list (string * SchemaInput E))
    (calls : nat) : outcome (Instance E) * nat :=
  constructor_loop static_schema (mkInstance false Null [] []) calls.

End Element.

(* ===================================================================== *)
(** * Change batching and notification *)
(* ===================================================================== *)

(** The only microtask the element queues: [() => this.#notify()]. *)
Inductive Task : Type := notify_task.

(** Where an event that reaches the element comes from. *)
Inductive Target : Type :=
| TargetThis            (* the element itself *)
| TargetJSONElement     (* another instance of [JSONElement] *)
| TargetOther.          (* any other node *)

Record Event : Type := mkEvent {
  type : string;
  target : Target;
  detail_patches : option (list Patch);
  bubbles : bool;
  propagation_stopped : bool
}.

(** An element in its environment: its private state, the DOM it reads, the
    microtask queue, and the events it has dispatched so far. *)
Record World (E : Type) : Type := mkWorld {
  this : Instance E;
  dom : Dom E;
  microtasks : list Task;
  dispatched : list Event
}.

Arguments mkWorld {E} this dom microtasks dispatched.
Arguments this {E} _.
Arguments dom {E} _.
Arguments microtasks {E} _.
Arguments dispatched {E} _.

(** What the browser does to the element between two microtask
    checkpoints, with the change of DOM state that comes with it. *)
Inductive Input (E : Type) : Type :=
| AttributeChanged (name : string) (new_value : option string)
| Connected
| Slotchange (name : string) (els : list (Assigned E))
| Notification (origin : Target).

Arguments AttributeChanged {E} name new_value.
Arguments Connected {E}.
Arguments Slotchange {E} name els.
Arguments Notification {E} origin.

Section Batching.

Context {E : Type}.

(** [same_object p], as for [diff]: whether the snapshot and the new JSON
    share the container at pointer [p]. *)
Variable same_object : string -> bool.

Definition set_queued (this : Instance E) (q : bool) : Instance E :=
  mkInstance q (prev this) (schema this) (slots this).

Definition set_prev (this : Instance E) (p : value) : Instance E :=
  mkInstance (queued this) p (schema this) (slots this).

(** [queueMicrotask(task)]. *)
Definition queueMicrotask (task : Task) (w : World E) : World E :=
  mkWorld (this w) (dom w) (microtasks w ++ [task]) (dispatched w).

(** [#queue()]. *)
Definition queue (w : World E) : World E :=
  let w' := if negb (queued (this w)) then queueMicrotask notify_task w else w in
  mkWorld (set_queued (this w') true) (dom w') (microtasks w') (dispatched w').

(** [handleEvent(ev)]: the world after the handler, and the event with its
    propagation flag. *)
Definition handleEvent (ev : Event) (w : World E) : World E * Event :=
  if decide (type ev = "slotchange") then (queue w, ev)
  else if decide (type ev = "json-change") then
    match target ev with
    | TargetThis => (w, ev)
    | TargetOther => (w, ev)
    | TargetJSONElement =>
        (queue w,
         mkEvent (type ev) (target ev) (detail_patches ev) (bubbles ev) true)
    end
  else (w, ev).

(** [this.dispatchEvent(ev)]: the event is recorded as dispatched, and the
    element's own ["json-change"] listener runs. *)
Definition dispatchEvent (ev : Event) (w : World E) : World E :=
  let w' := mkWorld (this w) (dom w) (microtasks w) (dispatched w ++ [ev]) in
  if decide (type ev = "json-change") then (handleEvent ev w').1 else w'.

(** [#notify()]. *)
Definition notify (w : World E) : outcome (World E) :=
  '(patches, this') ←
    (if hasAttribute (dom w) "diff" then
       let json := json (this w) (dom w) in
       patches ← diff same_object (S (depth json)) (prev (this w)) json "";
       Return (Some patches, set_prev (this w) json)
     else Return (None, this w));
  let ev := mkEvent "json-change" TargetThis patches true false in
  let this'' := set_queued this' false in
  Return (dispatchEvent ev (mkWorld this'' (dom w) (microtasks w) (dispatched w))).

Definition run_task (task : Task) (w : World E) : outcome (World E) :=
  match task with notify_task => notify w end.

(** A microtask checkpoint: the oldest task runs, until the queue is empty. *)
Fixpoint drain (fuel : nat) (w : World E) : outcome (World E) :=
  match microtasks w with
  | [] => Return w
  | task :: rest =>
      match fuel with
      | O => OutOfFuel
      | S fuel' =>
          w' ← run_task task (mkWorld (this w) (dom w) rest (dispatched w));
          drain fuel' w'
      end
  end.

(** [attributeChangedCallback()]. *)
Definition attributeChangedCallback (w : World E) : World E := queue w.

(** [connectedCallback()]. *)
Definition connectedCallback (w : World E) : World E := queue w.

Definition set_attribute (attrs : list (string * string)) (name : string)
    (new_value : option string) : list (string * string) :=
  match new_value with
  | Some v =>
      if decide (is_Some (member attrs name))
      then (fun kv => if decide (kv.1 = name) then (name, v) else kv) <$> attrs
      else attrs ++ [(name, v)]
  | None => filter (fun kv => kv.1 <> name) attrs
  end.

(** The element's reaction to one input: the DOM changes, then the callback
    or listener for it runs. *)
Definition react (w : World E) (input : Input E) : World E :=
  match input with
  | AttributeChanged name new_value =>
      attributeChangedCallback
        (mkWorld (this w)
           (mkDom (set_attribute (attributes (dom w)) name new_value)
                  (assigned (dom w)))
           (microtasks w) (dispatched w))
  | Connected => connectedCallback w
  | Slotchange name els =>
      (handleEvent (mkEvent "slotchange" TargetOther None true false)
         (mkWorld (this w)
            (mkDom (attributes (dom w))
                   (fun n => if decide (n = name) then els else assigned (dom w) n))
            (microtasks w) (dispatched w))).1
  | Notification origin =>
      (handleEvent (mkEvent "json-change" origin None true false) w).1
  end.

(** The inputs the element counts as changes: attribute mutations,
    connection, slot changes, and notifications of other [JSONElement]s. *)
Definition is_change (input : Input E) : bool :=
  match input with
  | Notification TargetJSONElement => true
  | Notification _ => false
  | _ => true
  end.

(** Nothing is pending, or exactly one flush is. *)
Definition coherent (w : World E) : Prop :=
  microtasks w = if queued (this w) then [notify_task] else [].

(** The states an element can be in: freshly constructed with an empty
    microtask queue, then any sequence of inputs and microtask checkpoints. *)
Inductive reachable : World E -> Prop :=
| reachable_new (this : Instance E) (dom : Dom E) :
    queued this = false -> reachable (mkWorld this dom [] [])
| reachable_react (w : World E) (input : Input E) :
    reachable w -> reachable (react w input)
| reachable_drain (w w' : World E) (fuel : nat) :
    reachable w -> drain fuel w = Return w' -> reachable w'.

End Batching.

(* ===================================================================== *)
(** * Registration and observed attributes *)
(* ===================================================================== *)

(** [static get observedAttributes()]: [Object.keys(this.schema)], for a
    class whose static [schema] has the entries [static_schema]. *)
Definition observedAttributes {E : Type}
    (static_schema : list (string * SchemaInput E)) : list string :=
  static_schema.*1.

(** ASCII lower case, as HTML applies it to the name of an attribute of an
    HTML element, in the markup and in [setAttribute], [removeAttribute],
    [getAttribute] and [hasAttribute]. *)
Definition ascii_lower (c : ascii) : ascii :=
  let n := nat_of_ascii c in
  if Nat.leb 65 n && Nat.leb n 90 then ascii_of_nat (n + 32) else c.

Fixpoint to_lower (s : string) : string :=
  match s with
  | EmptyString => EmptyString
  | String c s' => String (ascii_lower c) (to_lower s')
  end.

(** [setAttribute(name, text)], where [new_value] is the text, or
    [removeAttribute(name)], where [new_value] is [None], on the element,
    for a [name] that [setAttribute] takes (it throws on a name with a
    character no attribute name can have, which is not modelled): the name
    is put in lower case; removing an attribute the element does not have
    does nothing; otherwise the DOM changes, and the browser calls
    [attributeChangedCallback] when the name is among the observed
    attributes, also when the text is the one the attribute had. *)
Definition attribute_mutation {E : Type}
    (static_schema : list (string * SchemaInput E))
    (w : World E) (name : string) (new_value : option string) : World E :=
  let local_name := to_lower name in
  if bool_decide (new_value = None) && negb (hasAttribute (dom w) local_name) then w
  else
    let w' :=
      mkWorld (this w)
        (mkDom (set_attribute (attributes (dom w)) local_name new_value)
               (assigned (dom w)))
        (microtasks w) (dispatched w) in
    if decide (local_name ∈ observedAttributes static_schema)
    then attributeChangedCallback w' else w'.

Section Register.

(** [C] is the type of the classes (constructors) that get registered. *)
Context {C : Type} `{EqDecision C}.

(** Whether the platform takes [tag] as the name of a custom element. *)
Variable valid_name : string -> bool.

(** The registry [customElements], and the warnings on the console. *)
Record Registry : Type := mkRegistry {
  definitions : list (string * C);
  console : list string
}.

(** [customElements.get(tag)]: [undefined] is [None]. *)
Definition customElements_get (r : Registry) (tag : string) : option C :=
  member (definitions r) tag.

(** [customElements.define(tag, cls)]: it throws on a name that is not
    valid, on a name already defined, and on a class already defined. *)
Definition customElements_define (r : Registry) (tag : string) (cls : C)
  : outcome Registry :=
  if negb (valid_name tag) then Throw "SyntaxError"
  else if bool_decide (is_Some (member (definitions r) tag))
  then Throw "NotSupportedError"
  else if bool_decide (cls ∈ (definitions r).*2) then Throw "NotSupportedError"
  else Return (mkRegistry (definitions r ++ [(tag, cls)]) (console r)).

(** [static register(tag = this.tag)], called on the class [this]. *)
Definition register (this : C) (tag : string) (r : Registry) : outcome Registry :=
  match customElements_get r tag with
  | Some ce =>
      if decide (ce = this) then Return r
      else Return (mkRegistry (definitions r)
                     (console r ++ ["<" +:+ tag +:+ "> already registered!"]))
  | None => customElements_define r tag this
  end.

(** What the platform keeps true of its registry: no name and no class is
    defined twice, and every name is valid. *)
Definition registry_ok (r : Registry) : Prop :=
  NoDup (definitions r).*1 /\ NoDup (definitions r).*2
  /\ Forall (fun tag => valid_name tag = true) (definitions r).*1.

End Register.

Arguments Registry C : clear implicits.

(* ===================================================================== *)
(** * Auxiliary notions for the statements *)
(* ===================================================================== *)

Definition is_digit (c : ascii) : bool :=
  bool_decide (c ∈ ["0"; "1"; "2"; "3"; "4"; "5"; "6"; "7"; "8"; "9"]%char).

Fixpoint all_digits (s : string) : bool :=
  match s with
  | EmptyString => true
  | String c s' => is_digit c && all_digits s'
  end.

(** A JSON scalar: [null], a boolean, a finite number or a string. *)
Definition json_scalar (v : value) : bool := is_json v && isScalar v.

(** The replaces that follow the removal of an array element: index [i]
    held [displaced] and now holds the head of [rest]; a replace is due
    wherever the two are not strictly equal. *)
Fixpoint cascade (path : string) (i : nat) (displaced : value) (rest : list value)
  : list Patch :=
  match rest with
  | [] => []
  | y :: rest' =>
      (if strict_eq false displaced y then []
       else [mk_replace (append path (pretty i)) y])
      ++ cascade path (S i) y rest'
  end.

(** The patches of a position-by-position comparison of two arrays of
    scalars, from index [i] on. *)
Fixpoint positional (path : string) (i : nat) (old new : list value) : list Patch :=
  match new with
  | [] => []
  | y :: new' =>
      match old with
      | [] => mk_add (append path (pretty i)) y :: positional path (S i) [] new'
      | x :: old' =>
          (if strict_eq false x y then []
           else [mk_replace (append path (pretty i)) y])
          ++ positional path (S i) old' new'
      end
  end.

(** The removes of the indices [from], ..., [from + count - 1]. *)
Definition trailing_removes (path : string) (from count : nat) : list Patch :=
  (fun i => mk_remove (append path (pretty i))) <$> seq from count.

(** One turn of the first loop of [diff], where the recursive calls have
    the fuel [fuel]: the patches after the turn for [prop]. *)
Definition change_turn (same : string -> bool) (fuel : nat)
    (prev next : value) (path : string)
    (patches : list Patch) (prop : string) : outcome (list Patch) :=
  let newPath := append path prop in
  prev_prop ← get prev prop;
  next_prop ← get next prop;
  if bool_decide (typeof prev_prop = "undefined") then
    Return (patches ++ [mk_add newPath next_prop])
  else if bool_decide (typeof next_prop = "object")
          && bool_decide (typeof prev_prop = "object") then
    nested ← diff same fuel prev_prop next_prop newPath;
    Return (patches ++ nested)
  else if negb (strict_eq (same newPath) prev_prop next_prop) then
    Return (patches ++ [mk_replace newPath next_prop])
  else Return patches.

(** One turn of the second loop of [diff]. *)
Definition removal_turn (next : value) (path : string)
    (patches : list Patch) (prop : string) : outcome (list Patch) :=
  next_prop ← get next prop;
  if bool_decide (typeof next_prop = "undefined") then
    Return (patches ++ [mk_remove (append path prop)])
  else Return patches.

(** What the turn for index [off + j] of the first loop pushes when both
    arrays hold scalars. *)
Definition turn_patches (path : string) (old new : list value) (off j : nat)
  : list Patch :=
  match new !! j with
  | None => []
  | Some y =>
      match old !! j with
      | None => [mk_add (append path (pretty (off + j)%nat)) y]
      | Some x =>
          if strict_eq false x y then []
          else [mk_replace (append path (pretty (off + j)%nat)) y]
      end
  end.

(** No two neighbours of the list are strictly equal. *)
Fixpoint neighbours_differ (l : list value) : bool :=
  match l with
  | x :: l' =>
      match l' with
      | y :: _ => negb (strict_eq false x y) && neighbours_differ l'
      | [] => true
      end
  | [] => true
  end.

(** What the getter [fn] of the key [key] returns for the DOM state [dom]. *)
Definition getter_result {E : Type} (this : Instance E) (dom : Dom E)
    (key : string) (fn : ValueGetter E) : value :=
  call fn (getAttribute dom key)
    (if isCompositeSchema (SFunction fn) then slotted this dom key else []).

(** The schema entries whose getter returns something other than
    [undefined], each with that result, in the order of the schema. *)
Definition assembled {E : Type} (this : Instance E) (dom : Dom E)
  : list (string * value) :=
  omap (fun entry : string * ValueGetter E =>
          let result := getter_result this dom entry.1 entry.2 in
          if negb (strict_eq false result Undefined)
          then Some (entry.1, result) else None)
       (schema this).

(** The loop of [get json()] with the turns named. *)
Definition json_turn {E : Type} (this : Instance E) (dom : Dom E)
    (json : list (string * value)) (entry : string * ValueGetter E)
  : list (string * value) :=
  let result := getter_result this dom entry.1 entry.2 in
  if negb (strict_eq false result Undefined)
  then obj_set json entry.1 result else json.

(** Two documents of the same shape: wherever both hold a container at the
    same position, the two are both arrays or both objects, and the array
    of the first is at most one element longer than the array of the
    second. *)
Fixpoint same_shape (a b : value) : bool :=
  match a, b with
  | Arr l1, Arr l2 =>
      bool_decide (length l1 <= S (length l2))%nat
      && (fix elems (l1 l2 : list value) : bool :=
            match l1, l2 with
            | x :: l1', y :: l2' => same_shape x y && elems l1' l2'
            | _, _ => true
            end) l1 l2
  | Obj p1, Obj p2 =>
      (fix members (p : list (string * value)) : bool :=
         match p with
         | [] => true
         | (k, x) :: p' =>
             match member p2 k with
             | Some y => same_shape x y
             | None => true
             end && members p'
         end) p1
  | Arr _, Obj _ | Obj _, Arr _ => false
  | _, _ => true
  end.

(** A patch with its pointer moved below the pointer [p]. *)
Definition prefix_patch (p : string) (patch : Patch) : Patch :=
  mkPatch (op patch) (p +:+ path patch) (patch_value patch).

(** The outcome with its result, if any, mapped by [f]. *)
Definition outcome_map {A B : Type} (f : A -> B) (o : outcome A) : outcome B :=
  match o with
  | Return a => Return (f a)
  | Throw e => Throw e
  | OutOfFuel => OutOfFuel
  end.

(** The state of the object after the turns of the first loop for the keys
    in [done]. *)
Definition changed (p1 p2 : list (string * value)) (done : list string)
    (patches : list Patch) : Prop :=
  exists cur,
    RFC6902.apply_patches (Obj p1) patches = Some (Obj cur)
    /\ NoDup cur.*1
    /\ (forall k, k ∈ done ->
          exists x y, member cur k = Some x /\ member p2 k = Some y
                      /\ deep_equal x y = true)
    /\ (forall k, k ∉ done -> member cur k = member p1 k).

(** The state of the object after the turns of the second loop for the
    keys in [done]. *)
Definition removed (p1 p2 : list (string * value)) (done : list string)
    (patches : list Patch) : Prop :=
  exists cur,
    RFC6902.apply_patches (Obj p1) patches = Some (Obj cur)
    /\ NoDup cur.*1
    /\ (forall k, k ∈ p2.*1 ->
          exists x y, member cur k = Some x /\ member p2 k = Some y
                      /\ deep_equal x y = true)
    /\ (forall k, k ∉ p2.*1 ->
          member cur k = if decide (k ∈ done) then None else member p1 k).

(** The state of the array after the turns of the first loop for the
    indices below [i]: the elements done, then the elements of [l1] still to
    do. *)
Definition aligned (l1 l2 : list value) (i : nat) (patches : list Patch) : Prop :=
  exists vs,
    RFC6902.apply_patches (Arr l1) patches = Some (Arr (vs ++ drop i l1))
    /\ Forall2 (fun a b => deep_equal a b = true) vs (take i l2).

(** The state of the array after the turns of the second loop for the
    indices below [i]. *)
Definition trimmed (l1 l2 : list value) (i : nat) (patches : list Patch) : Prop :=
  exists vs,
    RFC6902.apply_patches (Arr l1) patches
    = Some (Arr (vs ++ drop (Nat.max (length l2) i) l1))
    /\ Forall2 (fun a b => deep_equal a b = true) vs l2.

(** The names of the members a plain object inherits from
    [Object.prototype].  Property reads are embedded for own properties
    only, so statements about objects that gain or lose keys are made for
    keys outside this list. *)
Definition Object_prototype_names : list string :=
  ["constructor"; "__defineGetter__"; "__defineSetter__"; "hasOwnProperty";
   "__lookupGetter__"; "__lookupSetter__"; "isPrototypeOf";
   "propertyIsEnumerable"; "toString"; "valueOf"; "__proto__"; "toLocaleString"].

(** No object anywhere in [v] has a key that names an inherited member. *)
Fixpoint plain_keys (v : value) : bool :=
  match v with
  | Arr elems => forallb plain_keys elems
  | Obj props =>
      forallb (fun kv => bool_decide (kv.1 ∉ Object_prototype_names)
                         && plain_keys kv.2) props
  | _ => true
  end.

(** [x[k1][k2]...]: the value found by following the keys [ks] from [x]. *)
Definition read (x : value) (ks : list string) : outcome value := for_of get ks x.

(** The patch [p] agrees with the two documents at the keys [ks]: an add or
    a replace carries the value [next] holds there, an add goes where [prev]
    holds nothing, and a remove goes where [next] holds nothing. *)
Definition located (prev next : value) (ks : list string) (p : Patch) : Prop :=
  match op p with
  | add =>
      ks <> [] /\ read prev ks = Return Undefined
      /\ exists v, patch_value p = Some v /\ read next ks = Return v
  | replace => exists v, patch_value p = Some v /\ read next ks = Return v
  | remove => ks <> [] /\ patch_value p = None /\ read next ks = Return Undefined
  end.

(** The patch for the member [kv] of the new object, against the old
    object of scalars [old]. *)
Definition member_change (path : string) (old : list (string * value))
    (kv : string * value) : list Patch :=
  match member old kv.1 with
  | None => [mk_add (append path kv.1) kv.2]
  | Some x =>
      if strict_eq false x kv.2 then [] else [mk_replace (append path kv.1) kv.2]
  end.

(** The patch for the member [kv] of the old object, against the new
    object [new]. *)
Definition member_removal (path : string) (new : list (string * value))
    (kv : string * value) : list Patch :=
  if decide (kv.1 ∈ new.*1) then [] else [mk_remove (append path kv.1)].

(** An object of JSON scalars, with no key twice and no key that names an
    inherited member. *)
Definition flat (props : list (string * value)) : bool :=
  bool_decide (NoDup props.*1)
  && forallb (fun kv => json_scalar kv.2
                        && bool_decide (kv.1 ∉ Object_prototype_names)) props.

(** A schema input no branch of [compile] accepts. *)
Definition invalid_schema {E : Type} (schema : SchemaInput E) : bool :=
  match schema with
  | SValue Undefined | SValue Null | SValue (Obj _) => true
  | _ => false
  end.

(** The schemas whose getter never returns [undefined]: [Boolean], the
    array schemas and the literals. *)
Definition always_defined {E : Type} (schema : SchemaInput E) : bool :=
  is_Boolean schema || isArraySchema schema || isLiteralSchema schema.

Definition identifier_start (c : ascii) : bool :=
  let n := nat_of_ascii c in
  (Nat.leb 65 n && Nat.leb n 90) || (Nat.leb 97 n && Nat.leb n 122) || Nat.eqb n 95.

Definition identifier_part (c : ascii) : bool :=
  let n := nat_of_ascii c in
  identifier_start c || (Nat.leb 48 n && Nat.leb n 57) || Nat.eqb n 45.

Fixpoint all_chars (f : ascii -> bool) (s : string) : bool :=
  match s with
  | EmptyString => true
  | String c s' => f c && all_chars f s'
  end.

(** A name the selector [slot[name=...]] can hold without quotes: a letter
    or an underscore, then letters, digits, underscores and hyphens. *)
Definition identifier (k : string) : bool :=
  match k with
  | EmptyString => false
  | String c rest => identifier_start c && all_chars identifier_part rest
  end.

(** The instances of [JSONElement] among the elements assigned to a slot. *)
Definition json_elements {E : Type} (els : list (Assigned E)) : list E :=
  omap (fun el => match el with IsJSONElement e => Some e | OtherElement => None end) els.

(** A schema whose keys the element can handle: no key twice and the keys
    in the order of a JS object; no key [__proto__], since an assignment to
    it sets the prototype of the compiled mapping instead of a property; and
    every key that gets a slot is an identifier, so that the selector of
    its slot is well formed. *)
Definition well_keyed {E : Type} (static_schema : list (string * SchemaInput E)) : Prop :=
  own_keys static_schema.*1
  /\ ("__proto__" ∉ static_schema.*1)
  /\ forallb (fun entry => implb (isCompositeSchema entry.2) (identifier entry.1))
       static_schema = true.

(** The same of an instance: every key whose getter is given slotted
    elements is an identifier. *)
Definition selectable {E : Type} (this : Instance E) : Prop :=
  forallb (fun entry => implb (isCompositeSchema (SFunction entry.2))
                          (identifier entry.1))
    (schema this) = true.


(** The patches [acc] have the pointers of the key sequences [kss] below
    the keys [ts], no sequence comes twice, and every sequence starts with
    one of the keys [allowed]. *)
Definition headed (ts allowed : list string) (acc : list Patch) : Prop :=
  exists kss : list (list string),
    Forall2 (fun p ks => path p = foldl append "" (ts ++ ks)) acc kss
    /\ NoDup kss
    /\ Forall (fun ks => exists k ks', ks = k :: ks' /\ k ∈ allowed) kss.


(** The schemas whose getter is one of the built-in getters, with a literal
    that is a JSON value when it is a literal. *)
Definition builtin_schema {E : Type} (schema : SchemaInput E) : bool :=
  match schema with
  | SValue v => is_json v
  | SFunction _ => false
  | _ => true
  end.

(** A schema whose keys are in lower case, so that reading the attribute
    of a key reads the attribute of that very name. *)
Definition lower_case_keys {E : Type}
    (static_schema : list (string * SchemaInput E)) : Prop :=
  Forall (fun k => to_lower k = k) static_schema.*1.

(** A text of ASCII characters: the white space in it is the white space
    that [StringToNumber.trim] strips. *)
Definition ascii_text (s : string) : bool :=
  all_chars (fun c => Nat.ltb (nat_of_ascii c) 128) s.

(** The attributes of the [Number] keys are ASCII texts that spell neither
    an infinity nor a number beyond the finite range of binary64, where a
    JS number would be an infinity. *)
Definition finite_numbers {E : Type} (static_schema : list (string * SchemaInput E))
    (dom : Dom E) : Prop :=
  forall k s : string,
    (k, SNumber) ∈ static_schema -> getAttribute dom k = Some s ->
    ascii_text s = true
    /\ match Number s with
       | NaN => True
       | Infinity _ => False
       | Finite q =>
           Qle_bool (inject_Z (- 10 ^ 308)) q && Qle_bool q (inject_Z (10 ^ 308)) = true
       end.

(* ===================================================================== *)
(** * Theorems *)
(* ===================================================================== *)

Arguments diff : simpl never.

(** ** Strings and JSON Pointer escaping *)

Lemma string_app_cons a s t : String a s +:+ t = String a (s +:+ t).
Proof. reflexivity. Qed.

Lemma string_app_nil_l s : "" +:+ s = s.
Proof. reflexivity. Qed.

Lemma string_app_nil_r s : s +:+ "" = s.
Proof. induction s as [|a s IH]; [done|]. by rewrite string_app_cons, IH. Qed.

Lemma string_app_assoc s t u : (s +:+ t) +:+ u = s +:+ t +:+ u.
Proof. induction s as [|a s IH]; [done|]. by rewrite !string_app_cons, IH. Qed.

Lemma replace_all_app c by_ s t :
  replace_all c by_ (s +:+ t) = replace_all c by_ s +:+ replace_all c by_ t.
Proof.
  induction s as [|a s IH]; [done|].
  rewrite string_app_cons. simpl.
  case_decide; rewrite IH; [|done].
  by rewrite string_app_assoc.
Qed.

Lemma replace_twice_escape s :
  replace_all "/" "~1" (replace_all "~" "~0" s) = escape_segment s.
Proof.
  induction s as [|a s IH]; [done|].
  simpl. unfold escape_char.
  destruct (decide (a = "~"%char)) as [->|Htilde].
  - rewrite replace_all_app, IH. done.
  - simpl. destruct (decide (a = "/"%char)) as [->|Hslash]; by rewrite IH.
Qed.

(** C5: [append path prop] is [path], a ['/'], and then [prop] in which every
    ['~'] has become ["~0"] and every ['/'] has become ["~1"]; the key
    ["a/b~c"] under the empty prefix gives ["/a~1b~0c"]. *)
Theorem C5_append_escapes :
  (forall path prop : string,
      append path prop = path +:+ "/" +:+ escape_segment prop)
  /\ append "" "a/b~c" = "/a~1b~0c".
Proof.
  split; [|reflexivity].
  intros path prop. unfold append. by rewrite replace_twice_escape.
Qed.

(** ** Printed indices *)

Lemma pretty_N_char_digit x : is_digit (pretty_N_char x) = true.
Proof. unfold pretty_N_char. repeat case_match; done. Qed.

Lemma all_digits_app s t :
  all_digits s = true -> all_digits t = true -> all_digits (s +:+ t) = true.
Proof.
  induction s as [|a s IH]; [done|].
  rewrite string_app_cons. simpl.
  intros [-> ?]%andb_true_iff ?. simpl. auto.
Qed.

Lemma pretty_N_go_digits x s :
  exists t, pretty_N_go x s = t +:+ s /\ all_digits t = true.
Proof.
  revert s. induction (N.lt_wf_0 x) as [x _ IH]; intros s.
  destruct (decide (x = 0%N)) as [->|Hx].
  - exists "". by rewrite pretty_N_go_0.
  - rewrite pretty_N_go_step by lia.
    destruct (IH (x `div` 10)%N) with (s := String (pretty_N_char (x `mod` 10)) s)
      as (t & -> & Ht).
    { apply N.div_lt; lia. }
    exists (t +:+ String (pretty_N_char (x `mod` 10)) "").
    split.
    + by rewrite string_app_assoc.
    + apply all_digits_app; [done|]. simpl. by rewrite pretty_N_char_digit.
Qed.

Lemma pretty_nat_digits (n : nat) : all_digits (pretty n) = true.
Proof.
  unfold pretty, pretty_nat, pretty, pretty_N.
  case_decide; [done|].
  destruct (pretty_N_go_digits (N.of_nat n) "") as (t & -> & Ht).
  by rewrite string_app_nil_r.
Qed.

Lemma pretty_nat_not_length (n : nat) : pretty n <> "length".
Proof.
  intros Heq. pose proof (pretty_nat_digits n) as Hd.
  rewrite Heq in Hd. discriminate Hd.
Qed.

(** ** Loops *)

Lemma bind_Return {A B : Type} (a : A) (k : A -> outcome B) :
  (Return a ≫= k) = k a.
Proof. reflexivity. Qed.

Lemma for_of_app {A B : Type} (body : B -> A -> outcome B) xs ys acc :
  for_of body (xs ++ ys) acc = for_of body xs acc ≫= for_of body ys.
Proof.
  revert acc. induction xs as [|x xs IH]; intros acc; simpl; [done|].
  destruct (body acc x) as [acc'| |]; simpl; [apply IH|done|done].
Qed.

(** A loop whose every turn pushes the patches [g x]. *)
Lemma for_of_pushes {A B C : Type} (body : list C -> B -> outcome (list C))
    (h : A -> B) (g : A -> list C) (xs : list A) (acc : list C) :
  (forall x acc', x ∈ xs -> body acc' (h x) = Return (acc' ++ g x)) ->
  for_of body (h <$> xs) acc = Return (acc ++ concat (g <$> xs)).
Proof.
  revert acc. induction xs as [|x xs IH]; intros acc Hbody; simpl.
  - by rewrite app_nil_r.
  - rewrite Hbody by left. simpl.
    rewrite IH, app_assoc; [done|].
    intros y acc' Hy. apply Hbody. by right.
Qed.

(** A loop whose every turn returns: the loop returns. *)
Lemma for_of_returns {A B : Type} (body : B -> A -> outcome B) xs acc :
  (forall x acc', x ∈ xs -> exists r, body acc' x = Return r) ->
  exists r, for_of body xs acc = Return r.
Proof.
  revert acc. induction xs as [|x xs IH]; intros acc Hbody; simpl; [eauto|].
  destruct (Hbody x acc) as [r ->]; [by left|]. simpl.
  apply IH. intros y acc' Hy. apply Hbody. by right.
Qed.

(** Two loops whose bodies agree on the elements visited agree. *)
Lemma for_of_ext {A B : Type} (body1 body2 : B -> A -> outcome B) xs acc :
  (forall x acc', x ∈ xs -> body1 acc' x = body2 acc' x) ->
  for_of body1 xs acc = for_of body2 xs acc.
Proof.
  revert acc. induction xs as [|x xs IH]; intros acc Hbody; simpl; [done|].
  rewrite Hbody by left.
  destruct (body2 acc x) as [acc'| |]; simpl; [|done|done].
  apply IH. intros y acc'' Hy. apply Hbody. by right.
Qed.

(** ** Property access *)

Lemma array_get_from_lookup i l j :
  array_get_from i l (pretty (i + j)%nat) = default Undefined (l !! j).
Proof.
  revert i j. induction l as [|v l IH]; intros i j; simpl; [done|].
  destruct j as [|j]; simpl.
  - rewrite Nat.add_0_r. by rewrite decide_True.
  - rewrite decide_False.
    + replace (i + S j)%nat with (S i + j)%nat by lia. apply IH.
    + intros Heq%(inj pretty). lia.
Qed.

Lemma array_get_index l j :
  array_get l (pretty j) = default Undefined (l !! j).
Proof.
  unfold array_get. rewrite decide_False by apply pretty_nat_not_length.
  apply (array_get_from_lookup 0).
Qed.

Lemma obj_get_member props k :
  obj_get props k = default Undefined (member props k).
Proof.
  induction props as [|[k' v] props IH]; simpl; [done|].
  by case_decide.
Qed.

(** ** The equation of [diff] *)

Lemma diff_unfold same fuel prev next path :
  diff same (S fuel) prev next path =
    if strict_eq (same path) prev next then Return []
    else if isScalar prev || isScalar next then Return [mk_replace path next]
    else
      next_keys ← keys next;
      patches ← for_of (change_turn same fuel prev next path) next_keys [];
      prev_keys ← keys prev;
      for_of (removal_turn next path) prev_keys patches.
Proof. reflexivity. Qed.

(** ** Scalars *)

Lemma Qeq_bool_refl q : Qeq_bool q q = true.
Proof. apply Qeq_bool_iff. reflexivity. Qed.

Lemma json_scalar_cases v :
  json_scalar v = true ->
  v = Null \/ (exists b, v = Bool b) \/ (exists q, v = Num (Finite q))
  \/ (exists s, v = Str s).
Proof.
  destruct v as [| |b|[]|s|l|p]; try discriminate; eauto 10.
  - unfold json_scalar. rewrite andb_true_iff. intros [_ H]. discriminate H.
  - unfold json_scalar. rewrite andb_true_iff. intros [_ H]. discriminate H.
Qed.

Lemma strict_eq_scalar_same s v w :
  json_scalar v = true -> strict_eq s v w = strict_eq false v w.
Proof.
  intros Hv. destruct (json_scalar_cases v Hv) as [->|[[b ->]|[[q ->]|[t ->]]]];
    by destruct w.
Qed.

Lemma strict_eq_scalar_refl s v : json_scalar v = true -> strict_eq s v v = true.
Proof.
  intros Hv. destruct (json_scalar_cases v Hv) as [->|[[b ->]|[[q ->]|[t ->]]]]; simpl.
  - done.
  - by apply bool_decide_eq_true.
  - apply Qeq_bool_refl.
  - by apply bool_decide_eq_true.
Qed.

(** One turn of the first loop on two scalars: what it pushes. *)
Lemma scalar_turn same fuel prev next path patches prop x y :
  get prev prop = Return x -> get next prop = Return y ->
  json_scalar x = true -> json_scalar y = true ->
  change_turn same (S fuel) prev next path patches prop
  = Return (patches ++ if strict_eq false x y then []
                       else [mk_replace (append path prop) y]).
Proof.
  intros Hgx Hgy Hx Hy. unfold change_turn. rewrite Hgx, Hgy. simpl.
  destruct (json_scalar_cases x Hx) as [->|[[b ->]|[[q ->]|[t ->]]]];
  destruct (json_scalar_cases y Hy) as [->|[[b' ->]|[[q' ->]|[t' ->]]]];
  simpl; rewrite ?app_nil_r; try done.
  all: by repeat case_match; rewrite ?app_nil_r.
Qed.
(** ** Arrays of scalars, position by position *)

Section ScalarArrays.

Variable same : string -> bool.
Variable path : string.

Lemma turn_patches_positional new : forall old off,
  concat (turn_patches path old new off <$> seq 0 (length new)) = positional path off old new.
Proof.
  induction new as [|y new IH]; intros old off; [done|].
  simpl length. rewrite <- cons_seq, <- fmap_S_seq. simpl.
  rewrite <- list_fmap_compose.
  unfold turn_patches at 1. simpl. rewrite Nat.add_0_r.
  destruct old as [|x old]; simpl.
  - f_equal. rewrite <- (IH [] (S off)). f_equal.
    apply list_fmap_ext. intros _ j _. unfold turn_patches. simpl.
    by replace (off + S j)%nat with (S off + j)%nat by lia.
  - f_equal. rewrite <- (IH old (S off)). f_equal.
    apply list_fmap_ext. intros _ j _. unfold turn_patches. simpl.
    by replace (off + S j)%nat with (S off + j)%nat by lia.
Qed.

Lemma first_loop_scalars fuel old new :
  Forall (fun v => json_scalar v = true) old ->
  Forall (fun v => json_scalar v = true) new ->
  for_of (change_turn same (S fuel) (Arr old) (Arr new) path)
    (index_keys (length new)) []
  = Return (positional path 0 old new).
Proof.
  intros Hold Hnew. unfold index_keys.
  rewrite for_of_pushes with (g := turn_patches path old new 0).
  { by rewrite turn_patches_positional. }
  intros j acc Hj. apply elem_of_seq in Hj as [_ Hj]. simpl in Hj.
  destruct (lookup_lt_is_Some_2 new j Hj) as [y Hy].
  assert (json_scalar y = true) as Hys.
  { eapply Forall_lookup_1 in Hnew; eauto. }
  unfold turn_patches. rewrite Hy. simpl.
  destruct (old !! j) as [x|] eqn:Hx.
  - assert (json_scalar x = true) as Hxs.
    { eapply Forall_lookup_1 in Hold; eauto. }
    apply scalar_turn; simpl; rewrite ?array_get_index, ?Hx, ?Hy; done.
  - unfold change_turn. simpl. by rewrite !array_get_index, Hx, Hy.
Qed.

Lemma concat_from {A : Type} (f : nat -> A) n m :
  concat ((fun j => if decide (j < n)%nat then [] else [f j]) <$> seq 0 m)
  = f <$> seq n (m - n).
Proof.
  induction m as [|m IH]; [done|].
  rewrite seq_S, fmap_app, concat_app, IH. simpl.
  case_decide.
  - replace (S m - n)%nat with 0%nat by lia.
    replace (m - n)%nat with 0%nat by lia. done.
  - replace (S m - n)%nat with (S (m - n)) by lia.
    rewrite seq_S, fmap_app. simpl.
    by replace (n + (m - n))%nat with m by lia.
Qed.

Lemma second_loop_scalars (old new : list value) acc :
  Forall (fun v => json_scalar v = true) new ->
  for_of (removal_turn (Arr new) path) (index_keys (length old)) acc
  = Return (acc ++ trailing_removes path (length new) (length old - length new)).
Proof.
  intros Hnew. unfold index_keys.
  rewrite for_of_pushes with
    (g := fun j => if decide (j < length new)%nat then []
                   else [mk_remove (append path (pretty j))]).
  { by rewrite (concat_from (fun j => mk_remove (append path (pretty j)))). }
  intros j acc' _. unfold removal_turn. simpl. rewrite array_get_index.
  case_decide as Hj.
  - destruct (lookup_lt_is_Some_2 new j Hj) as [y Hy]. rewrite Hy. simpl.
    assert (json_scalar y = true) as Hys.
    { eapply Forall_lookup_1 in Hnew; eauto. }
    destruct (json_scalar_cases y Hys) as [->|[[b ->]|[[q ->]|[t ->]]]];
      simpl; by rewrite app_nil_r.
  - rewrite lookup_ge_None_2 by lia. done.
Qed.

(** [diff] on two arrays of scalars that are not one and the same array. *)
Lemma diff_scalar_arrays fuel old new :
  same path = false ->
  Forall (fun v => json_scalar v = true) old ->
  Forall (fun v => json_scalar v = true) new ->
  diff same (S (S fuel)) (Arr old) (Arr new) path
  = Return (positional path 0 old new
            ++ trailing_removes path (length new) (length old - length new)).
Proof.
  intros Hsame Hold Hnew. rewrite diff_unfold. simpl strict_eq. rewrite Hsame.
  simpl. rewrite (first_loop_scalars fuel old new Hold Hnew). simpl.
  by rewrite second_loop_scalars.
Qed.

End ScalarArrays.

Lemma forallb_Forall_true {A : Type} (f : A -> bool) (l : list A) :
  forallb f l = true -> Forall (fun x => f x = true) l.
Proof.
  induction l as [|x l IH]; simpl; [constructor|].
  intros [Hx Hl]%andb_true_iff. constructor; auto.
Qed.

Lemma positional_refl path i l :
  Forall (fun v => json_scalar v = true) l -> positional path i l l = [].
Proof.
  intros Hl. revert i. induction Hl as [|x l Hx Hl IH]; intros i; simpl; [done|].
  by rewrite (strict_eq_scalar_refl false x Hx), IH.
Qed.

Lemma positional_cascade path x l2 : forall i,
  positional path i (x :: l2) l2 = cascade path i x l2.
Proof.
  revert x. induction l2 as [|y l2 IH]; intros x i; simpl; [done|].
  by rewrite <- IH.
Qed.

Lemma positional_after_removal path l1 x l2 : forall i,
  Forall (fun v => json_scalar v = true) l1 ->
  positional path i (l1 ++ x :: l2) (l1 ++ l2) = cascade path (i + length l1) x l2.
Proof.
  intros i Hl1. revert i. induction Hl1 as [|a l1 Ha Hl1 IH]; intros i; simpl.
  - rewrite Nat.add_0_r. apply positional_cascade.
  - rewrite (strict_eq_scalar_refl false a Ha), IH. simpl.
    f_equal. lia.
Qed.

Lemma cascade_all_replaced path l2 : forall i x,
  neighbours_differ (x :: l2) = true ->
  cascade path i x l2
  = imap (fun j y => mk_replace (append path (pretty (i + j)%nat)) y) l2.
Proof.
  induction l2 as [|y l2 IH]; intros i x Hd; [done|].
  simpl in Hd. apply andb_true_iff in Hd as [Hxy Hd].
  simpl. apply negb_true_iff in Hxy. rewrite Hxy. simpl.
  rewrite Nat.add_0_r. f_equal.
  rewrite (IH (S i) y Hd). apply imap_ext. intros j z _. simpl.
  do 3 f_equal. lia.
Qed.

(** C3 (amended): [diff([1,2,3], [2,3])] is exactly
    [replace /0 2; replace /1 3; remove /2].  More generally, removing the
    element at index [length l1] of an array of JSON scalars produces, for
    the later indices in ascending order, a replace wherever the value
    shifted in is not strictly equal to the value it displaces, and then one
    trailing remove of the last index; when no two neighbours from the
    removed element on are strictly equal, that is a replace for every
    shifted index. *)
Theorem C3_cascading_removal :
  (forall (same : string -> bool) (fuel : nat),
      same "" = false ->
      diff same (S fuel) (Arr [num 1; num 2; num 3]) (Arr [num 2; num 3]) ""
      = Return [mk_replace "/0" (num 2); mk_replace "/1" (num 3); mk_remove "/2"])
  /\ (forall (same : string -> bool) (fuel : nat) (path : string)
             (l1 : list value) (x : value) (l2 : list value),
        same path = false ->
        forallb json_scalar (l1 ++ x :: l2) = true ->
        diff same (S (S fuel)) (Arr (l1 ++ x :: l2)) (Arr (l1 ++ l2)) path
        = Return (cascade path (length l1) x l2
                  ++ [mk_remove (append path (pretty (length l1 + length l2)%nat))]))
  /\ (forall (path : string) (i : nat) (x : value) (l2 : list value),
        neighbours_differ (x :: l2) = true ->
        cascade path i x l2
        = imap (fun j y => mk_replace (append path (pretty (i + j)%nat)) y) l2).
Proof.
  split; [|split].
  - intros same fuel Hsame. rewrite diff_unfold. simpl strict_eq. rewrite Hsame.
    reflexivity.
  - intros same fuel path l1 x l2 Hsame Hall.
    apply forallb_Forall_true in Hall.
    assert (Forall (fun v => json_scalar v = true) l1
            /\ Forall (fun v => json_scalar v = true) l2) as [Hl1 Hl2].
    { apply Forall_app in Hall as [? Hx]. by inversion Hx. }
    rewrite diff_scalar_arrays; [|done|done|by apply Forall_app].
    rewrite positional_after_removal by done. simpl.
    rewrite !length_app. simpl.
    replace (length l1 + S (length l2) - (length l1 + length l2))%nat with 1%nat by lia.
    done.
  - intros path i x l2. apply cascade_all_replaced.
Qed.

Lemma C3_cascading_removal_witness :
  diff distinct_objects 2
    (Arr ([Str "a"] ++ num 1 :: [num 2; num 3])) (Arr ([Str "a"] ++ [num 2; num 3])) ""
  = Return (cascade "" 1 (num 1) [num 2; num 3] ++ [mk_remove "/3"]).
Proof.
  apply (proj1 (proj2 C3_cascading_removal)
           distinct_objects 0%nat "" [Str "a"] (num 1) [num 2; num 3]);
    reflexivity.
Defined.

(** C3 as stated fails on an array with two equal neighbours: removing the
    first element of [[1,2,2]] shifts a [2] onto index 1, which held a [2],
    and [diff] emits no replace for that index. *)
Lemma C3_counterexample :
  diff distinct_objects 2 (Arr [num 1; num 2; num 2]) (Arr [num 2; num 2]) ""
  = Return [mk_replace "/0" (num 2); mk_remove "/2"]
  /\ diff distinct_objects 2 (Arr [num 1; num 2; num 2]) (Arr [num 2; num 2]) ""
     <> Return [mk_replace "/0" (num 2); mk_replace "/1" (num 2); mk_remove "/2"].
Proof. split; [reflexivity|discriminate]. Qed.

(** ** Totality of [diff] *)

Lemma not_scalar_container v :
  isScalar v = false -> (exists l, v = Arr l) \/ (exists p, v = Obj p).
Proof. destruct v; try discriminate; eauto. Qed.

Lemma depth_elem x (l : list value) :
  x ∈ l -> (depth x <= foldr (fun x d => Nat.max (depth x) d) 0 l)%nat.
Proof.
  induction 1 as [x l|x y l _ IH]; simpl; lia.
Qed.

Lemma depth_member k x (p : list (string * value)) :
  (k, x) ∈ p -> (depth x <= foldr (fun kv d => Nat.max (depth kv.2) d) 0 p)%nat.
Proof.
  intros Hin. remember (k, x) as kv eqn:Hkv.
  induction Hin as [kv l|kv y l _ IH]; subst; simpl; [lia|].
  specialize (IH eq_refl). lia.
Qed.

Lemma array_get_from_cases i l prop :
  array_get_from i l prop = Undefined \/ array_get_from i l prop ∈ l.
Proof.
  revert i. induction l as [|v l IH]; intros i; simpl; [by left|].
  case_decide.
  - right. by left.
  - destruct (IH (S i)) as [->|Hin]; [by left|right; by right].
Qed.

Lemma member_elem {A : Type} (p : list (string * A)) k x :
  member p k = Some x -> (k, x) ∈ p.
Proof.
  induction p as [|[k' v] p IH]; simpl; [done|].
  case_decide; intros Hm; simplify_eq; [by left|right; auto].
Qed.

Lemma get_container v prop :
  isScalar v = false ->
  exists w, get v prop = Return w /\ (depth w < depth v)%nat.
Proof.
  intros [[l ->]|[p ->]]%not_scalar_container; simpl.
  - eexists; split; [done|]. unfold array_get. case_decide; simpl; [lia|].
    destruct (array_get_from_cases 0 l prop) as [->|Hin]; simpl; [lia|].
    apply depth_elem in Hin. lia.
  - eexists; split; [done|]. rewrite obj_get_member.
    destruct (member p prop) as [x|] eqn:Hm; simpl; [|lia].
    apply member_elem, depth_member in Hm. lia.
Qed.

Lemma keys_container v :
  isScalar v = false -> exists ks, keys v = Return ks.
Proof. intros [[l ->]|[p ->]]%not_scalar_container; simpl; eauto. Qed.

Lemma removal_turn_returns next path patches prop :
  isScalar next = false ->
  exists r, removal_turn next path patches prop = Return r.
Proof.
  intros Hn. unfold removal_turn.
  destruct (get_container next prop Hn) as (w & -> & _). simpl.
  case_bool_decide; eauto.
Qed.

(** With more fuel than [next] is deep, [diff] returns. *)
Lemma diff_returns same fuel : forall prev next path,
  (depth next < fuel)%nat ->
  exists patches, diff same fuel prev next path = Return patches.
Proof.
  induction fuel as [|fuel IH]; intros prev next path Hd; [lia|].
  rewrite diff_unfold.
  destruct (strict_eq (same path) prev next); [eauto|].
  destruct (isScalar prev) eqn:Hp; [simpl; eauto|].
  destruct (isScalar next) eqn:Hn; [simpl; eauto|]. simpl.
  destruct (keys_container next Hn) as [ks ->]. simpl.
  destruct (for_of_returns (change_turn same fuel prev next path) ks []) as [ps ->].
  { intros prop acc _. unfold change_turn.
    destruct (get_container prev prop Hp) as (pv & -> & _).
    destruct (get_container next prop Hn) as (nv & -> & Hnv). simpl.
    case_bool_decide; [eauto|].
    destruct (_ && _); [|destruct (negb _); eauto].
    destruct (IH pv nv (append path prop)) as [nested ->]; [lia|].
    simpl. eauto. }
  simpl. destruct (keys_container prev Hp) as [pks ->]. simpl.
  apply for_of_returns. intros prop acc _. by apply removal_turn_returns.
Qed.

Lemma for_of_mono {A B : Type} (body1 body2 : B -> A -> outcome B) xs acc r :
  (forall x acc' r', x ∈ xs -> body1 acc' x = Return r' -> body2 acc' x = Return r') ->
  for_of body1 xs acc = Return r -> for_of body2 xs acc = Return r.
Proof.
  revert acc. induction xs as [|x xs IH]; intros acc Hbody; simpl; [done|].
  destruct (body1 acc x) as [acc1| |] eqn:H1; simpl; [|done|done].
  rewrite (Hbody x acc acc1) by (done || by left). simpl.
  apply IH. intros y acc' r' Hy. apply Hbody. by right.
Qed.

(** Fuel beyond what a call needs does not change its result. *)
Lemma diff_fuel_mono same fuel : forall fuel' prev next path patches,
  (fuel <= fuel')%nat ->
  diff same fuel prev next path = Return patches ->
  diff same fuel' prev next path = Return patches.
Proof.
  induction fuel as [|fuel IH]; intros fuel' prev next path patches Hle; [done|].
  destruct fuel' as [|fuel']; [lia|].
  rewrite !diff_unfold.
  destruct (strict_eq (same path) prev next); [done|].
  destruct (isScalar prev || isScalar next); [done|].
  destruct (keys next) as [ks| |]; simpl; [|done|done].
  destruct (for_of (change_turn same fuel prev next path) ks []) as [ps| |] eqn:Hloop;
    simpl; [|done|done].
  assert (forall prop acc r', prop ∈ ks ->
            change_turn same fuel prev next path acc prop = Return r' ->
            change_turn same fuel' prev next path acc prop = Return r') as Hturn.
  { intros prop acc r' _. unfold change_turn.
    destruct (get prev prop) as [pv| |]; simpl; [|done|done].
    destruct (get next prop) as [nv| |]; simpl; [|done|done].
    case_bool_decide; [done|].
    destruct (_ && _); [|done].
    destruct (diff same fuel pv nv (append path prop)) as [nested| |] eqn:Hd;
      simpl; [|done|done].
    by rewrite (IH fuel' pv nv _ nested ltac:(lia) Hd). }
  by rewrite (for_of_mono _ _ _ _ _ Hturn Hloop).
Qed.

(** C4: [diff] is total and never throws: whatever the two values, their
    shapes and their nesting, and whichever of their containers are shared,
    it returns a patch list, the same for every fuel above the depth of
    [next]. *)
Theorem C4_diff_total :
  forall (same : string -> bool) (prev next : value) (path : string),
  exists patches : list Patch,
  forall fuel : nat,
    (depth next < fuel)%nat -> diff same fuel prev next path = Return patches.
Proof.
  intros same prev next path.
  destruct (diff_returns same (S (depth next)) prev next path) as [patches H]; [lia|].
  exists patches. intros fuel Hfuel.
  apply (diff_fuel_mono same (S (depth next))); [lia|done].
Qed.

Lemma C4_diff_total_witness :
  exists patches : list Patch,
    diff distinct_objects 3
      (Obj [("a", Arr [Null; num 1]); ("b", Str "x")])
      (Arr [Obj [("c", Null)]; Undefined; Arr []]) "" = Return patches.
Proof.
  destruct (C4_diff_total distinct_objects
              (Obj [("a", Arr [Null; num 1]); ("b", Str "x")])
              (Arr [Obj [("c", Null)]; Undefined; Arr []]) "") as [patches H].
  exists patches. apply H. simpl. lia.
Defined.

(** ** Deep equality and [diff] *)

Lemma is_json_Arr l :
  is_json (Arr l) = true -> Forall (fun v => is_json v = true) l.
Proof. simpl. apply forallb_Forall_true. Qed.

Lemma is_json_Obj p :
  is_json (Obj p) = true ->
  NoDup p.*1 /\ Forall (fun kv => is_json kv.2 = true) p.
Proof.
  simpl. intros [Hnd Hall]%andb_true_iff. split.
  - by apply bool_decide_eq_true in Hnd.
  - by apply forallb_Forall_true in Hall.
Qed.

Lemma is_json_defined v : is_json v = true -> typeof v <> "undefined".
Proof. by destruct v. Qed.

Lemma deep_equal_Arr l1 l2 :
  deep_equal (Arr l1) (Arr l2) = true ->
  Forall2 (fun a b => deep_equal a b = true) l1 l2.
Proof.
  simpl. revert l2. induction l1 as [|a l1 IH]; intros [|b l2] H; try done.
  apply andb_true_iff in H as [Hab H]. constructor; auto.
Qed.

Lemma deep_equal_Obj p1 p2 :
  deep_equal (Obj p1) (Obj p2) = true ->
  length p1 = length p2
  /\ Forall (fun kv => exists y, member p2 kv.1 = Some y /\ deep_equal kv.2 y = true) p1.
Proof.
  simpl. intros [Hlen H]%andb_true_iff. split.
  { by apply bool_decide_eq_true in Hlen. }
  clear Hlen. induction p1 as [|[k x] p1 IH]; [constructor|].
  apply andb_true_iff in H as [Hk H]. constructor; [|auto].
  simpl. destruct (member p2 k) as [y|]; [eauto|done].
Qed.

Lemma deep_equal_scalar s x y :
  deep_equal x y = true -> is_json x = true -> isScalar x = true ->
  strict_eq s x y = true.
Proof. destruct x as [| |b|[]|t|l|p], y as [| |b'|[]|t'|l'|p']; done. Qed.

Lemma deep_equal_typeof x y :
  deep_equal x y = true -> typeof x = typeof y.
Proof. destruct x, y; done. Qed.

Lemma member_is_Some {A : Type} (p : list (string * A)) k :
  k ∈ p.*1 -> is_Some (member p k).
Proof.
  induction p as [|[k' v] p IH]; simpl.
  - by intros ?%elem_of_nil.
  - intros [->|Hin]%elem_of_cons; case_decide; eauto; done.
Qed.

Lemma member_keys {A : Type} (p : list (string * A)) k x :
  member p k = Some x -> k ∈ p.*1.
Proof.
  intros Hm%member_elem. apply list_elem_of_fmap. by exists (k, x).
Qed.

(** Two objects that are deeply equal and list no key twice have the same
    keys. *)
Lemma deep_equal_keys p1 p2 k :
  deep_equal (Obj p1) (Obj p2) = true -> NoDup p1.*1 ->
  k ∈ p2.*1 -> k ∈ p1.*1.
Proof.
  intros [Hlen Hall]%deep_equal_Obj Hnd Hk.
  assert (p1.*1 ⊆+ p2.*1) as Hsub.
  { apply NoDup_submseteq; [done|]. intros k' Hk'.
    apply list_elem_of_fmap in Hk' as ([k'' x] & -> & Hin).
    rewrite Forall_forall in Hall. destruct (Hall _ Hin) as (y & Hy & _).
    by eapply member_keys. }
  apply submseteq_length_Permutation in Hsub.
  - by rewrite Hsub.
  - rewrite !length_fmap. lia.
Qed.

Lemma for_of_keeps {A B : Type} (body : B -> A -> outcome B) xs acc :
  (forall x acc', x ∈ xs -> body acc' x = Return acc') ->
  for_of body xs acc = Return acc.
Proof.
  induction xs as [|x xs IH]; intros Hbody; simpl; [done|].
  rewrite Hbody by left. simpl. apply IH.
  intros y acc' Hy. apply Hbody. by right.
Qed.

(** A turn of the first loop on two deeply equal properties pushes nothing,
    provided the recursive call on them pushes nothing. *)
Lemma equal_turn same fuel prev next path patches prop a b :
  get prev prop = Return a -> get next prop = Return b ->
  is_json a = true -> deep_equal a b = true ->
  diff same fuel a b (append path prop) = Return [] ->
  change_turn same fuel prev next path patches prop = Return patches.
Proof.
  intros Ha Hb Hja Hab Hrec. unfold change_turn. rewrite Ha, Hb. simpl.
  rewrite bool_decide_eq_false_2 by by apply is_json_defined.
  rewrite <- (deep_equal_typeof a b Hab).
  destruct (bool_decide (typeof a = "object")) eqn:Hobj; simpl.
  - rewrite Hrec. simpl. by rewrite app_nil_r.
  - rewrite deep_equal_scalar; [done..|].
    unfold isScalar. by rewrite Hobj.
Qed.

Lemma kept_turn next path patches prop b :
  get next prop = Return b -> is_json b = true ->
  removal_turn next path patches prop = Return patches.
Proof.
  intros Hb Hjb. unfold removal_turn. rewrite Hb. simpl.
  by rewrite bool_decide_eq_false_2 by by apply is_json_defined.
Qed.

(** [diff] of two deeply equal JSON values is empty. *)
Lemma diff_deep_equal same fuel : forall x y path,
  is_json x = true -> is_json y = true -> deep_equal x y = true ->
  (depth y < fuel)%nat ->
  diff same fuel x y path = Return [].
Proof.
  induction fuel as [|fuel IH]; intros x y path Hjx Hjy Heq Hd; [lia|].
  rewrite diff_unfold.
  destruct (strict_eq (same path) x y) eqn:Hstrict; [done|].
  destruct (isScalar x) eqn:Hsx.
  { by rewrite (deep_equal_scalar _ x y Heq Hjx Hsx) in Hstrict. }
  apply not_scalar_container in Hsx as [[l1 ->]|[p1 ->]].
  - destruct y as [| | | | |l2|p2]; try done.
    pose proof (deep_equal_Arr _ _ Heq) as Hall.
    pose proof (is_json_Arr _ Hjx) as Hj1. pose proof (is_json_Arr _ Hjy) as Hj2.
    simpl. unfold index_keys.
    rewrite for_of_keeps.
    + simpl.
      apply for_of_keeps. intros prop acc (j & -> & Hj)%list_elem_of_fmap.
      apply elem_of_seq in Hj as [_ Hj]. simpl in Hj.
      destruct (lookup_lt_is_Some_2 l1 j Hj) as [a Ha].
      destruct (Forall2_lookup_l _ _ _ _ _ Hall Ha) as (b & Hb & Hab).
      eapply (kept_turn _ _ _ _ b).
      * simpl. by rewrite array_get_index, Hb.
      * by eapply Forall_lookup_1 in Hj2.
    + intros prop acc (j & -> & Hj)%list_elem_of_fmap.
      apply elem_of_seq in Hj as [_ Hj]. simpl in Hj.
      destruct (lookup_lt_is_Some_2 l2 j Hj) as [b Hb].
      destruct (Forall2_lookup_r _ _ _ _ _ Hall Hb) as (a & Ha & Hab).
      apply (equal_turn _ _ _ _ _ _ _ a b).
      * simpl. by rewrite array_get_index, Ha.
      * simpl. by rewrite array_get_index, Hb.
      * by eapply Forall_lookup_1 in Hj1.
      * done.
      * apply IH; [by eapply Forall_lookup_1 in Hj1|by eapply Forall_lookup_1 in Hj2|done|].
        apply list_elem_of_lookup_2, depth_elem in Hb. simpl in Hd. lia.
  - destruct y as [| | | | |l2|p2]; try done.
    pose proof (deep_equal_Obj _ _ Heq) as [Hlen Hall].
    rewrite Forall_forall in Hall.
    pose proof (is_json_Obj _ Hjx) as [Hnd1 Hj1].
    pose proof (is_json_Obj _ Hjy) as [Hnd2 Hj2].
    rewrite Forall_forall in Hj1. rewrite Forall_forall in Hj2.
    simpl.
    rewrite for_of_keeps.
    + simpl. apply for_of_keeps. intros k acc Hk.
      destruct (member_is_Some _ _ Hk) as [a Ha].
      destruct (Hall _ (member_elem _ _ _ Ha)) as (b & Hb & Hab). simpl in *.
      apply (kept_turn _ _ _ _ b).
      * simpl. by rewrite obj_get_member, Hb.
      * apply (Hj2 (k, b)). by apply member_elem.
    + intros k acc Hk.
      apply (deep_equal_keys _ _ _ Heq Hnd1) in Hk.
      destruct (member_is_Some _ _ Hk) as [a Ha].
      destruct (Hall _ (member_elem _ _ _ Ha)) as (b & Hb & Hab). simpl in *.
      pose proof (Hj1 _ (member_elem _ _ _ Ha)) as Hja.
      pose proof (Hj2 _ (member_elem _ _ _ Hb)) as Hjb. simpl in *.
      apply (equal_turn _ _ _ _ _ _ _ a b).
      * simpl. by rewrite obj_get_member, Ha.
      * simpl. by rewrite obj_get_member, Hb.
      * done.
      * done.
      * apply IH; [done..|].
        apply member_elem, depth_member in Hb. lia.
Qed.

Lemma strict_eq_json_refl x : is_json x = true -> strict_eq true x x = true.
Proof.
  destruct x as [| |b|[]|t|l|p]; simpl; try done; intros _.
  - by apply bool_decide_eq_true.
  - apply Qeq_bool_refl.
  - by apply bool_decide_eq_true.
Qed.

(** C2: [diff(x, y)] is the empty patch list for every JSON value [x] passed
    twice as one and the same object, and for every two deeply equal JSON
    values [x] and [y], whichever of their containers are shared. *)
Theorem C2_diff_identity :
  (forall (same : string -> bool) (x : value) (path : string) (fuel : nat),
      is_json x = true -> same path = true ->
      diff same (S fuel) x x path = Return [])
  /\ (forall (same : string -> bool) (x y : value) (path : string) (fuel : nat),
        is_json x = true -> is_json y = true -> deep_equal x y = true ->
        (depth y < fuel)%nat ->
        diff same fuel x y path = Return []).
Proof.
  split.
  - intros same x path fuel Hx Hsame.
    by rewrite diff_unfold, Hsame, strict_eq_json_refl.
  - intros same x y path fuel. apply diff_deep_equal.
Qed.

Lemma C2_diff_identity_witness :
  diff (fun _ => true) 1
    (Obj [("a", Arr [num 1; Null]); ("b", Str "s")])
    (Obj [("a", Arr [num 1; Null]); ("b", Str "s")]) "" = Return []
  /\ diff distinct_objects 3
       (Obj [("a", Arr [num 1; Null]); ("b", Str "s")])
       (Obj [("b", Str "s"); ("a", Arr [num 1; Null])]) "" = Return [].
Proof.
  split.
  - apply (proj1 C2_diff_identity (fun _ => true)); reflexivity.
  - apply (proj2 C2_diff_identity distinct_objects); [reflexivity..|simpl; lia].
Defined.

(** ** Members, indices and pointers *)

Lemma array_index_spec tok bound i :
  RFC6902.array_index tok bound = Some i <-> (i < bound)%nat /\ pretty i = tok.
Proof.
  unfold RFC6902.array_index. split.
  - destruct (list_find _ _) as [[j x]|] eqn:Hfind; simpl; [|done].
    intros [= <-]. apply list_find_Some in Hfind as (Hj & Hx & _).
    apply lookup_seq in Hj as [-> Hj]. simpl in *. done.
  - intros [Hi <-].
    destruct (list_find (fun j => pretty j = pretty i) (seq 0 bound))
      as [[j x]|] eqn:Hfind; simpl.
    + apply list_find_Some in Hfind as (Hj & Hx & _).
      apply lookup_seq in Hj as [-> Hj]. simpl in *.
      by apply (inj pretty) in Hx as ->.
    + apply list_find_None in Hfind. rewrite Forall_forall in Hfind.
      exfalso. apply (Hfind i); [|done]. apply elem_of_seq. lia.
Qed.

Lemma array_index_pretty i bound :
  (i < bound)%nat -> RFC6902.array_index (pretty i) bound = Some i.
Proof. intros Hi. by apply array_index_spec. Qed.

Lemma member_None {A : Type} (props : list (string * A)) k :
  member props k = None <-> k ∉ props.*1.
Proof.
  split.
  - intros Hm Hk. apply member_is_Some in Hk as [x Hx]. congruence.
  - intros Hk. destruct (member props k) as [x|] eqn:Hx; [|done].
    exfalso. apply Hk. by eapply member_keys.
Qed.

Lemma member_app {A : Type} (p q : list (string * A)) k :
  member (p ++ q) k = match member p k with Some x => Some x | None => member q k end.
Proof.
  induction p as [|[k' v] p IH]; simpl; [done|]. by case_decide.
Qed.

Lemma set_member_keys props k v :
  (RFC6902.set_member props k v).*1
  = if member props k is Some _ then props.*1 else props.*1 ++ [k].
Proof.
  unfold RFC6902.set_member. destruct (member props k).
  - rewrite <- list_fmap_compose. apply list_fmap_ext.
    intros _ [k' v'] _. simpl. by case_decide; subst.
  - by rewrite fmap_app.
Qed.

Lemma member_overwrite (props : list (string * value)) k v k' :
  member ((fun kv : string * value => if decide (kv.1 = k) then (k, v) else kv)
            <$> props) k'
  = if decide (k' = k) then (fun _ => v) <$> member props k else member props k'.
Proof.
  induction props as [|[k0 v0] props IH]; csimpl.
  - by case_decide.
  - destruct (decide (k0 = k)) as [->|Hk0]; simpl.
    + destruct (decide (k = k')) as [->|Hk].
      * by rewrite !decide_True.
      * rewrite IH. by rewrite !decide_False by congruence.
    + destruct (decide (k0 = k')) as [->|Hk0'].
      * by rewrite decide_False by congruence.
      * apply IH.
Qed.

Lemma member_set_member props k v k' :
  member (RFC6902.set_member props k v) k'
  = if decide (k' = k) then Some v else member props k'.
Proof.
  unfold RFC6902.set_member. destruct (member props k) as [x|] eqn:Hx.
  - rewrite member_overwrite, Hx. done.
  - rewrite member_app. simpl.
    destruct (decide (k' = k)) as [->|Hk].
    + by rewrite Hx, decide_True.
    + rewrite decide_False by done. by destruct (member props k').
Qed.

Lemma member_delete_member props k k' :
  member (RFC6902.delete_member props k) k'
  = if decide (k' = k) then None else member props k'.
Proof.
  unfold RFC6902.delete_member.
  induction props as [|[k0 v0] props IH]; simpl.
  - by case_decide.
  - rewrite filter_cons. simpl. destruct (decide (k0 <> k)) as [Hk0|Hk0]; simpl.
    + rewrite IH. destruct (decide (k0 = k')) as [->|]; [|done].
      by rewrite decide_False by done.
    + apply dec_stable in Hk0 as ->. rewrite IH.
      destruct (decide (k' = k)) as [->|]; [done|].
      by rewrite decide_False by done.
Qed.

Lemma NoDup_set_member props k v :
  NoDup props.*1 -> NoDup (RFC6902.set_member props k v).*1.
Proof.
  intros Hnd. rewrite set_member_keys.
  destruct (member props k) eqn:Hk; [done|].
  apply NoDup_app. split; [done|]. split; [|apply NoDup_singleton].
  intros k' Hk' ->%list_elem_of_singleton. by apply member_None in Hk.
Qed.

Lemma NoDup_delete_member props k :
  NoDup props.*1 -> NoDup (RFC6902.delete_member props k).*1.
Proof.
  unfold RFC6902.delete_member. induction props as [|[k0 v0] props IH]; [done|].
  csimpl. intros [Hk0 Hnd]%NoDup_cons. rewrite filter_cons. simpl.
  case_decide; csimpl; [|auto].
  apply NoDup_cons. split; [|auto].
  intros (kv & -> & Hin)%list_elem_of_fmap.
  apply list_elem_of_filter in Hin as [_ Hin].
  apply Hk0. apply list_elem_of_fmap. by exists kv.
Qed.

(** *** Escaping round trip *)

Lemma escape_segment_cons c k :
  escape_segment (String c k)
  = if decide (c = "~"%char) then String "~" (String "0" (escape_segment k))
    else if decide (c = "/"%char) then String "~" (String "1" (escape_segment k))
    else String c (escape_segment k).
Proof. simpl. unfold escape_char. by repeat case_decide. Qed.

Lemma unescape_escape k : RFC6902.unescape (escape_segment k) = Some k.
Proof.
  induction k as [|c k IH]; [done|].
  rewrite escape_segment_cons.
  destruct (decide (c = "~"%char)) as [->|Htilde]; [simpl; by rewrite IH|].
  destruct (decide (c = "/"%char)) as [->|Hslash]; [simpl; by rewrite IH|].
  simpl. rewrite decide_False by done. by rewrite IH.
Qed.

Lemma split_slash_escape k rest :
  RFC6902.split_slash (escape_segment k +:+ rest)
  = match RFC6902.split_slash rest with
    | t :: ts => (escape_segment k +:+ t) :: ts
    | [] => [escape_segment k]
    end.
Proof.
  induction k as [|c k IH].
  - simpl. rewrite string_app_nil_l. destruct rest as [|c rest]; simpl; [done|].
    case_decide; [done|]. by destruct (RFC6902.split_slash rest).
  - rewrite escape_segment_cons.
    destruct (decide (c = "~"%char)) as [->|Htilde];
      [|destruct (decide (c = "/"%char)) as [->|Hslash]];
      rewrite !string_app_cons; simpl;
      rewrite ?decide_False by done; rewrite IH;
      by destruct (RFC6902.split_slash rest).
Qed.

Lemma split_slash_nonempty s : RFC6902.split_slash s <> [].
Proof.
  destruct s as [|c s]; simpl; [done|].
  case_decide; [done|]. by destruct (RFC6902.split_slash s).
Qed.

(** Only the empty pointer names the whole document. *)
Lemma parse_pointer_nil p : RFC6902.parse_pointer p = Some [] -> p = "".
Proof.
  destruct p as [|c r]; [done|]. simpl. case_decide; [|done].
  destruct (RFC6902.split_slash r) as [|t ts] eqn:Hs.
  - by apply split_slash_nonempty in Hs.
  - simpl. destruct (RFC6902.unescape t); simpl; [|done].
    by destruct (mapM RFC6902.unescape ts).
Qed.

(** The pointer [/k] followed by the pointer [p] names the member [k] and
    then what [p] names. *)
Lemma parse_pointer_prefixed k p tokens :
  RFC6902.parse_pointer p = Some tokens ->
  RFC6902.parse_pointer (append "" k +:+ p) = Some (k :: tokens).
Proof.
  unfold append. rewrite string_app_nil_l, replace_twice_escape.
  rewrite string_app_assoc, string_app_cons, string_app_nil_l.
  unfold RFC6902.parse_pointer at 2. rewrite decide_True by done.
  destruct p as [|c rest]; simpl.
  - intros [= <-]. rewrite string_app_nil_r.
    pose proof (split_slash_escape k "") as Hs. rewrite string_app_nil_r in Hs.
    rewrite Hs. simpl. by rewrite string_app_nil_r, unescape_escape.
  - case_decide; [subst|done]. intros Htokens.
    rewrite split_slash_escape. simpl.
    rewrite string_app_nil_r, unescape_escape. simpl.
    by rewrite Htokens.
Qed.

(** ** Patches below a pointer *)

Lemma append_prefix p q prop : append (p +:+ q) prop = p +:+ append q prop.
Proof. unfold append. by rewrite string_app_assoc. Qed.

Lemma for_of_map {A B C : Type} (f : B -> C)
    (body1 : C -> A -> outcome C) (body2 : B -> A -> outcome B) xs acc :
  (forall acc' x, body1 (f acc') x = outcome_map f (body2 acc' x)) ->
  for_of body1 xs (f acc) = outcome_map f (for_of body2 xs acc).
Proof.
  intros Hbody. revert acc. induction xs as [|x xs IH]; intros acc; simpl; [done|].
  rewrite Hbody. destruct (body2 acc x) as [acc'| |]; simpl; [apply IH|done|done].
Qed.

(** The patches of [diff] at the pointer [p +:+ q] are its patches at [q],
    each moved below [p]. *)
Lemma diff_prefix fuel : forall prev next p q,
  diff distinct_objects fuel prev next (p +:+ q)
  = outcome_map (fmap (prefix_patch p)) (diff distinct_objects fuel prev next q).
Proof.
  induction fuel as [|fuel IH]; intros prev next p q; [done|].
  rewrite !diff_unfold. unfold distinct_objects at 1 3.
  destruct (strict_eq false prev next); [done|].
  destruct (isScalar prev || isScalar next); [done|].
  destruct (keys next) as [ks| |]; simpl; [|done|done].
  change (@nil Patch) with (prefix_patch p <$> @nil Patch) at 1.
  rewrite (for_of_map (fmap (prefix_patch p)) _
             (change_turn distinct_objects fuel prev next q)).
  - destruct (for_of (change_turn distinct_objects fuel prev next q) ks [])
      as [patches| |]; simpl; [|done|done].
    destruct (keys prev) as [pks| |]; simpl; [|done|done].
    apply for_of_map. intros acc prop. unfold removal_turn.
    destruct (get next prop) as [nv| |]; simpl; [|done|done].
    case_bool_decide; simpl; [|done].
    by rewrite fmap_app, append_prefix.
  - intros acc prop. unfold change_turn.
    destruct (get prev prop) as [pv| |]; simpl; [|done|done].
    destruct (get next prop) as [nv| |]; simpl; [|done|done].
    rewrite append_prefix.
    case_bool_decide; simpl; [by rewrite fmap_app|].
    destruct (_ && _); simpl.
    + rewrite IH.
      destruct (diff distinct_objects fuel pv nv (append q prop)) as [nested| |];
        simpl; [|done|done].
      by rewrite fmap_app.
    + unfold distinct_objects. destruct (negb _); simpl; [|done].
      by rewrite fmap_app.
Qed.

Lemma update_at_cons t t' ts leaf doc :
  RFC6902.update_at (t :: t' :: ts) leaf doc
  = match doc with
    | Obj props =>
        child ← member props t;
        child' ← RFC6902.update_at (t' :: ts) leaf child;
        Some (Obj (RFC6902.set_member props t child'))
    | Arr elems =>
        i ← RFC6902.array_index t (length elems);
        child ← elems !! i;
        child' ← RFC6902.update_at (t' :: ts) leaf child;
        Some (Arr (<[i:=child']> elems))
    | _ => None
    end.
Proof. reflexivity. Qed.

Lemma update_at_single t leaf doc : RFC6902.update_at [t] leaf doc = leaf doc t.
Proof. reflexivity. Qed.

Lemma update_at_nil leaf doc : RFC6902.update_at [] leaf doc = None.
Proof. reflexivity. Qed.

#[local] Arguments RFC6902.update_at : simpl never.

(** A patch that applies to a member applies, moved below the member's
    key, to the object. *)
Lemma apply_patch_prefixed_obj cur k child p child' :
  member cur k = Some child ->
  RFC6902.apply_patch child p = Some child' ->
  RFC6902.apply_patch (Obj cur) (prefix_patch (append "" k) p)
  = Some (Obj (RFC6902.set_member cur k child')).
Proof.
  intros Hk. unfold RFC6902.apply_patch, prefix_patch. cbn [path op patch_value].
  destruct (RFC6902.parse_pointer (path p)) as [tokens|] eqn:Hp; [|done].
  rewrite (parse_pointer_prefixed k _ tokens Hp). simpl.
  destruct tokens as [|t ts].
  - destruct (op p), (patch_value p) as [v|]; simpl;
      rewrite ?update_at_nil, ?update_at_single; simpl; try done;
      rewrite ?Hk; simpl; by intros [= <-].
  - destruct (op p), (patch_value p) as [v|]; simpl; try done;
      rewrite update_at_cons, Hk; simpl; by intros ->.
Qed.

Lemma apply_patches_prefixed_obj ps : forall cur k child child',
  member cur k = Some child ->
  RFC6902.apply_patches child ps = Some child' ->
  exists cur',
    RFC6902.apply_patches (Obj cur) (prefix_patch (append "" k) <$> ps)
    = Some (Obj cur')
    /\ member cur' k = Some child'
    /\ (forall k', k' <> k -> member cur' k' = member cur k')
    /\ cur'.*1 = cur.*1.
Proof.
  induction ps as [|p ps IH]; intros cur k child child' Hk; simpl.
  - intros [= <-]. by exists cur.
  - destruct (RFC6902.apply_patch child p) as [c1|] eqn:Hp; simpl; [|done].
    intros Hps. rewrite (apply_patch_prefixed_obj cur k child p c1 Hk Hp). simpl.
    destruct (IH (RFC6902.set_member cur k c1) k c1 child') as (cur' & Happ & Hk' & Hother & Hkeys).
    { rewrite member_set_member. by rewrite decide_True. }
    { done. }
    exists cur'. split; [done|]. split; [done|]. split.
    + intros k' Hne. rewrite (Hother k' Hne), member_set_member.
      by rewrite decide_False.
    + rewrite Hkeys, set_member_keys. by rewrite Hk.
Qed.

(** The same for an element of an array and its index; an [add] of the
    whole element would insert a new element instead and is left out. *)
Lemma apply_patch_prefixed_arr cur i child p child' :
  cur !! i = Some child ->
  (op p = add -> path p <> "") ->
  RFC6902.apply_patch child p = Some child' ->
  RFC6902.apply_patch (Arr cur) (prefix_patch (append "" (pretty i)) p)
  = Some (Arr (<[i:=child']> cur)).
Proof.
  intros Hi Hadd. unfold RFC6902.apply_patch, prefix_patch. cbn [path op patch_value].
  destruct (RFC6902.parse_pointer (path p)) as [tokens|] eqn:Hp; [|done].
  rewrite (parse_pointer_prefixed (pretty i) _ tokens Hp). simpl.
  pose proof (lookup_lt_Some _ _ _ Hi) as Hlt.
  destruct tokens as [|t ts].
  - apply parse_pointer_nil in Hp.
    destruct (op p) eqn:Hop, (patch_value p) as [v|]; simpl;
      rewrite ?update_at_nil, ?update_at_single; simpl; try done.
    + by destruct Hadd.
    + rewrite (array_index_pretty i _ Hlt). simpl. by intros [= <-].
  - destruct (op p), (patch_value p) as [v|]; simpl; try done;
      rewrite update_at_cons, (array_index_pretty i _ Hlt); simpl;
      rewrite Hi; simpl; by intros ->.
Qed.

Lemma apply_patches_prefixed_arr ps : forall cur i child child',
  cur !! i = Some child ->
  Forall (fun p => op p = add -> path p <> "") ps ->
  RFC6902.apply_patches child ps = Some child' ->
  RFC6902.apply_patches (Arr cur) (prefix_patch (append "" (pretty i)) <$> ps)
  = Some (Arr (<[i:=child']> cur)).
Proof.
  induction ps as [|p ps IH]; intros cur i child child' Hi Hok; simpl.
  - intros [= <-]. by rewrite list_insert_id.
  - apply Forall_cons in Hok as [Hp Hok].
    destruct (RFC6902.apply_patch child p) as [c1|] eqn:Happ; simpl; [|done].
    intros Hps. rewrite (apply_patch_prefixed_arr cur i child p c1 Hi Hp Happ). simpl.
    rewrite (IH (<[i:=c1]> cur) i c1 child'); [|by apply list_lookup_insert_eq,
      (lookup_lt_Some _ _ _ Hi)|done|done].
    by rewrite list_insert_insert_eq.
Qed.

(** ** Deep equality, introduced *)

Lemma strict_eq_deep_equal a b : strict_eq false a b = true -> deep_equal a b = true.
Proof. destruct a as [| |x|[]|s|l|p], b as [| |y|[]|t|l'|p']; done. Qed.

Lemma deep_equal_Arr_intro l1 l2 :
  Forall2 (fun a b => deep_equal a b = true) l1 l2 ->
  deep_equal (Arr l1) (Arr l2) = true.
Proof.
  simpl. induction 1 as [|a b l1 l2 Hab _ IH]; [done|]. by rewrite Hab, IH.
Qed.

Lemma deep_equal_Obj_intro p1 p2 :
  length p1 = length p2 ->
  Forall (fun kv => exists y, member p2 kv.1 = Some y /\ deep_equal kv.2 y = true) p1 ->
  deep_equal (Obj p1) (Obj p2) = true.
Proof.
  intros Hlen Hall. simpl. rewrite bool_decide_eq_true_2 by done. simpl.
  clear Hlen. induction Hall as [|[k x] p1' Hkx _ IH]; [done|].
  destruct Hkx as (y & Hy & Hxy). simpl in *. by rewrite Hy, Hxy, IH.
Qed.

Lemma member_NoDup {A : Type} (p : list (string * A)) k x :
  NoDup p.*1 -> (k, x) ∈ p -> member p k = Some x.
Proof.
  induction p as [|[k' v] p IH]; csimpl.
  - by intros _ ?%elem_of_nil.
  - intros [Hk' Hnd]%NoDup_cons [[= -> ->]|Hin]%elem_of_cons.
    + by rewrite decide_True.
    + rewrite decide_False; [auto|].
      intros ->. apply Hk'. apply list_elem_of_fmap. by exists (k, x).
Qed.

(** Two objects with the same members up to deep equality are deeply
    equal. *)
Lemma deep_equal_Obj_members c p2 :
  NoDup c.*1 -> NoDup p2.*1 ->
  (forall k,
      match member c k, member p2 k with
      | Some x, Some y => deep_equal x y = true
      | None, None => True
      | _, _ => False
      end) ->
  deep_equal (Obj c) (Obj p2) = true.
Proof.
  intros Hc Hp2 Hmem. apply deep_equal_Obj_intro.
  - rewrite <- (length_fmap fst c), <- (length_fmap fst p2).
    apply Permutation_length, NoDup_Permutation; [done..|].
    intros k. specialize (Hmem k). split; intros Hk.
    + apply member_is_Some in Hk as [x Hx]. rewrite Hx in Hmem.
      destruct (member p2 k) eqn:Hy; [|done]. by eapply member_keys.
    + apply member_is_Some in Hk as [y Hy]. rewrite Hy in Hmem.
      destruct (member c k) eqn:Hx; [|done]. by eapply member_keys.
  - apply Forall_forall. intros [k x] Hin. simpl.
    specialize (Hmem k). rewrite (member_NoDup c k x Hc Hin) in Hmem.
    destruct (member p2 k) as [y|]; [eauto|done].
Qed.

Lemma deep_equal_refl_bounded n : forall v,
  (depth v < n)%nat -> is_json v = true -> deep_equal v v = true.
Proof.
  induction n as [|n IH]; intros v Hd Hj; [lia|].
  destruct v as [| |b|[]|s|l|p]; simpl; try done.
  - by apply bool_decide_eq_true.
  - apply Qeq_bool_refl.
  - by apply bool_decide_eq_true.
  - apply deep_equal_Arr_intro. apply is_json_Arr in Hj.
    apply Forall2_same_length_lookup. split; [done|].
    intros i x y Hx Hy. rewrite Hx in Hy. injection Hy as <-.
    apply IH; [|by eapply Forall_lookup_1 in Hj].
    apply list_elem_of_lookup_2, depth_elem in Hx. simpl in Hd. lia.
  - apply is_json_Obj in Hj as [Hnd Hj].
    apply deep_equal_Obj_intro; [done|].
    apply Forall_forall. intros [k x] Hin. simpl. exists x. split.
    + by apply member_NoDup.
    + apply IH; [|by apply (proj1 (Forall_forall _ _) Hj (k, x))].
      apply depth_member in Hin. simpl in Hd. lia.
Qed.

Lemma deep_equal_refl v : is_json v = true -> deep_equal v v = true.
Proof. apply (deep_equal_refl_bounded (S (depth v))). lia. Qed.

(** ** Documents of the same shape *)

Lemma same_shape_Arr l1 l2 :
  same_shape (Arr l1) (Arr l2) = true ->
  (length l1 <= S (length l2))%nat
  /\ forall i x y, l1 !! i = Some x -> l2 !! i = Some y -> same_shape x y = true.
Proof.
  simpl. intros [Hlen Hall]%andb_true_iff. split.
  { by apply bool_decide_eq_true in Hlen. }
  clear Hlen. revert l2 Hall. induction l1 as [|a l1 IH]; intros [|b l2] Hall i x y;
    try done.
  apply andb_true_iff in Hall as [Hab Hall].
  destruct i as [|i]; simpl.
  - by intros [= <-] [= <-].
  - by apply IH.
Qed.

Lemma same_shape_Obj p1 p2 :
  same_shape (Obj p1) (Obj p2) = true ->
  forall k x y, (k, x) ∈ p1 -> member p2 k = Some y -> same_shape x y = true.
Proof.
  simpl. induction p1 as [|[k0 x0] p1 IH]; intros Hall k x y.
  - by intros ?%elem_of_nil.
  - apply andb_true_iff in Hall as [Hhead Hall].
    intros [[= -> ->]|Hin]%elem_of_cons Hy.
    + by rewrite Hy in Hhead.
    + by apply (IH Hall k x y).
Qed.

Lemma same_shape_containers a b :
  same_shape a b = true -> isScalar a = false -> isScalar b = false ->
  (exists l1 l2, a = Arr l1 /\ b = Arr l2) \/ (exists p1 p2, a = Obj p1 /\ b = Obj p2).
Proof.
  intros Hs [[l1 ->]|[p1 ->]]%not_scalar_container
            [[l2 ->]|[p2 ->]]%not_scalar_container; try done; eauto 10.
Qed.

(** ** Where [diff] adds *)

Lemma append_nonempty p k : append p k <> "".
Proof. unfold append. by destruct p. Qed.

Lemma for_of_preserves {A B : Type} (P : B -> Prop)
    (body : B -> A -> outcome B) xs acc r :
  (forall acc' x r', P acc' -> body acc' x = Return r' -> P r') ->
  P acc -> for_of body xs acc = Return r -> P r.
Proof.
  intros Hbody. revert acc. induction xs as [|x xs IH]; intros acc Hacc; simpl.
  - by intros [= <-].
  - destruct (body acc x) as [acc'| |] eqn:Hx; simpl; [|done|done].
    apply IH. by eapply Hbody.
Qed.

(** [diff] never adds at its own pointer, hence never at the root. *)
Lemma diff_adds_below same fuel : forall prev next q patches,
  diff same fuel prev next q = Return patches ->
  Forall (fun p => op p = add -> path p <> "") patches.
Proof.
  induction fuel as [|fuel IH]; intros prev next q patches; [done|].
  rewrite diff_unfold.
  destruct (strict_eq (same q) prev next); [by intros [= <-]|].
  destruct (isScalar prev || isScalar next).
  { intros [= <-]. by repeat constructor. }
  destruct (keys next) as [ks| |]; simpl; [|done|done].
  destruct (for_of (change_turn same fuel prev next q) ks []) as [ps1| |] eqn:H1;
    simpl; [|done|done].
  destruct (keys prev) as [pks| |]; simpl; [|done|done].
  apply for_of_preserves.
  - intros acc prop r Hacc. unfold removal_turn.
    destruct (get next prop) as [nv| |]; simpl; [|done|done].
    case_bool_decide; intros [= <-]; [|done].
    apply Forall_app. split; [done|]. by repeat constructor.
  - revert H1. apply for_of_preserves; [|constructor].
    intros acc prop r Hacc. unfold change_turn.
    destruct (get prev prop) as [pv| |]; simpl; [|done|done].
    destruct (get next prop) as [nv| |]; simpl; [|done|done].
    case_bool_decide.
    { intros [= <-]. apply Forall_app. split; [done|].
      repeat constructor. intros _. apply append_nonempty. }
    destruct (_ && _).
    { destruct (diff same fuel pv nv (append q prop)) as [nested| |] eqn:Hn;
        simpl; [|done|done].
      intros [= <-]. apply Forall_app. split; [done|]. by eapply IH. }
    destruct (negb _); intros [= <-]; [|done].
    apply Forall_app. split; [done|]. by repeat constructor.
Qed.

(** ** The round trip on documents of the same shape *)

Lemma for_of_invariant_from {A B : Type} (Inv : nat -> B -> Prop)
    (body : B -> A -> outcome B) xs : forall n acc,
  Inv n acc ->
  (forall i x acc', xs !! i = Some x -> Inv (n + i)%nat acc' ->
     exists acc'', body acc' x = Return acc'' /\ Inv (S (n + i)) acc'') ->
  exists r, for_of body xs acc = Return r /\ Inv (n + length xs)%nat r.
Proof.
  induction xs as [|x xs IH]; intros n acc Hacc Hstep; simpl.
  - exists acc. by rewrite Nat.add_0_r.
  - destruct (Hstep 0%nat x acc) as (acc' & -> & Hacc'); [done|by rewrite Nat.add_0_r|].
    simpl. rewrite Nat.add_0_r in Hacc'.
    destruct (IH (S n) acc' Hacc') as (r & Hr & Hinv).
    + intros i y acc'' Hy Hinv. replace (S n + i)%nat with (n + S i)%nat in * by lia.
      by apply Hstep.
    + exists r. split; [done|]. by replace (n + S (length xs))%nat with (S n + length xs)%nat by lia.
Qed.

(** A loop with an invariant indexed by the number of turns done. *)
Lemma for_of_invariant {A B : Type} (Inv : nat -> B -> Prop)
    (body : B -> A -> outcome B) xs acc :
  Inv 0%nat acc ->
  (forall i x acc', xs !! i = Some x -> Inv i acc' ->
     exists acc'', body acc' x = Return acc'' /\ Inv (S i) acc'') ->
  exists r, for_of body xs acc = Return r /\ Inv (length xs) r.
Proof.
  intros Hacc Hstep. by apply (for_of_invariant_from Inv body xs 0%nat acc).
Qed.

Lemma apply_patches_app doc ps1 ps2 :
  RFC6902.apply_patches doc (ps1 ++ ps2)
  = RFC6902.apply_patches doc ps1 ≫= fun doc' => RFC6902.apply_patches doc' ps2.
Proof.
  revert doc. induction ps1 as [|p ps1 IH]; intros doc; simpl; [done|].
  destruct (RFC6902.apply_patch doc p) as [doc'|]; simpl; [apply IH|done].
Qed.

Lemma parse_pointer_key k : RFC6902.parse_pointer (append "" k) = Some [k].
Proof.
  rewrite <- (string_app_nil_r (append "" k)).
  by apply parse_pointer_prefixed.
Qed.

Lemma pretty_nat_not_dash (i : nat) : pretty i <> "-".
Proof.
  intros Heq. pose proof (pretty_nat_digits i) as Hd.
  rewrite Heq in Hd. discriminate Hd.
Qed.

Ltac apply_patch_at_key :=
  unfold RFC6902.apply_patch, mk_add, mk_replace, mk_remove;
  cbn [path op patch_value]; rewrite parse_pointer_key; simpl;
  rewrite ?update_at_single; simpl.

Lemma apply_add_member cur k v :
  RFC6902.apply_patch (Obj cur) (mk_add (append "" k) v)
  = Some (Obj (RFC6902.set_member cur k v)).
Proof. by apply_patch_at_key. Qed.

Lemma apply_replace_member cur k v :
  is_Some (member cur k) ->
  RFC6902.apply_patch (Obj cur) (mk_replace (append "" k) v)
  = Some (Obj (RFC6902.set_member cur k v)).
Proof.
  intros [x Hx]. apply_patch_at_key. by rewrite Hx.
Qed.

Lemma apply_remove_member cur k :
  is_Some (member cur k) ->
  RFC6902.apply_patch (Obj cur) (mk_remove (append "" k))
  = Some (Obj (RFC6902.delete_member cur k)).
Proof.
  intros [x Hx]. apply_patch_at_key. by rewrite Hx.
Qed.

Lemma apply_add_element cur v :
  RFC6902.apply_patch (Arr cur) (mk_add (append "" (pretty (length cur))) v)
  = Some (Arr (cur ++ [v])).
Proof.
  apply_patch_at_key.
  rewrite decide_False by apply pretty_nat_not_dash.
  rewrite array_index_pretty by lia. simpl.
  by rewrite take_ge, drop_ge by lia.
Qed.

Lemma apply_replace_element cur i v :
  (i < length cur)%nat ->
  RFC6902.apply_patch (Arr cur) (mk_replace (append "" (pretty i)) v)
  = Some (Arr (<[i:=v]> cur)).
Proof.
  intros Hi. apply_patch_at_key. by rewrite array_index_pretty.
Qed.

Lemma apply_remove_element cur i :
  (i < length cur)%nat ->
  RFC6902.apply_patch (Arr cur) (mk_remove (append "" (pretty i)))
  = Some (Arr (delete i cur)).
Proof.
  intros Hi. apply_patch_at_key. by rewrite array_index_pretty.
Qed.

Lemma NoDup_lookup_not_in_take {A : Type} (l : list A) i x :
  NoDup l -> l !! i = Some x -> x ∉ take i l.
Proof.
  intros Hnd Hi Hin. apply list_elem_of_lookup in Hin as [j Hj].
  pose proof (lookup_lt_Some _ _ _ Hj) as Hlt. rewrite length_take in Hlt.
  rewrite lookup_take_lt in Hj by lia.
  pose proof (NoDup_lookup _ _ _ _ Hnd Hi Hj). lia.
Qed.

Section RoundTripStep.

Variable fuel : nat.

(** The round trip for the recursive calls. *)
Hypothesis IH : forall pv nv : value,
  is_json pv = true -> is_json nv = true -> same_shape pv nv = true ->
  (depth nv < fuel)%nat ->
  exists ps doc,
    diff distinct_objects fuel pv nv "" = Return ps
    /\ RFC6902.apply_patches pv ps = Some doc
    /\ deep_equal doc nv = true.

Lemma nested_patches pv nv k :
  is_json pv = true -> is_json nv = true -> same_shape pv nv = true ->
  (depth nv < fuel)%nat ->
  exists ps doc,
    diff distinct_objects fuel pv nv (append "" k)
    = Return (prefix_patch (append "" k) <$> ps)
    /\ Forall (fun p => op p = add -> path p <> "") ps
    /\ RFC6902.apply_patches pv ps = Some doc
    /\ deep_equal doc nv = true.
Proof.
  intros Hpv Hnv Hshape Hd.
  destruct (IH pv nv Hpv Hnv Hshape Hd) as (ps & doc & Hdiff & Happ & Heq).
  exists ps, doc. repeat split; [|by eapply diff_adds_below|done|done].
  pose proof (diff_prefix fuel pv nv (append "" k) "") as Hprefix.
  rewrite string_app_nil_r in Hprefix. rewrite Hprefix, Hdiff. done.
Qed.

Lemma object_change_turn p1 p2 i k patches :
  is_json (Obj p1) = true -> is_json (Obj p2) = true ->
  same_shape (Obj p1) (Obj p2) = true ->
  (depth (Obj p2) <= fuel)%nat ->
  p2.*1 !! i = Some k ->
  changed p1 p2 (take i p2.*1) patches ->
  exists patches',
    change_turn distinct_objects fuel (Obj p1) (Obj p2) "" patches k = Return patches'
    /\ changed p1 p2 (take (S i) p2.*1) patches'.
Proof.
  intros Hj1 Hj2 Hshape Hd Hk (cur & Happ & Hnd & Hdone & Htodo).
  apply is_json_Obj in Hj1 as [Hnd1 Hj1]. apply is_json_Obj in Hj2 as [Hnd2 Hj2].
  rewrite Forall_forall in Hj1. rewrite Forall_forall in Hj2.
  pose proof (NoDup_lookup_not_in_take _ _ _ Hnd2 Hk) as Hfresh.
  rewrite (take_S_r _ _ _ Hk).
  destruct (member_is_Some p2 k) as [nv Hnv]; [by eapply list_elem_of_lookup_2|].
  pose proof (member_elem _ _ _ Hnv) as Hnv_in.
  pose proof (Hj2 _ Hnv_in) as Hjnv. simpl in Hjnv.
  assert (depth nv < fuel)%nat as Hdnv.
  { apply depth_member in Hnv_in. simpl in Hd. lia. }
  pose proof (Htodo k Hfresh) as Hcur.
  (* what the state looks like once [k] holds [x], deep-equal to [nv] *)
  assert (forall cur' x,
            NoDup cur'.*1 -> member cur' k = Some x -> deep_equal x nv = true ->
            (forall k', k' <> k -> member cur' k' = member cur k') ->
            forall patches',
              RFC6902.apply_patches (Obj p1) patches' = Some (Obj cur') ->
              changed p1 p2 (take i p2.*1 ++ [k]) patches') as Hnext.
  { intros cur' x Hnd' Hx Hxnv Hother patches' Happ'.
    exists cur'. split; [done|]. split; [done|]. split.
    - intros k' Hin. apply elem_of_app in Hin as [Hin|Hin].
      + destruct (Hdone k' Hin) as (x' & y' & Hx' & Hy' & Heq).
        exists x', y'. rewrite Hother; [done|]. by intros ->.
      + apply list_elem_of_singleton in Hin as ->. by exists x, nv.
    - intros k' Hk'. apply not_elem_of_app in Hk' as [Hk' Hne].
      rewrite Hother by (intros ->; apply Hne; by left). by apply Htodo. }
  unfold change_turn. simpl. rewrite !obj_get_member, Hnv. simpl.
  destruct (member p1 k) as [pv|] eqn:Hpv; simpl.
  - pose proof (member_elem _ _ _ Hpv) as Hpv_in.
    pose proof (Hj1 _ Hpv_in) as Hjpv. simpl in Hjpv.
    rewrite bool_decide_eq_false_2 by by apply is_json_defined.
    destruct (bool_decide (typeof nv = "object") && bool_decide (typeof pv = "object")).
    + destruct (nested_patches pv nv k Hjpv Hjnv) as (ps & doc & -> & Hok & Hps & Heq);
        [by eapply same_shape_Obj|done|].
      simpl. eexists; split; [done|].
      destruct (apply_patches_prefixed_obj ps cur k pv doc Hcur Hps)
        as (cur' & Happ' & Hk' & Hother & Hkeys).
      apply (Hnext cur' doc); [by rewrite Hkeys|done|done|done|].
      by rewrite apply_patches_app, Happ.
    + unfold distinct_objects.
      destruct (strict_eq false pv nv) eqn:Hstrict; simpl.
      * eexists; split; [done|].
        apply (Hnext cur pv); [done|done|by apply strict_eq_deep_equal|done|done].
      * eexists; split; [done|].
        apply (Hnext (RFC6902.set_member cur k nv) nv).
        -- by apply NoDup_set_member.
        -- rewrite member_set_member. by rewrite decide_True.
        -- by apply deep_equal_refl.
        -- intros k' Hne. rewrite member_set_member. by rewrite decide_False.
        -- rewrite apply_patches_app, Happ. simpl.
           by rewrite apply_replace_member by by rewrite Hcur.
  - eexists; split; [done|].
    apply (Hnext (RFC6902.set_member cur k nv) nv).
    + by apply NoDup_set_member.
    + rewrite member_set_member. by rewrite decide_True.
    + by apply deep_equal_refl.
    + intros k' Hne. rewrite member_set_member. by rewrite decide_False.
    + rewrite apply_patches_app, Happ. simpl. by rewrite apply_add_member.
Qed.

Lemma object_removal_turn p1 p2 i k patches :
  is_json (Obj p1) = true -> is_json (Obj p2) = true ->
  p1.*1 !! i = Some k ->
  removed p1 p2 (take i p1.*1) patches ->
  exists patches',
    removal_turn (Obj p2) "" patches k = Return patches'
    /\ removed p1 p2 (take (S i) p1.*1) patches'.
Proof.
  intros Hj1 Hj2 Hk (cur & Happ & Hnd & Hkept & Hgone).
  apply is_json_Obj in Hj1 as [Hnd1 Hj1]. apply is_json_Obj in Hj2 as [Hnd2 Hj2].
  rewrite Forall_forall in Hj2.
  pose proof (NoDup_lookup_not_in_take _ _ _ Hnd1 Hk) as Hfresh.
  rewrite (take_S_r _ _ _ Hk).
  unfold removal_turn. simpl. rewrite obj_get_member.
  destruct (member p2 k) as [nv|] eqn:Hnv; simpl.
  - pose proof (Hj2 _ (member_elem _ _ _ Hnv)) as Hjnv. simpl in Hjnv.
    rewrite bool_decide_eq_false_2 by by apply is_json_defined.
    eexists; split; [done|]. exists cur. repeat split; try done.
    intros k' Hk'. rewrite (Hgone k' Hk').
    assert (k' <> k) as Hne.
    { intros ->. apply Hk'. by eapply member_keys. }
    destruct (decide (k' ∈ take i p1.*1)) as [Hin|Hout].
    + rewrite decide_True; [done|]. apply elem_of_app. by left.
    + rewrite decide_False; [done|].
      intros [?|?%list_elem_of_singleton]%elem_of_app; done.
  - apply member_None in Hnv.
    assert (is_Some (member cur k)) as Hcur.
    { rewrite (Hgone k Hnv), decide_False by done.
      apply member_is_Some. by eapply list_elem_of_lookup_2. }
    eexists; split; [done|]. exists (RFC6902.delete_member cur k).
    split; [|split; [|split]].
    + rewrite apply_patches_app, Happ. simpl. by rewrite apply_remove_member.
    + by apply NoDup_delete_member.
    + intros k' Hk'. destruct (Hkept k' Hk') as (x & y & Hx & Hy & Heq).
      exists x, y. rewrite member_delete_member.
      rewrite decide_False; [done|]. by intros ->.
    + intros k' Hk'. rewrite member_delete_member.
      destruct (decide (k' = k)) as [->|Hne].
      * rewrite decide_True; [done|]. apply elem_of_app. right. by left.
      * rewrite (Hgone k' Hk').
        destruct (decide (k' ∈ take i p1.*1)) as [Hin|Hout].
        -- rewrite decide_True; [done|]. apply elem_of_app. by left.
        -- rewrite decide_False; [done|].
           intros [?|?%list_elem_of_singleton]%elem_of_app; done.
Qed.

Lemma object_roundtrip p1 p2 :
  is_json (Obj p1) = true -> is_json (Obj p2) = true ->
  same_shape (Obj p1) (Obj p2) = true ->
  (depth (Obj p2) <= fuel)%nat ->
  exists ps doc,
    diff distinct_objects (S fuel) (Obj p1) (Obj p2) "" = Return ps
    /\ RFC6902.apply_patches (Obj p1) ps = Some doc
    /\ deep_equal doc (Obj p2) = true.
Proof.
  intros Hj1 Hj2 Hshape Hd. rewrite diff_unfold. simpl.
  destruct (for_of_invariant
              (fun i patches => changed p1 p2 (take i p2.*1) patches)
              (change_turn distinct_objects fuel (Obj p1) (Obj p2) "") p2.*1 [])
    as (patches1 & -> & Hchanged).
  { exists p1. pose proof (is_json_Obj _ Hj1) as [Hnd1 _].
    repeat split; try done; by intros k ?%elem_of_nil. }
  { intros i k acc Hk Hinv. by apply object_change_turn. }
  simpl. rewrite firstn_all in Hchanged.
  destruct Hchanged as (cur & Happ & Hnd & Hdone & Htodo).
  destruct (for_of_invariant
              (fun i patches => removed p1 p2 (take i p1.*1) patches)
              (removal_turn (Obj p2) "") p1.*1 patches1)
    as (patches2 & -> & Hremoved).
  { exists cur. by repeat split. }
  { intros i k acc Hk Hinv. by apply object_removal_turn. }
  rewrite firstn_all in Hremoved.
  destruct Hremoved as (final & Happ' & Hnd' & Hkept & Hgone).
  exists patches2, (Obj final). split; [done|]. split; [done|].
  pose proof (is_json_Obj _ Hj2) as [Hnd2 _].
  apply deep_equal_Obj_members; [done..|].
  intros k. destruct (decide (k ∈ p2.*1)) as [Hin|Hout].
  - destruct (Hkept k Hin) as (x & y & -> & -> & Heq). done.
  - rewrite (Hgone k Hout), (proj2 (member_None p2 k) Hout).
    case_decide as Hk; [done|]. by rewrite (proj2 (member_None p1 k) Hk).
Qed.

Lemma array_change_turn l1 l2 i patches :
  is_json (Arr l1) = true -> is_json (Arr l2) = true ->
  same_shape (Arr l1) (Arr l2) = true ->
  (depth (Arr l2) <= fuel)%nat ->
  (i < length l2)%nat ->
  aligned l1 l2 i patches ->
  exists patches',
    change_turn distinct_objects fuel (Arr l1) (Arr l2) "" patches (pretty i)
    = Return patches'
    /\ aligned l1 l2 (S i) patches'.
Proof.
  intros Hj1 Hj2 Hshape Hd Hi (vs & Happ & Hvs).
  apply is_json_Arr in Hj1. apply is_json_Arr in Hj2.
  apply same_shape_Arr in Hshape as [_ Hshape].
  destruct (lookup_lt_is_Some_2 l2 i Hi) as [nv Hnv].
  pose proof (Forall_lookup_1 _ _ _ _ Hj2 Hnv) as Hjnv. simpl in Hjnv.
  assert (depth nv < fuel)%nat as Hdnv.
  { apply list_elem_of_lookup_2, depth_elem in Hnv. simpl in Hd. lia. }
  assert (length vs = i) as Hlen.
  { apply Forall2_length in Hvs. rewrite length_take in Hvs. lia. }
  (* the state once index [i] holds [x], deep-equal to [nv] *)
  assert (forall x patches',
            deep_equal x nv = true ->
            RFC6902.apply_patches (Arr l1) patches'
            = Some (Arr ((vs ++ [x]) ++ drop (S i) l1)) ->
            aligned l1 l2 (S i) patches') as Hnext.
  { intros x patches' Hx Happ'. exists (vs ++ [x]). split; [done|].
    rewrite (take_S_r _ _ _ Hnv). apply Forall2_app; [done|]. by constructor. }
  unfold change_turn. simpl. rewrite !array_get_index, Hnv. simpl.
  destruct (l1 !! i) as [pv|] eqn:Hpv; simpl.
  - pose proof (Forall_lookup_1 _ _ _ _ Hj1 Hpv) as Hjpv. simpl in Hjpv.
    rewrite (drop_S _ _ _ Hpv) in Happ.
    assert ((vs ++ pv :: drop (S i) l1) !! i = Some pv) as Hcur.
    { rewrite lookup_app_r by lia. by replace (i - length vs)%nat with 0%nat by lia. }
    assert (forall x, <[i:=x]> (vs ++ pv :: drop (S i) l1)
                      = (vs ++ [x]) ++ drop (S i) l1) as Hins.
    { intros x. rewrite insert_app_r_alt by lia.
      replace (i - length vs)%nat with 0%nat by lia. by rewrite <- app_assoc. }
    rewrite bool_decide_eq_false_2 by by apply is_json_defined.
    destruct (bool_decide (typeof nv = "object") && bool_decide (typeof pv = "object")).
    + destruct (nested_patches pv nv (pretty i) Hjpv Hjnv)
        as (ps & doc & -> & Hok & Hps & Heq); [by eapply Hshape|done|].
      simpl. eexists; split; [done|]. apply (Hnext doc); [done|].
      rewrite apply_patches_app, Happ. simpl.
      by rewrite (apply_patches_prefixed_arr ps _ i pv doc Hcur Hok Hps), Hins.
    + unfold distinct_objects.
      destruct (strict_eq false pv nv) eqn:Hstrict; simpl.
      * eexists; split; [done|].
        apply (Hnext pv); [by apply strict_eq_deep_equal|].
        by rewrite Happ, <- app_assoc.
      * eexists; split; [done|].
        apply (Hnext nv); [by apply deep_equal_refl|].
        rewrite apply_patches_app, Happ. simpl.
        rewrite apply_replace_element, Hins; [done|].
        by apply lookup_lt_Some in Hcur.
  - eexists; split; [done|].
    apply lookup_ge_None in Hpv.
    rewrite drop_ge in Happ by lia. rewrite app_nil_r in Happ.
    apply (Hnext nv); [by apply deep_equal_refl|].
    rewrite apply_patches_app, Happ. simpl.
    rewrite <- Hlen at 1. rewrite apply_add_element.
    by rewrite drop_ge, app_nil_r by lia.
Qed.

Lemma array_removal_turn l1 l2 i patches :
  is_json (Arr l2) = true ->
  (length l1 <= S (length l2))%nat ->
  (i < length l1)%nat ->
  trimmed l1 l2 i patches ->
  exists patches',
    removal_turn (Arr l2) "" patches (pretty i) = Return patches'
    /\ trimmed l1 l2 (S i) patches'.
Proof.
  intros Hj2 Hlen Hi (vs & Happ & Hvs).
  apply is_json_Arr in Hj2.
  unfold removal_turn. simpl. rewrite array_get_index.
  destruct (l2 !! i) as [nv|] eqn:Hnv; simpl.
  - pose proof (Forall_lookup_1 _ _ _ _ Hj2 Hnv) as Hjnv. simpl in Hjnv.
    rewrite bool_decide_eq_false_2 by by apply is_json_defined.
    eexists; split; [done|]. exists vs. split; [|done].
    apply lookup_lt_Some in Hnv.
    by replace (Nat.max (length l2) (S i)) with (Nat.max (length l2) i) by lia.
  - apply lookup_ge_None in Hnv.
    assert (i = length l2) as -> by lia.
    eexists; split; [done|]. exists vs. split; [|done].
    rewrite apply_patches_app, Happ. simpl.
    replace (Nat.max (length l2) (length l2)) with (length l2) by lia.
    replace (Nat.max (length l2) (S (length l2))) with (S (length l2)) by lia.
    destruct (lookup_lt_is_Some_2 l1 (length l2) Hi) as [x Hx].
    rewrite (drop_S _ _ _ Hx).
    rewrite (drop_ge l1 (S (length l2))) by lia.
    pose proof (Forall2_length _ _ _ Hvs) as Hvslen.
    rewrite apply_remove_element by (rewrite length_app; simpl; lia).
    rewrite <- Hvslen. rewrite delete_middle. by rewrite app_nil_r.
Qed.

Lemma array_roundtrip l1 l2 :
  is_json (Arr l1) = true -> is_json (Arr l2) = true ->
  same_shape (Arr l1) (Arr l2) = true ->
  (depth (Arr l2) <= fuel)%nat ->
  exists ps doc,
    diff distinct_objects (S fuel) (Arr l1) (Arr l2) "" = Return ps
    /\ RFC6902.apply_patches (Arr l1) ps = Some doc
    /\ deep_equal doc (Arr l2) = true.
Proof.
  intros Hj1 Hj2 Hshape Hd. rewrite diff_unfold. simpl.
  pose proof (same_shape_Arr _ _ Hshape) as [Hlen _].
  destruct (for_of_invariant (fun i patches => aligned l1 l2 i patches)
              (change_turn distinct_objects fuel (Arr l1) (Arr l2) "")
              (index_keys (length l2)) [])
    as (patches1 & -> & Haligned).
  { exists []. split; [done|]. constructor. }
  { intros i k acc Hk Hinv. unfold index_keys in Hk.
    rewrite list_lookup_fmap in Hk.
    destruct (seq 0 (length l2) !! i) as [j|] eqn:Hj; [|done].
    apply lookup_seq in Hj as [-> Hj]. simpl in Hk. injection Hk as <-.
    by apply array_change_turn. }
  simpl. unfold index_keys in Haligned. rewrite length_fmap, length_seq in Haligned.
  destruct Haligned as (vs & Happ & Hvs). rewrite firstn_all in Hvs.
  destruct (for_of_invariant (fun i patches => trimmed l1 l2 i patches)
              (removal_turn (Arr l2) "") (index_keys (length l1)) patches1)
    as (patches2 & -> & Htrimmed).
  { exists vs. split; [|done].
    by replace (Nat.max (length l2) 0) with (length l2) by lia. }
  { intros i k acc Hk Hinv. unfold index_keys in Hk.
    rewrite list_lookup_fmap in Hk.
    destruct (seq 0 (length l1) !! i) as [j|] eqn:Hj; [|done].
    apply lookup_seq in Hj as [-> Hj]. simpl in Hk. injection Hk as <-.
    by apply array_removal_turn. }
  unfold index_keys in Htrimmed. rewrite length_fmap, length_seq in Htrimmed.
  destruct Htrimmed as (final & Happ' & Hfinal).
  rewrite drop_ge, app_nil_r in Happ' by lia.
  exists patches2, (Arr final). split; [done|]. split; [done|].
  by apply deep_equal_Arr_intro.
Qed.

End RoundTripStep.

(** On documents of the same shape that share no container, the patches of
    [diff] apply without error and turn [prev] into a value deep-equal to
    [next]. *)
Lemma diff_roundtrip_same_shape fuel : forall prev next : value,
  is_json prev = true -> is_json next = true -> same_shape prev next = true ->
  (depth next < fuel)%nat ->
  exists ps doc,
    diff distinct_objects fuel prev next "" = Return ps
    /\ RFC6902.apply_patches prev ps = Some doc
    /\ deep_equal doc next = true.
Proof.
  induction fuel as [|fuel IH]; intros prev next Hjp Hjn Hshape Hd; [lia|].
  destruct (strict_eq false prev next) eqn:Hstrict.
  { exists [], prev. rewrite diff_unfold. unfold distinct_objects. rewrite Hstrict.
    split; [done|]. split; [done|]. by apply strict_eq_deep_equal. }
  destruct (isScalar prev || isScalar next) eqn:Hscalar.
  { exists [mk_replace "" next], next. rewrite diff_unfold. unfold distinct_objects.
    rewrite Hstrict, Hscalar. split; [done|]. split; [done|].
    by apply deep_equal_refl. }
  apply orb_false_iff in Hscalar as [Hsp Hsn].
  destruct (same_shape_containers prev next Hshape Hsp Hsn)
    as [(l1 & l2 & -> & ->)|(p1 & p2 & -> & ->)].
  - apply array_roundtrip; [done..|lia].
  - apply object_roundtrip; [done..|lia].
Qed.

(** ** Applying the patches of [diff] *)

(** C1 fails on the code.  The patches of [diff([1,2,3], [2,3])] do turn
    [[1,2,3]] into [[2,3]].  But for [prev = [1,2,3]] and [next = [1]], [diff]
    emits the removes of indices 1 and 2 in ascending order; under RFC 6902
    the first remove leaves [[1,3]], the second then names an index that no
    longer exists, and the application is an error instead of a value
    deep-equal to [next].  For [prev = []] and [next = {}], [diff] emits no
    patch at all although the two values are not deep-equal. *)
Theorem C1_roundtrip_fails :
  RFC6902.apply_patches (Arr [num 1; num 2; num 3])
      [mk_replace "/0" (num 2); mk_replace "/1" (num 3); mk_remove "/2"]
    = Some (Arr [num 2; num 3])
  /\ diff distinct_objects 2 (Arr [num 1; num 2; num 3]) (Arr [num 1]) ""
    = Return [mk_remove "/1"; mk_remove "/2"]
  /\ RFC6902.apply_patch (Arr [num 1; num 2; num 3]) (mk_remove "/1")
       = Some (Arr [num 1; num 3])
  /\ RFC6902.apply_patch (Arr [num 1; num 3]) (mk_remove "/2") = None
  /\ RFC6902.apply_patches (Arr [num 1; num 2; num 3]) [mk_remove "/1"; mk_remove "/2"]
       = None
  /\ diff distinct_objects 2 (Arr []) (Obj []) "" = Return []
  /\ RFC6902.apply_patches (Arr []) [] = Some (Arr [])
  /\ deep_equal (Arr []) (Obj []) = false.
Proof. repeat split; reflexivity. Qed.

(** ** The primitive getters *)

(** C10: the [number] getter maps a present but empty attribute to the
    number 0, because [Number("")] is 0; it yields [undefined] only for an
    absent attribute or a string that converts to [NaN]; so an element whose
    schema is [{ num: Number }] and whose markup says [num=""] reports
    [{ num: 0 }]. *)
Theorem C10_number_of_empty_attribute :
  Number "" = Finite 0
  /\ (forall (E : Type) (els : list E),
        call Getters.number (Some "") els = Num (Finite 0))
  /\ (forall (E : Type) (attr : option string) (els : list E),
        call Getters.number attr els = Undefined
        <-> attr = None \/ exists s, attr = Some s /\ Number s = NaN)
  /\ (forall (E : Type) (json_of : E -> value) (assigned : string -> list (Assigned E)),
        exists (this : Instance E) (calls : nat),
          constructor json_of [("num", SNumber)] 0 = (Return this, calls)
          /\ json this (mkDom [("num", "")] assigned) = Obj [("num", Num (Finite 0))]).
Proof.
  split; [reflexivity|]. split; [reflexivity|]. split.
  - intros E attr els. simpl. destruct attr as [s|]; [|by split; eauto].
    destruct (Number s) eqn:Hn; simpl; split.
    + intros _. right. by exists s.
    + done.
    + done.
    + intros [?|(s' & ? & ?)]; congruence.
    + done.
    + intros [?|(s' & ? & ?)]; congruence.
  - intros E json_of assigned. eexists _, _. split; reflexivity.
Qed.

(** ** Enumerations *)

Lemma strict_eq_Undefined s v : strict_eq s v Undefined = true <-> v = Undefined.
Proof. by destruct v. Qed.

Lemma not_strict_eq_Undefined s v : strict_eq s v Undefined = false <-> v <> Undefined.
Proof. by destruct v. Qed.

Lemma compile_all_each {E : Type} (json_of : E -> value) schemata fns :
  compile_all json_of schemata = Return fns ->
  Forall2 (fun schema fn => compile json_of schema = Return fn) schemata fns.
Proof.
  revert fns. induction schemata as [|schema rest IH]; intros fns; simpl.
  - intros [= <-]. constructor.
  - destruct (compile json_of schema) as [fn| |] eqn:Hfn; simpl; [|done|done].
    destruct (compile_all json_of rest) as [fns'| |]; simpl; [|done|done].
    intros [= <-]. constructor; auto.
Qed.

(** The first result that is not [undefined] wins. *)
Lemma first_defined_at {E : Type} (fns : list (ValueGetter E)) attr els i r :
  ((fun fn => call fn attr els) <$> fns) !! i = Some r ->
  r <> Undefined ->
  (forall j r', (j < i)%nat ->
     ((fun fn => call fn attr els) <$> fns) !! j = Some r' -> r' = Undefined) ->
  first_defined fns attr els = r.
Proof.
  revert i. induction fns as [|fn fns IH]; intros i Hi Hr Hbefore; [done|].
  simpl. destruct i as [|i]; simpl in Hi.
  - injection Hi as ->.
    by rewrite (proj2 (not_strict_eq_Undefined false r) Hr).
  - rewrite (Hbefore 0%nat (call fn attr els)) by (lia || done). simpl.
    apply (IH i); [done..|].
    intros j r' Hj Hr'. apply (Hbefore (S j)); [lia|done].
Qed.

Lemma first_defined_none {E : Type} (fns : list (ValueGetter E)) attr els :
  (forall r, r ∈ (fun fn => call fn attr els) <$> fns -> r = Undefined) ->
  first_defined fns attr els = Undefined.
Proof.
  induction fns as [|fn fns IH]; intros Hall; [done|].
  simpl. rewrite (Hall (call fn attr els)) by left. simpl.
  apply IH. intros r Hr. apply Hall. by right.
Qed.

(** C6: the getter [Enum] builds from alternatives that all compile runs the
    compiled alternatives in authoring order and returns the first result
    that is not [undefined], be it [0], [""] or [false]; when every
    alternative yields [undefined], so does the getter. *)
Theorem C6_Enum_first_defined :
  (forall (E : Type) (json_of : E -> value)
          (schemata : list (SchemaInput E)) (fns : list (ValueGetter E)),
      compile_all json_of schemata = Return fns ->
      Forall2 (fun schema fn => compile json_of schema = Return fn) schemata fns
      /\ exists g : ValueGetter E,
           Enum json_of schemata = Return g
           /\ forall (attr : option string) (els : list E),
                let results := (fun fn => call fn attr els) <$> fns in
                (forall (i : nat) (r : value),
                    results !! i = Some r -> r <> Undefined ->
                    (forall (j : nat) (r' : value),
                        (j < i)%nat -> results !! j = Some r' -> r' = Undefined) ->
                    call g attr els = r)
                /\ ((forall r : value, r ∈ results -> r = Undefined) ->
                    call g attr els = Undefined))
  /\ (forall (E : Type) (json_of : E -> value),
        Enum json_of [SString; SObject]
        = Return (mkGetter 2 (first_defined [Getters.string; Getters.object json_of]))
        /\ first_defined [Getters.string; Getters.object json_of] (Some "test") []
           = Str "test"
        /\ first_defined (E:=E) [literal (num 0); Getters.string] (Some "test") [] = num 0
        /\ first_defined (E:=E) [literal (Str ""); Getters.string] (Some "test") [] = Str ""
        /\ first_defined (E:=E) [Getters.boolean; Getters.string] None [] = Bool false
        /\ first_defined [Getters.string; Getters.object json_of] (Some "") []
           = Undefined).
Proof.
  split.
  - intros E json_of schemata fns Hfns. split; [by apply compile_all_each|].
    exists (mkGetter 2 (first_defined fns)). split.
    { unfold Enum. by rewrite Hfns. }
    intros attr els results. split.
    + intros i r. apply first_defined_at.
    + apply first_defined_none.
  - intros E json_of. repeat split; reflexivity.
Qed.

Lemma C6_Enum_first_defined_witness :
  exists g : ValueGetter unit,
    Enum (fun _ => Null) [SValue (Bool false); SString; SObject] = Return g
    /\ call g (Some "test") [] = Bool false.
Proof.
  destruct (proj1 C6_Enum_first_defined unit (fun _ => Null)
              [SValue (Bool false); SString; SObject]
              [literal (Bool false); Getters.string; Getters.object (fun _ => Null)]
              eq_refl) as (_ & g & Hg & Hcall).
  exists g. split; [exact Hg|].
  apply (proj1 (Hcall (Some "test") []) 0%nat (Bool false)).
  - reflexivity.
  - discriminate.
  - intros j r' Hj. lia.
Defined.

(** ** Assembling the JSON of an element *)

Lemma obj_set_fresh {A : Type} (props : list (string * A)) k v :
  k ∉ props.*1 ->
  (forall k', k' ∈ props.*1 -> key_before k k' = false) ->
  obj_set props k v = props ++ [(k, v)].
Proof.
  induction props as [|[k' v'] props IH]; intros Hfresh Hlast; simpl; [done|].
  simpl in Hfresh. apply not_elem_of_cons in Hfresh as [Hne Hfresh].
  rewrite decide_False by done.
  rewrite (Hlast k') by (simpl; left).
  f_equal. apply IH; [done|].
  intros k'' Hk''. apply Hlast. simpl. by right.
Qed.

Lemma key_ordered_snoc ks k :
  key_ordered (ks ++ [k]) = true ->
  key_ordered ks = true /\ forall k', k' ∈ ks -> key_before k k' = false.
Proof.
  induction ks as [|k0 ks IH]; simpl.
  - intros _. split; [done|]. by intros k' ?%elem_of_nil.
  - rewrite forallb_app. simpl.
    intros Hcons. apply andb_true_iff in Hcons as [Hhead Hord].
    apply andb_true_iff in Hhead as [Hall Hk].
    apply andb_true_iff in Hk as [Hk _].
    destruct (IH Hord) as [Hks Hbefore]. split.
    + by rewrite Hall, Hks.
    + intros k' Hk'. apply elem_of_cons in Hk' as [->|Hk'];
        [by apply negb_true_iff|auto].
Qed.

Lemma own_keys_snoc ks k :
  own_keys (ks ++ [k]) ->
  own_keys ks /\ (k ∉ ks) /\ (forall k', k' ∈ ks -> key_before k k' = false).
Proof.
  intros [Hnd Hord]. apply key_ordered_snoc in Hord as [Hord Hbefore].
  apply NoDup_app in Hnd as (Hnd & Hdisj & _).
  repeat split; [done..| |done].
  intros Hk. apply (Hdisj k Hk). by left.
Qed.

Lemma json_unfold {E : Type} (this : Instance E) (dom : Dom E) :
  json this dom = Obj (foldl (json_turn this dom) [] (schema this)).
Proof.
  unfold json. f_equal.
  generalize (@nil (string * value)) as acc.
  induction (schema this) as [|[key fn] entries IH]; intros acc; simpl; [done|].
  apply IH.
Qed.

Lemma omap_keys_subset {A B : Type} (f : string * A -> option (string * B))
    (l : list (string * A)) k :
  (forall kv kv', f kv = Some kv' -> kv'.1 = kv.1) ->
  k ∈ (omap f l).*1 -> k ∈ l.*1.
Proof.
  intros Hf (kv' & -> & Hin)%list_elem_of_fmap.
  apply list_elem_of_omap in Hin as (kv & Hin & Hkv).
  apply list_elem_of_fmap. exists kv. split; [by rewrite (Hf _ _ Hkv)|done].
Qed.

Lemma foldl_json_turn {E : Type} (this : Instance E) (dom : Dom E)
    (entries : list (string * ValueGetter E)) :
  own_keys entries.*1 ->
  foldl (json_turn this dom) [] entries
  = omap (fun entry : string * ValueGetter E =>
            let result := getter_result this dom entry.1 entry.2 in
            if negb (strict_eq false result Undefined)
            then Some (entry.1, result) else None) entries.
Proof.
  induction entries as [|[key fn] entries IH] using rev_ind; [done|].
  rewrite fmap_app. simpl. intros (Hown & Hfresh & Hlast)%own_keys_snoc.
  rewrite foldl_app, omap_app, IH by done. simpl.
  unfold json_turn at 1. simpl.
  destruct (negb (strict_eq false (getter_result this dom key fn) Undefined));
    simpl; [|by rewrite app_nil_r].
  apply obj_set_fresh.
  - intros Hk. apply Hfresh. revert Hk. apply omap_keys_subset.
    intros kv kv'. simpl. case_match; by intros [= <-].
  - intros k' Hk'. apply Hlast. revert Hk'. apply omap_keys_subset.
    intros kv kv'. simpl. case_match; by intros [= <-].
Qed.

Lemma member_Permutation {A : Type} (p p' : list (string * A)) k :
  NoDup p.*1 -> p ≡ₚ p' -> member p k = member p' k.
Proof.
  intros Hnd Hperm. induction Hperm as [|[k0 v0] p p' Hperm IH
      |[k0 v0] [k1 v1] p|p p' p'' Hperm1 IH1 Hperm2 IH2]; simpl.
  - done.
  - apply NoDup_cons in Hnd as [_ Hnd]. case_decide; auto.
  - simpl in Hnd. apply NoDup_cons in Hnd as [Hne _].
    repeat case_decide; try done. subst. exfalso. apply Hne. by left.
  - rewrite IH1 by done. apply IH2. by rewrite <- Hperm1.
Qed.

Lemma foldl_pointwise {A B : Type} (f g : B -> A -> B) (l : list A) (acc : B) :
  (forall b a, f b a = g b a) -> foldl f acc l = foldl g acc l.
Proof.
  intros Hfg. revert acc. induction l as [|a l IH]; intros acc; simpl; [done|].
  by rewrite Hfg, IH.
Qed.

Lemma json_ext {E : Type} (this : Instance E) (dom dom' : Dom E) :
  (forall name, getAttribute dom name = getAttribute dom' name) ->
  (forall name, assigned dom name = assigned dom' name) ->
  json this dom = json this dom'.
Proof.
  intros Hattr Hassigned. rewrite !json_unfold. f_equal.
  apply foldl_pointwise. intros acc [key fn]. unfold json_turn, getter_result, slotted.
  simpl. rewrite Hattr.
  destruct (decide (key = "")); destruct (head (slots this));
    repeat case_decide; by rewrite ?Hassigned.
Qed.

Lemma assembled_sublist {E : Type} (this : Instance E) (dom : Dom E) :
  sublist (assembled this dom).*1 (schema this).*1.
Proof.
  unfold assembled.
  induction (schema this) as [|[k f] entries IH]; csimpl.
  { constructor. }
  destruct (negb (strict_eq false (getter_result this dom k f) Undefined)); csimpl.
  - by apply sublist_skip.
  - by apply sublist_cons.
Qed.

(** ** Batching *)

Section BatchingFacts.

Context {E : Type}.
Variable same : string -> bool.

Lemma queue_this (w : World E) :
  this (queue w) = set_queued (this w) true.
Proof. unfold queue. by destruct (negb (queued (this w))). Qed.


Lemma queue_microtasks (w : World E) :
  microtasks (queue w)
  = if queued (this w) then microtasks w else microtasks w ++ [notify_task].
Proof. unfold queue. by destruct (queued (this w)). Qed.

Lemma queue_coherent (w : World E) :
  coherent w ->
  coherent (queue w) /\ queued (this (queue w)) = true
  /\ microtasks (queue w) = [notify_task].
Proof.
  unfold coherent. intros Hw.
  rewrite queue_this, queue_microtasks, Hw. simpl.
  by destruct (queued (this w)).
Qed.

(** A change makes the element call [#queue()], after the DOM has changed
    and without touching the instance, the queue or the events. *)
Lemma react_change (w : World E) (input : Input E) :
  is_change input = true ->
  exists w0 : World E,
    react w input = queue w0
    /\ this w0 = this w /\ microtasks w0 = microtasks w
    /\ dispatched w0 = dispatched w.
Proof.
  destruct input as [name new_value| |name els|[]]; try done; intros _; simpl;
    eexists; (split; [reflexivity|done]).
Qed.


(** [#notify()] returns, with exactly one more event dispatched, the flag
    cleared, and nothing queued by the element's own listener. *)
Lemma notify_returns (w : World E) :
  exists (w' : World E) (ev : Event),
    notify same w = Return w'
    /\ dispatched w' = dispatched w ++ [ev]
    /\ type ev = "json-change" /\ target ev = TargetThis
    /\ microtasks w' = microtasks w
    /\ queued (this w') = false
    /\ schema (this w') = schema (this w).
Proof.
  unfold notify. destruct (hasAttribute (dom w) "diff").
  - destruct (diff_returns same (S (depth (json (this w) (dom w))))
                (prev (this w)) (json (this w) (dom w)) "") as [patches ->]; [lia|].
    simpl. eexists _, _. split; [reflexivity|]. done.
  - simpl. eexists _, _. split; [reflexivity|]. done.
Qed.

Lemma drain_one (w : World E) :
  microtasks w = [notify_task] ->
  exists (w' : World E) (ev : Event),
    (forall fuel : nat, drain same (S fuel) w = Return w')
    /\ dispatched w' = dispatched w ++ [ev]
    /\ type ev = "json-change"
    /\ microtasks w' = []
    /\ queued (this w') = false
    /\ schema (this w') = schema (this w).
Proof.
  intros Htasks.
  destruct (notify_returns (mkWorld (this w) (dom w) [] (dispatched w)))
    as (w' & ev & Hnotify & Hdisp & Htype & _ & Htasks' & Hq & Hschema).
  simpl in *. exists w', ev. repeat split; try done.
  intros fuel. simpl. rewrite Htasks. simpl. rewrite Hnotify. simpl.
  destruct fuel; simpl; by rewrite Htasks'.
Qed.

Lemma react_schema (w : World E) (input : Input E) :
  schema (this (react w input)) = schema (this w).
Proof.
  destruct input as [name new_value| |name els|[]]; simpl;
    unfold attributeChangedCallback, connectedCallback, handleEvent; simpl;
    try done; by destruct (negb (queued (this w))).
Qed.

End BatchingFacts.

Lemma drain_coherent {E : Type} (same : string -> bool) (fuel : nat) :
  forall w w' : World E,
    coherent w -> drain same fuel w = Return w' -> coherent w'.
Proof.
  intros w w' Hw. unfold coherent in Hw.
  destruct (queued (this w)) eqn:Hq.
  - destruct (drain_one same w Hw) as (w1 & ev & Hdrain & _ & _ & Htasks & Hq1 & _).
    destruct fuel as [|fuel]; simpl; rewrite Hw; [done|].
    specialize (Hdrain fuel). simpl in Hdrain. rewrite Hw in Hdrain.
    rewrite Hdrain. intros [= <-]. unfold coherent. by rewrite Htasks, Hq1.
  - destruct fuel; simpl; rewrite Hw; intros [= <-]; unfold coherent;
      by rewrite Hw, Hq.
Qed.

(** Every reachable state has nothing pending, or exactly one flush. *)
Lemma reachable_coherent {E : Type} (same : string -> bool) (w : World E) :
  reachable same w -> coherent w.
Proof.
  induction 1 as [this dom Hq|w input _ IH|w w' fuel _ IH Hdrain].
  - unfold coherent. simpl. by rewrite Hq.
  - destruct (is_change input) eqn:Hchange.
    + destruct (react_change w input Hchange) as (w0 & -> & Hthis & Htasks & _).
      apply queue_coherent. unfold coherent in *. by rewrite Hthis, Htasks.
    + destruct input as [| | |[]]; try done.
  - by apply (drain_coherent same fuel w).
Qed.


(** ** Construction and the compiled schema *)

Lemma constructor_loop_calls {E : Type} (json_of : E -> value) entries :
  forall (this this' : Instance E) (calls calls' : nat),
    constructor_loop json_of entries this calls = (Return this', calls') ->
    calls' = (calls + length entries)%nat.
Proof.
  induction entries as [|[key input] entries IH]; intros this this' calls calls'; simpl.
  - intros [= _ <-]. lia.
  - destruct (compile json_of input) as [fn| |]; [|done|done].
    intros Hloop. apply IH in Hloop. lia.
Qed.

Lemma key_ordered_app ks ks' :
  key_ordered (ks ++ ks') = true ->
  key_ordered ks = true /\ key_ordered ks' = true
  /\ (forall k k', k ∈ ks -> k' ∈ ks' -> key_before k' k = false).
Proof.
  induction ks as [|k0 ks IH]; simpl.
  - intros H. repeat split; [done|]. by intros k k' ?%elem_of_nil.
  - rewrite forallb_app. intros Hcons.
    apply andb_true_iff in Hcons as [Hhead Hord].
    apply andb_true_iff in Hhead as [Hall Hall'].
    destruct (IH Hord) as (Hks & Hks' & Hcross).
    split; [by rewrite Hall, Hks|]. split; [done|].
    intros k k' Hk Hk'. apply elem_of_cons in Hk as [->|Hk]; [|auto].
    rewrite forallb_forall in Hall'. apply negb_true_iff, Hall'.
    by apply list_elem_of_In.
Qed.

(** A constructor that returns has compiled every entry of the schema, in
    order, into the instance's own [#schema]. *)
Lemma constructor_loop_schema {E : Type} (json_of : E -> value) entries :
  forall (this this' : Instance E) (calls calls' : nat),
    own_keys ((schema this).*1 ++ entries.*1) ->
    constructor_loop json_of entries this calls = (Return this', calls') ->
    exists compiled,
      schema this' = schema this ++ compiled
      /\ Forall2 (fun entry fn => entry.1 = fn.1 /\ compile json_of entry.2 = Return fn.2)
           entries compiled.
Proof.
  induction entries as [|[key input] entries IH]; intros this this' calls calls' Hown; simpl.
  - intros [= <- _]. exists []. by rewrite app_nil_r.
  - destruct (compile json_of input) as [fn| |] eqn:Hfn; [|done|done].
    intros Hloop. destruct Hown as [Hnd Hord].
    assert (obj_set (schema this) key fn = schema this ++ [(key, fn)]) as Hset.
    { apply obj_set_fresh.
      - apply NoDup_app in Hnd as (_ & Hdisj & _). intros Hk.
        apply (Hdisj key Hk). by left.
      - apply key_ordered_app in Hord as (_ & _ & Hcross).
        intros k' Hk'. apply (Hcross k' key Hk'). by left. }
    apply IH in Hloop as (compiled & Hschema & Hall); simpl in *.
    + exists ((key, fn) :: compiled). rewrite Hschema, Hset, <- app_assoc.
      split; [done|]. by constructor.
    + rewrite Hset, fmap_app, <- app_assoc. simpl. by split.
Qed.

(** C9 (amended): the compiled schema is computed by the constructor, once
    for every instance: a construction that returns has invoked [compile]
    once for every key of the type's schema and holds the results, key by
    key, as the instance's own mapping; after construction neither a change
    nor a flush touches that mapping. *)
Theorem C9_compiled_once_per_instance :
  (forall (E : Type) (json_of : E -> value)
          (static_schema : list (string * SchemaInput E))
          (calls calls' : nat) (this : Instance E),
      constructor json_of static_schema calls = (Return this, calls') ->
      calls' = (calls + length static_schema)%nat
      /\ (own_keys static_schema.*1 ->
          Forall2 (fun entry fn =>
                     entry.1 = fn.1 /\ compile json_of entry.2 = Return fn.2)
                  static_schema (schema this)))
  /\ (forall (E : Type) (w : World E) (input : Input E),
        schema (this (react w input)) = schema (this w))
  /\ (forall (E : Type) (same : string -> bool) (w w' : World E),
        notify same w = Return w' -> schema (this w') = schema (this w)).
Proof.
  split; [|split].
  - intros E json_of static_schema calls calls' this Hnew. split.
    + by apply constructor_loop_calls in Hnew.
    + intros Hown.
      apply constructor_loop_schema in Hnew as (compiled & Hschema & Hall); [|done].
      simpl in Hschema. by rewrite Hschema.
  - intros E w input. apply react_schema.
  - intros E same w w' Hnotify.
    destruct (notify_returns same w) as (w'' & ev & Hw'' & _ & _ & _ & _ & _ & Hschema).
    rewrite Hnotify in Hw''. by injection Hw'' as ->.
Qed.

Lemma C9_compiled_once_per_instance_witness :
  snd (constructor (E:=unit) (fun _ => Null)
         [("name", SString); ("items", SArray)] 5) = 7%nat.
Proof.
  destruct (constructor (E:=unit) (fun _ => Null)
              [("name", SString); ("items", SArray)] 5) as [[this| |] calls'] eqn:Hnew;
    try discriminate Hnew.
  exact (proj1 (proj1 C9_compiled_once_per_instance unit (fun _ => Null)
                  [("name", SString); ("items", SArray)] 5%nat calls' this Hnew)).
Defined.

(** C9 as stated fails: every construction compiles the schema again.  Two
    instances of a type whose schema has the one key [name] cost two
    invocations of [compile], the second one during the second
    construction. *)
Lemma C9_counterexample :
  snd (constructor (E:=unit) (fun _ => Null) [("name", SString)] 0) = 1%nat
  /\ snd (constructor (E:=unit) (fun _ => Null) [("name", SString)] 1) = 2%nat
  /\ snd (constructor (E:=unit) (fun _ => Null) [("name", SString)] 1) <> 1%nat.
Proof. repeat split; [reflexivity..|discriminate]. Qed.

(** ** The keys of the result and the declaration of the schema *)

Lemma forallb_elem_of {A : Type} (f : A -> bool) (l : list A) :
  forallb f l = true <-> forall x, x ∈ l -> f x = true.
Proof.
  rewrite forallb_forall. split; intros H x Hx; apply H; by apply list_elem_of_In.
Qed.

Lemma key_before_asym k k' : key_before k k' = true -> key_before k' k = false.
Proof.
  unfold key_before.
  destruct (parse_array_index k), (parse_array_index k'); try done.
  intros ?%Z.ltb_lt. apply Z.ltb_ge. lia.
Qed.

Lemma key_before_trans k1 k2 k3 :
  key_before k1 k2 = true -> key_before k2 k3 = true -> key_before k1 k3 = true.
Proof.
  unfold key_before.
  destruct (parse_array_index k1), (parse_array_index k2), (parse_array_index k3);
    try done.
  intros ?%Z.ltb_lt ?%Z.ltb_lt. apply Z.ltb_lt. lia.
Qed.

Lemma elem_of_obj_set {A : Type} (props : list (string * A)) k v k' :
  k' ∈ (obj_set props k v).*1 <-> k' = k \/ k' ∈ props.*1.
Proof.
  induction props as [|[k0 v0] props IH]; simpl.
  - rewrite elem_of_cons, elem_of_nil. tauto.
  - destruct (decide (k0 = k)) as [->|Hne].
    { simpl. rewrite !elem_of_cons. tauto. }
    destruct (key_before k k0); simpl.
    + rewrite !elem_of_cons. tauto.
    + rewrite !elem_of_cons, IH. tauto.
Qed.

(** An assignment [obj[k] = v] keeps the keys of an object in the order
    JavaScript lists them. *)
Lemma obj_set_own_keys {A : Type} (props : list (string * A)) k v :
  own_keys props.*1 -> own_keys (obj_set props k v).*1.
Proof.
  unfold own_keys. induction props as [|[k0 v0] props IH]; simpl.
  { intros _. split; [apply NoDup_singleton|done]. }
  intros [[Hk0 Hnd]%NoDup_cons [Hall Hord]%andb_true_iff].
  rewrite forallb_elem_of in Hall.
  destruct (decide (k0 = k)) as [->|Hne].
  { simpl. split; [by apply NoDup_cons|].
    apply andb_true_iff. split; [by apply forallb_elem_of|done]. }
  destruct (key_before k k0) eqn:Hbefore.
  - assert (k ∉ props.*1) as Hfresh.
    { intros Hk. apply Hall in Hk. by rewrite Hbefore in Hk. }
    simpl. split.
    + apply NoDup_cons. split; [|by apply NoDup_cons].
      apply not_elem_of_cons. by split.
    + apply andb_true_iff. split; [|apply andb_true_iff; split; [by apply forallb_elem_of|done]].
      apply andb_true_iff. split.
      * by rewrite (key_before_asym _ _ Hbefore).
      * apply forallb_elem_of. intros k' Hk'.
        destruct (key_before k' k) eqn:Hk'k; [|done].
        apply Hall in Hk'. by rewrite (key_before_trans _ _ _ Hk'k Hbefore) in Hk'.
  - destruct (IH (conj Hnd Hord)) as [Hnd' Hord']. simpl. split.
    + apply NoDup_cons. split; [|done].
      rewrite elem_of_obj_set. intros [?|?]; [by subst|done].
    + apply andb_true_iff. split; [|done].
      apply forallb_elem_of. intros k' [->|Hk']%elem_of_obj_set; [|by apply Hall].
      by rewrite Hbefore.
Qed.

Lemma foldl_obj_set_own_keys {A : Type} (decl acc : list (string * A)) :
  own_keys acc.*1 ->
  own_keys (foldl (fun obj member => obj_set obj member.1 member.2) acc decl).*1.
Proof.
  revert acc. induction decl as [|[k v] decl IH]; intros acc Hacc; simpl; [done|].
  by apply IH, obj_set_own_keys.
Qed.

(** The object an object literal evaluates to lists its keys the way
    JavaScript does. *)
Lemma object_literal_own_keys {A : Type} (decl : list (string * A)) :
  own_keys (object_literal decl).*1.
Proof.
  apply foldl_obj_set_own_keys. split; [constructor|done].
Qed.

Lemma key_before_no_index k k' : parse_array_index k = None -> key_before k k' = false.
Proof. unfold key_before. by intros ->. Qed.

Lemma foldl_obj_set_append {A : Type} (decl acc : list (string * A)) :
  NoDup (acc.*1 ++ decl.*1) ->
  Forall (fun k => parse_array_index k = None) decl.*1 ->
  foldl (fun obj member => obj_set obj member.1 member.2) acc decl = acc ++ decl.
Proof.
  revert acc. induction decl as [|[k v] decl IH]; intros acc Hnd Hno; simpl.
  { by rewrite app_nil_r. }
  simpl in Hno. apply Forall_cons in Hno as [Hk Hno].
  rewrite obj_set_fresh.
  - rewrite IH, <- app_assoc; [done| |done].
    by rewrite fmap_app, <- app_assoc.
  - apply NoDup_app in Hnd as (_ & Hdisj & _). intros Hin.
    apply (Hdisj k Hin). simpl. by left.
  - intros k' _. by apply key_before_no_index.
Qed.

(** Members written once each under keys that are not array indices stay
    in the order they are written. *)
Lemma object_literal_declared {A : Type} (decl : list (string * A)) :
  NoDup decl.*1 ->
  Forall (fun k => parse_array_index k = None) decl.*1 ->
  object_literal decl = decl.
Proof. intros Hnd Hno. by apply (foldl_obj_set_append decl []). Qed.

Lemma obj_set_fresh_Permutation {A : Type} (props : list (string * A)) k v :
  k ∉ props.*1 -> (obj_set props k v).*1 ≡ₚ k :: props.*1.
Proof.
  induction props as [|[k0 v0] props IH]; simpl; [done|].
  intros [Hne Hfresh]%not_elem_of_cons.
  rewrite decide_False by done.
  destruct (key_before k k0); simpl; [done|].
  rewrite IH by done. apply Permutation_swap.
Qed.

Lemma filter_obj_set_index {A : Type} (props : list (string * A)) k v :
  k ∉ props.*1 -> parse_array_index k <> None ->
  filter (fun k' => parse_array_index k' = None) (obj_set props k v).*1
  = filter (fun k' => parse_array_index k' = None) props.*1.
Proof.
  intros Hfresh Hindex. induction props as [|[k0 v0] props IH]; simpl.
  { by rewrite filter_cons_False, filter_nil. }
  simpl in Hfresh. apply not_elem_of_cons in Hfresh as [Hne Hfresh].
  rewrite decide_False by done.
  destruct (key_before k k0); csimpl.
  - by rewrite (filter_cons_False _ k).
  - destruct (decide (parse_array_index k0 = None)).
    + rewrite !(filter_cons_True _ k0) by done. by rewrite IH.
    + rewrite !(filter_cons_False _ k0) by done. by rewrite IH.
Qed.

Lemma foldl_obj_set_filter {A : Type} (decl acc : list (string * A)) :
  NoDup (acc.*1 ++ decl.*1) ->
  filter (fun k => parse_array_index k = None)
    (foldl (fun obj member => obj_set obj member.1 member.2) acc decl).*1
  = filter (fun k => parse_array_index k = None) (acc.*1 ++ decl.*1).
Proof.
  revert acc. induction decl as [|[k v] decl IH]; intros acc Hnd; simpl.
  { by rewrite app_nil_r. }
  assert (k ∉ acc.*1) as Hfresh.
  { apply NoDup_app in Hnd as (_ & Hdisj & _). intros Hin.
    apply (Hdisj k Hin). simpl. by left. }
  rewrite IH.
  - destruct (decide (parse_array_index k = None)) as [Hk|Hk].
    + rewrite obj_set_fresh; [|done|by intros k' _; apply key_before_no_index].
      by rewrite fmap_app, <- app_assoc.
    + rewrite !filter_app, filter_obj_set_index by done.
      simpl. by rewrite (filter_cons_False _ k).
  - rewrite obj_set_fresh_Permutation by done. simpl.
    by rewrite Permutation_middle.
Qed.

(** The members of an object literal that are written once each come in
    the order they are written, but for the array indices among them. *)
Lemma object_literal_order {A : Type} (decl : list (string * A)) :
  NoDup decl.*1 ->
  filter (fun k => parse_array_index k = None) (object_literal decl).*1
  = filter (fun k => parse_array_index k = None) decl.*1.
Proof. intros Hnd. by apply (foldl_obj_set_filter decl []). Qed.

(** C7 (amended): for every instance whose slot keys are identifiers (and
    that has no key [__proto__], which names no property) and every DOM
    state, the JSON object assembled holds a key exactly when the
    getter of that key returns something other than [undefined], with that
    result as its value; its keys come in the order of the instance's
    schema; and the order of the attributes in the markup does not matter.
    The order of the instance's schema is the order in which JavaScript
    lists the keys of the declared schema: the array indices first, in
    ascending order, then the other keys, which are in the order of the
    declaration when every key is declared once.  It is the order of the
    declaration when, moreover, no key is an array index. *)
Theorem C7_json_keys :
  (forall (E : Type) (this : Instance E) (dom : Dom E),
      own_keys (schema this).*1 ->
      ("__proto__" ∉ (schema this).*1) ->
      selectable this ->
      json this dom = Obj (assembled this dom)
      /\ (forall key : string,
            key ∈ (assembled this dom).*1
            <-> exists fn : ValueGetter E,
                  (key, fn) ∈ schema this
                  /\ getter_result this dom key fn <> Undefined)
      /\ (forall (key : string) (fn : ValueGetter E),
            (key, fn) ∈ schema this ->
            getter_result this dom key fn <> Undefined ->
            member (assembled this dom) key = Some (getter_result this dom key fn))
      /\ sublist (assembled this dom).*1 (schema this).*1
      /\ (forall attrs' : list (string * string),
            NoDup (attributes dom).*1 -> attributes dom ≡ₚ attrs' ->
            json this (mkDom attrs' (assigned dom)) = json this dom))
  /\ (forall (E : Type) (json_of : E -> value)
             (decl : list (string * SchemaInput E))
             (calls calls' : nat) (this : Instance E),
        ("__proto__" ∉ decl.*1) ->
        constructor json_of (object_literal decl) calls = (Return this, calls') ->
        own_keys (schema this).*1
        /\ (schema this).*1 = (object_literal decl).*1
        /\ (forall dom : Dom E,
              selectable this ->
              exists props : list (string * value),
                json this dom = Obj props
                /\ sublist props.*1 (object_literal decl).*1)
        /\ (NoDup decl.*1 ->
            filter (fun k => parse_array_index k = None) (schema this).*1
            = filter (fun k => parse_array_index k = None) decl.*1)
        /\ (NoDup decl.*1 ->
            Forall (fun k => parse_array_index k = None) decl.*1 ->
            (schema this).*1 = decl.*1)).
Proof.
  split.
  - intros E this dom Hown _ _.
    split; [|split; [|split; [|split]]].
    + rewrite json_unfold. f_equal. by apply foldl_json_turn.
    + intros key. unfold assembled. split.
      * intros (kv' & -> & Hin)%list_elem_of_fmap.
        apply list_elem_of_omap in Hin as ([key fn] & Hin & Hkv). simpl in Hkv.
        destruct (strict_eq false (getter_result this dom key fn) Undefined) eqn:Hr;
          simpl in Hkv; [done|]. injection Hkv as <-. simpl.
        exists fn. split; [done|]. by apply (not_strict_eq_Undefined false).
      * intros (fn & Hin & Hr). apply list_elem_of_fmap.
        exists (key, getter_result this dom key fn). split; [done|].
        apply list_elem_of_omap. exists (key, fn). split; [done|]. simpl.
        by rewrite (proj2 (not_strict_eq_Undefined false _) Hr).
    + intros key fn Hin Hr. unfold assembled.
      destruct Hown as [Hnd _]. revert Hnd Hin.
      induction (schema this) as [|[k f] entries IH]; simpl.
      { by intros _ ?%elem_of_nil. }
      intros [Hk Hnd]%NoDup_cons [[= -> ->]|Hin]%elem_of_cons.
      * rewrite (proj2 (not_strict_eq_Undefined false _) Hr). simpl.
        by rewrite decide_True.
      * assert (k <> key) as Hne.
        { intros ->. apply Hk. apply list_elem_of_fmap. by exists (key, fn). }
        destruct (negb (strict_eq false (getter_result this dom k f) Undefined));
          simpl; [rewrite decide_False by done|]; by apply IH.
    + apply assembled_sublist.
    + intros attrs' Hnd Hperm. apply json_ext; [|done].
      intros name. unfold getAttribute. simpl. symmetry.
      by apply member_Permutation.
  - intros E json_of decl calls calls' this _ Hnew.
    pose proof (object_literal_own_keys decl) as Hown.
    apply constructor_loop_schema in Hnew as (compiled & Hschema & Hall); [|done].
    simpl in Hschema.
    assert ((schema this).*1 = (object_literal decl).*1) as Hkeys.
    { rewrite Hschema. clear Hschema Hown.
      induction Hall as [|entry fn entries fns [Hk _] _ IH]; csimpl; [done|].
      by rewrite IH, Hk. }
    split; [by rewrite Hkeys|]. split; [done|]. split.
    + intros dom _. exists (assembled this dom). split.
      * rewrite json_unfold. f_equal. apply foldl_json_turn. by rewrite Hkeys.
      * rewrite <- Hkeys. apply assembled_sublist.
    + split.
      * intros Hnd. by rewrite Hkeys, object_literal_order.
      * intros Hnd Hno. by rewrite Hkeys, object_literal_declared.
Qed.

Lemma C7_json_keys_witness :
  json (mkInstance false Null
          [("1", Getters.number); ("name", Getters.string);
           ("items", Getters.array (fun _ : unit => Null))] ["items"])
       (mkDom [("name", "x"); ("size", "3"); ("1", "7")] (fun _ => []))
  = Obj [("1", num 7); ("name", Str "x"); ("items", Arr [])].
Proof.
  refine (proj1 (proj1 C7_json_keys unit
           (mkInstance false Null
              [("1", Getters.number); ("name", Getters.string);
               ("items", Getters.array (fun _ : unit => Null))] ["items"])
           (mkDom [("name", "x"); ("size", "3"); ("1", "7")] (fun _ => [])) _ _ _)).
  - split; [|reflexivity].
    apply (bool_decide_unpack _). by vm_compute.
  - apply (bool_decide_unpack _). by vm_compute.
  - reflexivity.
Defined.

(** C7 as stated fails on the order of the keys.  The schema declared as
    [{ name: String, 1: Number }] has the keys ["1"; "name"]: an element of
    that type lists the key [1], declared second, before the key [name],
    and its JSON does the same, so the keys of the result are not in the
    order of the declaration. *)
Lemma C7_counterexample :
  (object_literal [("name", @SString unit); ("1", SNumber)]).*1 = ["1"; "name"]
  /\ exists this : Instance unit,
       constructor (fun _ => Null)
         (object_literal [("name", SString); ("1", SNumber)]) 0 = (Return this, 2%nat)
       /\ json this (mkDom [("name", "x"); ("1", "7")] (fun _ => []))
          = Obj [("1", num 7); ("name", Str "x")]
       /\ ~ sublist ["1"; "name"] ["name"; "1"].
Proof.
  split; [reflexivity|].
  eexists. split; [reflexivity|]. split; [reflexivity|].
  intros Hsub.
  apply sublist_cons_l in Hsub as (l1 & l2 & Heq & Hsub).
  destruct l1 as [|k1 [|k2 [|k3 l1]]]; simplify_eq/=.
  by apply sublist_nil_r in Hsub.
Qed.

(** ** Pointers built by [append] *)

Lemma append_foldl p ks : foldl append p ks = p +:+ foldl append "" ks.
Proof.
  revert p. induction ks as [|k ks IH]; intros p; simpl.
  - by rewrite string_app_nil_r.
  - rewrite (IH (append p k)), (IH (append "" k)).
    rewrite <- (string_app_nil_r p) at 1. rewrite append_prefix.
    by rewrite string_app_assoc.
Qed.

Lemma string_app_inj_l (p a b : string) : p +:+ a = p +:+ b -> a = b.
Proof. induction p as [|c p IH]; simpl; [done|]. intros [= H]. by apply IH. Qed.

Lemma parse_pointer_foldl ks : RFC6902.parse_pointer (foldl append "" ks) = Some ks.
Proof.
  induction ks as [|k ks IH]; [done|].
  simpl. rewrite append_foldl. by apply parse_pointer_prefixed.
Qed.

(** Pointers built by [append] decode to the keys they were built from:
    starting from the empty pointer and calling [append] once for each of the
    keys [ts] and then for each of the keys [ks] gives a JSON Pointer of
    RFC 6901 whose reference tokens are exactly [ts ++ ks], whatever
    characters the keys hold. *)
Theorem pointer_of_keys_decodes (ts ks : list string) :
  RFC6902.parse_pointer (foldl append (foldl append "" ts) ks) = Some (ts ++ ks).
Proof. rewrite <- foldl_app. apply parse_pointer_foldl. Qed.

(** [append] never maps two keys to the same pointer: below one path,
    different keys give different pointers, and different sequences of keys
    give different pointers from the root. *)
Theorem append_injective :
  (forall p k k' : string, append p k = append p k' <-> k = k')
  /\ (forall ks ks' : list string,
        foldl append "" ks = foldl append "" ks' <-> ks = ks').
Proof.
  split.
  - intros p k k'. split; [|by intros ->].
    unfold append. rewrite !replace_twice_escape.
    intros H. apply string_app_inj_l in H. apply string_app_inj_l in H.
    apply (f_equal RFC6902.unescape) in H.
    rewrite !unescape_escape in H. congruence.
  - intros ks ks'. split; [|by intros ->].
    intros H. apply (f_equal RFC6902.parse_pointer) in H.
    rewrite !parse_pointer_foldl in H. congruence.
Qed.

(** ** The path argument of [diff] *)

(** The path argument of [diff] is only a prefix: the patches of
    [diff(prev, next, p)] are the patches of [diff(prev, next)], in the same
    order, with [p] put before every pointer. *)
Theorem diff_relocates (same : string -> bool) (fuel : nat) :
  forall (prev next : value) (p q : string),
    diff same fuel prev next (p +:+ q)
    = outcome_map (fmap (prefix_patch p))
        (diff (fun r => same (p +:+ r)) fuel prev next q).
Proof.
  induction fuel as [|fuel IH]; intros prev next p q; [done|].
  rewrite !diff_unfold.
  destruct (strict_eq (same (p +:+ q)) prev next); [done|].
  destruct (isScalar prev || isScalar next); [done|].
  destruct (keys next) as [ks| |]; simpl; [|done|done].
  change (@nil Patch) with (prefix_patch p <$> @nil Patch) at 1.
  rewrite (for_of_map (fmap (prefix_patch p)) _
             (change_turn (fun r => same (p +:+ r)) fuel prev next q)).
  - destruct (for_of (change_turn (fun r => same (p +:+ r)) fuel prev next q) ks [])
      as [patches| |]; simpl; [|done|done].
    destruct (keys prev) as [pks| |]; simpl; [|done|done].
    apply for_of_map. intros acc prop. unfold removal_turn.
    destruct (get next prop) as [nv| |]; simpl; [|done|done].
    case_bool_decide; simpl; [|done].
    by rewrite fmap_app, append_prefix.
  - intros acc prop. unfold change_turn.
    destruct (get prev prop) as [pv| |]; simpl; [|done|done].
    destruct (get next prop) as [nv| |]; simpl; [|done|done].
    rewrite append_prefix.
    case_bool_decide; simpl; [by rewrite fmap_app|].
    destruct (_ && _); simpl.
    + rewrite IH.
      destruct (diff (fun r => same (p +:+ r)) fuel pv nv (append q prop))
        as [nested| |]; simpl; [|done|done].
      by rewrite fmap_app.
    + destruct (negb _); simpl; [|done].
      by rewrite fmap_app.
Qed.

(** ** Where the patches of [diff] point *)

Lemma typeof_undefined v : typeof v = "undefined" -> v = Undefined.
Proof. by destruct v. Qed.

Lemma located_below prev next pv nv prop ks p :
  get prev prop = Return pv -> get next prop = Return nv ->
  located pv nv ks p -> located prev next (prop :: ks) p.
Proof.
  intros Hp Hn. unfold located, read. simpl. rewrite Hp, Hn. simpl.
  destruct (op p); [|done|]; intros H; [destruct H as (_ & H)|destruct H as (_ & H)];
    (split; [done|exact H]).
Qed.

Lemma diff_located same fuel : forall prev next ts patches,
  diff same fuel prev next (foldl append "" ts) = Return patches ->
  Forall (fun p => exists ks,
            path p = foldl append "" (ts ++ ks) /\ located prev next ks p) patches.
Proof.
  induction fuel as [|fuel IH]; intros prev next ts patches; [done|].
  rewrite diff_unfold.
  destruct (strict_eq _ prev next); [by intros [= <-]|].
  destruct (isScalar prev || isScalar next).
  { intros [= <-]. repeat constructor. exists []. rewrite app_nil_r.
    split; [done|]. by exists next. }
  destruct (keys next) as [ks| |]; simpl; [|done|done].
  destruct (for_of _ ks []) as [ps1| |] eqn:H1; simpl; [|done|done].
  destruct (keys prev) as [pks| |]; simpl; [|done|done].
  apply for_of_preserves.
  - intros acc prop r Hacc. unfold removal_turn.
    destruct (get next prop) as [nv| |] eqn:Hn; simpl; [|done|done].
    case_bool_decide as Hu; intros [= <-]; [|done].
    apply Forall_app. split; [done|]. repeat constructor.
    exists [prop]. rewrite foldl_app. split; [done|].
    apply typeof_undefined in Hu as ->.
    unfold located, read. simpl. by rewrite Hn.
  - revert H1. apply for_of_preserves; [|constructor].
    intros acc prop r Hacc. unfold change_turn.
    destruct (get prev prop) as [pv| |] eqn:Hp; simpl; [|done|done].
    destruct (get next prop) as [nv| |] eqn:Hn; simpl; [|done|done].
    case_bool_decide as Hu.
    { intros [= <-]. apply Forall_app. split; [done|].
      repeat constructor. exists [prop]. rewrite foldl_app. split; [done|].
      apply typeof_undefined in Hu as ->.
      unfold located, read. simpl. rewrite Hp, Hn. simpl. eauto. }
    destruct (_ && _).
    { replace (append (foldl append "" ts) prop) with (foldl append "" (ts ++ [prop]))
        by by rewrite foldl_app.
      destruct (diff same fuel pv nv _) as [nested| |] eqn:Hnested;
        simpl; [|done|done].
      intros [= <-]. apply Forall_app. split; [done|].
      apply IH in Hnested. eapply Forall_impl; [exact Hnested|].
      intros p (ks' & Hpath & Hloc). exists (prop :: ks').
      rewrite Hpath, <- app_assoc. split; [done|].
      by eapply located_below. }
    destruct (negb _); intros [= <-]; [|done].
    apply Forall_app. split; [done|]. repeat constructor.
    exists [prop]. rewrite foldl_app. split; [done|].
    unfold located, read. simpl. rewrite Hn. simpl. eauto.
Qed.

(** Every patch of [diff(prev, next)] points into the two documents: its
    pointer decodes to a sequence of keys; an add or a replace carries the
    very value [next] holds under these keys; an add goes where [prev] holds
    nothing; a remove goes where [next] holds nothing; and only a replace can
    address the root. *)
Theorem patches_located (same : string -> bool) (fuel : nat)
    (prev next : value) (patches : list Patch) :
  diff same fuel prev next "" = Return patches ->
  Forall (fun p => exists ks : list string,
            RFC6902.parse_pointer (path p) = Some ks
            /\ located prev next ks p) patches.
Proof.
  intros Hdiff. apply (diff_located same fuel prev next []) in Hdiff.
  eapply Forall_impl; [exact Hdiff|].
  intros p (ks & Hpath & Hloc). exists ks. split; [|done].
  rewrite Hpath. simpl. apply parse_pointer_foldl.
Qed.

Lemma patches_located_witness :
  Forall (fun p => exists ks : list string,
            RFC6902.parse_pointer (path p) = Some ks
            /\ located (Obj [("a/b", Arr [num 1; num 2]); ("c", Null)])
                 (Obj [("a/b", Arr [num 1]); ("d", Str "x")]) ks p)
    [mk_remove "/a~1b/1"; mk_add "/d" (Str "x"); mk_remove "/c"].
Proof.
  apply (patches_located distinct_objects 3
           (Obj [("a/b", Arr [num 1; num 2]); ("c", Null)])
           (Obj [("a/b", Arr [num 1]); ("d", Str "x")])).
  reflexivity.
Defined.

(** ** Documents that [diff] brings back *)

(** On JSON documents of the same shape that share no container, the
    patches of [diff(prev, next)] apply to [prev] in the order produced, by
    the rules of RFC 6902, and give a document deeply equal to [next].  Same
    shape: wherever both documents hold a container, both hold an array or
    both an object, and the array of [prev] is at most one element longer.
    The keys of the objects are taken outside the names of the inherited
    members, which a property read would find on the prototype. *)
Theorem roundtrip_on_same_shape (fuel : nat) (prev next : value) :
  is_json prev = true -> is_json next = true ->
  plain_keys prev = true -> plain_keys next = true ->
  same_shape prev next = true ->
  (depth next < fuel)%nat ->
  exists (patches : list Patch) (doc : value),
    diff distinct_objects fuel prev next "" = Return patches
    /\ RFC6902.apply_patches prev patches = Some doc
    /\ deep_equal doc next = true.
Proof.
  intros Hprev Hnext _ _ Hshape Hfuel.
  destruct (diff_roundtrip_same_shape fuel prev next Hprev Hnext Hshape Hfuel)
    as (patches & doc & Hdiff & Happly & Heq).
  exists patches, doc. by rewrite Hdiff, Happly.
Qed.

Lemma roundtrip_on_same_shape_witness :
  exists (patches : list Patch) (doc : value),
    diff distinct_objects 3
      (Obj [("name", Str "a"); ("tags", Arr [Str "x"; Str "y"]); ("old", Null)])
      (Obj [("tags", Arr [Str "y"]); ("name", Str "b"); ("new", Bool true)]) ""
    = Return patches
    /\ RFC6902.apply_patches
         (Obj [("name", Str "a"); ("tags", Arr [Str "x"; Str "y"]); ("old", Null)])
         patches = Some doc
    /\ deep_equal doc
         (Obj [("tags", Arr [Str "y"]); ("name", Str "b"); ("new", Bool true)]) = true.
Proof.
  apply (roundtrip_on_same_shape 3
           (Obj [("name", Str "a"); ("tags", Arr [Str "x"; Str "y"]); ("old", Null)])
           (Obj [("tags", Arr [Str "y"]); ("name", Str "b"); ("new", Bool true)]));
    [reflexivity..|vm_compute; lia].
Defined.

(** On JSON documents of the same shape that share no container, and whose
    keys name no inherited member, [diff] returns no patch exactly when the
    two documents are deeply equal: a change is never missed, and none is
    reported where there is none. *)
Theorem no_patch_iff_deep_equal (fuel : nat) (prev next : value) :
  is_json prev = true -> is_json next = true ->
  plain_keys prev = true -> plain_keys next = true ->
  same_shape prev next = true ->
  (depth next < fuel)%nat ->
  diff distinct_objects fuel prev next "" = Return [] <-> deep_equal prev next = true.
Proof.
  intros Hprev Hnext _ _ Hshape Hfuel. split.
  - intros Hnone.
    destruct (diff_roundtrip_same_shape fuel prev next Hprev Hnext Hshape Hfuel)
      as (patches & doc & Hdiff & Happly & Heq).
    rewrite Hnone in Hdiff. injection Hdiff as <-.
    simpl in Happly. by injection Happly as <-.
  - intros Heq. by apply diff_deep_equal.
Qed.

Lemma no_patch_iff_deep_equal_witness :
  diff distinct_objects 3 (Obj [("a", num 1); ("b", Arr [])])
    (Obj [("b", Arr []); ("a", num 1)]) "" = Return []
  <-> deep_equal (Obj [("a", num 1); ("b", Arr [])])
        (Obj [("b", Arr []); ("a", num 1)]) = true.
Proof.
  apply (no_patch_iff_deep_equal 3 (Obj [("a", num 1); ("b", Arr [])])
           (Obj [("b", Arr []); ("a", num 1)]));
    [reflexivity..|vm_compute; lia].
Defined.

(** ** Arrays that grow and flat objects *)

Lemma get_Arr_index l i :
  get (Arr l) (pretty i) = Return (default Undefined (l !! i)).
Proof. simpl. by rewrite array_get_index. Qed.

Lemma get_Obj props k :
  get (Obj props) k = Return (default Undefined (member props k)).
Proof. simpl. by rewrite obj_get_member. Qed.

Lemma for_of_imap {B C : Type} (body : list C -> string -> outcome (list C))
    (F : nat -> B -> C) (l : list B) : forall (n : nat) (acc : list C),
  (forall j y acc', l !! j = Some y ->
     body acc' (pretty (n + j)%nat) = Return (acc' ++ [F (n + j)%nat y])) ->
  for_of body (pretty <$> seq n (length l)) acc
  = Return (acc ++ imap (fun j y => F (n + j)%nat y) l).
Proof.
  induction l as [|y l IH]; intros n acc Hbody; simpl.
  - by rewrite app_nil_r.
  - pose proof (Hbody 0%nat y acc eq_refl) as H0. rewrite Nat.add_0_r in H0.
    rewrite H0. simpl. rewrite IH.
    + rewrite <- app_assoc. simpl. rewrite Nat.add_0_r. do 3 f_equal.
      apply imap_ext. intros j z _. simpl. f_equal. lia.
    + intros j z acc' Hj. replace (S n + j)%nat with (n + S j)%nat by lia.
      by apply Hbody.
Qed.

(** Elements appended to a JSON array give one add for each new element,
    in ascending order of index and with the element as its value, and no
    other patch: the elements already there are not touched, whatever they
    hold. *)
Theorem appended_elements_are_added (same : string -> bool) (fuel : nat)
    (path : string) (l l' : list value) :
  is_json (Arr (l ++ l')) = true ->
  (depth (Arr (l ++ l')) < fuel)%nat ->
  same path = false ->
  diff same fuel (Arr l) (Arr (l ++ l')) path
  = Return (imap (fun j y => mk_add (append path (pretty (length l + j)%nat)) y) l').
Proof.
  intros Hjson Hd Hsame. destruct fuel as [|fuel]; [lia|].
  apply is_json_Arr in Hjson. rewrite Forall_forall in Hjson.
  rewrite diff_unfold. simpl strict_eq. rewrite Hsame.
  change (isScalar (Arr l) || isScalar (Arr (l ++ l'))) with false. cbv iota.
  change (keys (Arr (l ++ l'))) with (Return (index_keys (length (l ++ l')))).
  change (keys (Arr l)) with (Return (index_keys (length l))).
  simpl mbind. unfold index_keys. rewrite length_app, seq_app, fmap_app, for_of_app.
  rewrite for_of_keeps.
  2:{ intros x acc (i & -> & Hi)%list_elem_of_fmap.
      apply elem_of_seq in Hi. destruct (lookup_lt_is_Some_2 l i) as [a Ha]; [lia|].
      assert (a ∈ l ++ l') as Hin.
      { apply elem_of_app. left. by eapply list_elem_of_lookup_2. }
      apply equal_turn with (a:=a) (b:=a).
      - by rewrite get_Arr_index, Ha.
      - by rewrite get_Arr_index, lookup_app_l, Ha by lia.
      - by apply Hjson.
      - apply deep_equal_refl. by apply Hjson.
      - apply diff_deep_equal; [by apply Hjson..| |].
        + apply deep_equal_refl. by apply Hjson.
        + pose proof (depth_elem a _ Hin). simpl in Hd. lia. }
  simpl mbind. rewrite (for_of_imap _ (fun i y => mk_add (append path (pretty i)) y)).
  2:{ intros j y acc Hj. unfold change_turn.
      rewrite !get_Arr_index. rewrite (lookup_ge_None_2 l) by lia.
      rewrite lookup_app_r, Nat.add_comm, Nat.add_sub, Hj by lia. done. }
  simpl mbind. simpl app.
  apply for_of_keeps.
  intros x acc (i & -> & Hi)%list_elem_of_fmap.
  apply elem_of_seq in Hi. destruct (lookup_lt_is_Some_2 l i) as [a Ha]; [lia|].
  apply kept_turn with (b:=a).
  - by rewrite get_Arr_index, lookup_app_l, Ha by lia.
  - apply Hjson, elem_of_app. left. by eapply list_elem_of_lookup_2.
Qed.

Lemma appended_elements_are_added_witness :
  diff distinct_objects 3 (Arr [Obj [("id", num 1)]])
    (Arr ([Obj [("id", num 1)]] ++ [Obj [("id", num 2)]; Null])) "/items"
  = Return [mk_add "/items/1" (Obj [("id", num 2)]); mk_add "/items/2" Null].
Proof.
  apply (appended_elements_are_added distinct_objects 3 "/items"
           [Obj [("id", num 1)]] [Obj [("id", num 2)]; Null]);
    [reflexivity|vm_compute; lia|reflexivity].
Defined.

Lemma flat_spec props :
  flat props = true ->
  NoDup props.*1 /\ forall k v, (k, v) ∈ props -> json_scalar v = true.
Proof.
  unfold flat. rewrite andb_true_iff, bool_decide_eq_true.
  intros [Hnd Hall]. split; [done|]. intros k v Hin.
  apply forallb_Forall_true in Hall. rewrite Forall_forall in Hall.
  by apply (Hall (k, v)) in Hin as [? _]%andb_true_iff.
Qed.

Lemma json_scalar_defined v : json_scalar v = true -> typeof v <> "undefined".
Proof. by destruct v. Qed.

(** The patches for two objects of JSON scalars: first, in the key order
    of the new object, an add for each of its keys the old one lacks and a
    replace for each key whose two values are not strictly equal; then, in
    the key order of the old object, a remove for each of its keys the new
    one lacks. *)
Theorem flat_object_patches (same : string -> bool) (fuel : nat) (path : string)
    (old new : list (string * value)) :
  flat old = true -> flat new = true -> same path = false ->
  diff same (S (S fuel)) (Obj old) (Obj new) path
  = Return (concat (member_change path old <$> new)
            ++ concat (member_removal path new <$> old)).
Proof.
  intros [Hnd1 Hs1]%flat_spec [Hnd2 Hs2]%flat_spec Hsame.
  rewrite diff_unfold. simpl strict_eq. rewrite Hsame.
  change (isScalar (Obj old) || isScalar (Obj new)) with false. cbv iota.
  change (keys (Obj new)) with (Return new.*1).
  change (keys (Obj old)) with (Return old.*1).
  simpl mbind.
  rewrite (for_of_pushes _ fst (member_change path old)).
  2:{ intros [k y] acc Hin. simpl fst.
      pose proof (Hs2 k y Hin) as Hy.
      unfold member_change. simpl fst. simpl snd.
      destruct (member old k) as [x|] eqn:Hx.
      - apply scalar_turn.
        + by rewrite get_Obj, Hx.
        + by rewrite get_Obj, (member_NoDup new k y).
        + apply (Hs1 k). by apply member_elem.
        + done.
      - unfold change_turn.
        rewrite !get_Obj, Hx, (member_NoDup new k y) by done. done. }
  simpl mbind. simpl app.
  apply (for_of_pushes _ fst (member_removal path new)).
  intros [k x] acc Hin. unfold removal_turn, member_removal. simpl fst.
  rewrite get_Obj. case_decide as Hk.
  - apply member_is_Some in Hk as [y Hy]. rewrite Hy. simpl.
    rewrite bool_decide_eq_false_2, app_nil_r; [done|].
    apply json_scalar_defined, (Hs2 k). by apply member_elem.
  - apply member_None in Hk. rewrite Hk. done.
Qed.

Lemma flat_object_patches_witness :
  diff distinct_objects 2
    (Obj [("literal", Str "literal"); ("string", Str "test"); ("number", num 10);
          ("bool", Bool true)])
    (Obj [("literal", Str "literal"); ("string", Str "othertest");
          ("number", num 100); ("extra", Null)]) ""
  = Return [mk_replace "/string" (Str "othertest"); mk_replace "/number" (num 100);
            mk_add "/extra" Null; mk_remove "/bool"].
Proof.
  apply (flat_object_patches distinct_objects 0 ""
           [("literal", Str "literal"); ("string", Str "test"); ("number", num 10);
            ("bool", Bool true)]
           [("literal", Str "literal"); ("string", Str "othertest");
            ("number", num 100); ("extra", Null)]);
    reflexivity.
Defined.

(** ** Arrays that lose more than one element *)

Lemma apply_remove_beyond cur i :
  (length cur <= i)%nat ->
  RFC6902.apply_patch (Arr cur) (mk_remove (append "" (pretty i))) = None.
Proof.
  intros Hi. apply_patch_at_key.
  destruct (RFC6902.array_index (pretty i) (length cur)) as [j|] eqn:Hj; [|done].
  apply array_index_spec in Hj as [Hlt Heq].
  apply (inj pretty) in Heq. lia.
Qed.

Lemma ascending_removes_fail (count : nat) : forall (cur : list value) (i : nat),
  (length cur <= i + 2 * count)%nat ->
  RFC6902.apply_patches (Arr cur) (trailing_removes "" i (S count)) = None.
Proof.
  induction count as [|count IH]; intros cur i Hlen; unfold trailing_removes in *.
  - simpl. rewrite apply_remove_beyond by lia. done.
  - rewrite <- cons_seq. cbn [fmap list_fmap].
    change (RFC6902.apply_patches (Arr cur) (?p :: ?ps))
      with (RFC6902.apply_patch (Arr cur) p ≫= fun d => RFC6902.apply_patches d ps).
    destruct (decide (i < length cur)%nat) as [Hi|Hi].
    + rewrite apply_remove_element by done. simpl.
      apply IH. rewrite length_delete by (by apply lookup_lt_is_Some_2). lia.
    + rewrite apply_remove_beyond by lia. done.
Qed.

(** The patches for an array of JSON scalars that loses two or more
    trailing elements are the removes of the lost indices in ascending
    order, and they do not apply to the array: under RFC 6902 each remove
    shortens the array, and one of the later removes names an index that is
    gone. *)
Theorem truncation_patches_do_not_apply (same : string -> bool) (fuel : nat)
    (l l' : list value) :
  same "" = false ->
  Forall (fun v => json_scalar v = true) (l ++ l') ->
  (2 <= length l')%nat ->
  diff same (S (S fuel)) (Arr (l ++ l')) (Arr l) ""
  = Return (trailing_removes "" (length l) (length l'))
  /\ RFC6902.apply_patches (Arr (l ++ l')) (trailing_removes "" (length l) (length l'))
     = None.
Proof.
  intros Hsame Hall Hlen.
  pose proof Hall as [Hl Hl']%Forall_app.
  split.
  - rewrite (diff_scalar_arrays same "" fuel (l ++ l') l Hsame Hall Hl).
    f_equal. rewrite length_app.
    replace (length l + length l' - length l)%nat with (length l') by lia.
    replace (positional "" 0 (l ++ l') l) with (@nil Patch); [done|].
    clear Hall Hlen Hl'. generalize 0%nat.
    induction Hl as [|x l Hx Hl IH]; intros i; simpl; [done|].
    by rewrite (strict_eq_scalar_refl false x Hx), <- IH.
  - destruct (length l') as [|count] eqn:Hc; [lia|].
    apply ascending_removes_fail. rewrite length_app, Hc. lia.
Qed.

Lemma truncation_patches_do_not_apply_witness :
  diff distinct_objects 2 (Arr ([Str "a"] ++ [Str "b"; Str "c"; Str "d"]))
    (Arr [Str "a"]) ""
  = Return (trailing_removes "" 1 3)
  /\ RFC6902.apply_patches (Arr ([Str "a"] ++ [Str "b"; Str "c"; Str "d"]))
       (trailing_removes "" 1 3) = None.
Proof.
  apply (truncation_patches_do_not_apply distinct_objects 0
           [Str "a"] [Str "b"; Str "c"; Str "d"]).
  - reflexivity.
  - repeat constructor.
  - simpl. lia.
Defined.

(** ** No pointer twice *)

Lemma for_of_prefix_invariant {A B : Type} (Inv : list A -> B -> Prop)
    (body : B -> A -> outcome B) (xs : list A) (acc r : B) :
  Inv [] acc ->
  (forall done x rest acc' r',
      xs = done ++ x :: rest -> Inv done acc' -> body acc' x = Return r' ->
      Inv (done ++ [x]) r') ->
  for_of body xs acc = Return r -> Inv xs r.
Proof.
  intros Hinit Hstep.
  assert (forall rest done acc',
             xs = done ++ rest -> Inv done acc' ->
             for_of body rest acc' = Return r -> Inv xs r) as Hgen.
  { induction rest as [|x rest IH]; intros done acc' Hxs Hinv; simpl.
    - intros [= <-]. by rewrite Hxs, app_nil_r.
    - destruct (body acc' x) as [r'| |] eqn:Hbody; simpl; [|done|done].
      apply (IH (done ++ [x])).
      + by rewrite <- app_assoc.
      + by eapply Hstep. }
  by apply (Hgen xs []).
Qed.

Lemma json_keys_NoDup v ks :
  is_json v = true -> keys v = Return ks -> NoDup ks.
Proof.
  destruct v as [| |b|n|s|l|p]; simpl; try by intros _ [= <-]; try constructor.
  - intros _ [= <-]. unfold index_keys.
    apply (NoDup_fmap_2 _). apply NoDup_seq.
  - intros _ [= <-]. unfold index_keys.
    apply (NoDup_fmap_2 _). apply NoDup_seq.
  - intros [Hnd _]%andb_true_iff [= <-]. by apply bool_decide_eq_true in Hnd.
Qed.

Lemma json_key_read v ks k :
  is_json v = true -> isScalar v = false -> keys v = Return ks -> k ∈ ks ->
  exists x, get v k = Return x /\ is_json x = true.
Proof.
  intros Hj Hs. apply not_scalar_container in Hs as [[l ->]|[p ->]]; simpl.
  - intros [= <-] (i & -> & Hi)%list_elem_of_fmap. apply elem_of_seq in Hi.
    destruct (lookup_lt_is_Some_2 l i) as [x Hx]; [lia|].
    exists x. rewrite array_get_index, Hx. split; [done|].
    apply is_json_Arr in Hj. rewrite Forall_forall in Hj.
    apply Hj. by eapply list_elem_of_lookup_2.
  - intros [= <-] Hk. apply member_is_Some in Hk as [x Hx].
    exists x. rewrite obj_get_member, Hx. split; [done|].
    apply is_json_Obj in Hj as [_ Hall]. rewrite Forall_forall in Hall.
    by apply (Hall (k, x)), member_elem.
Qed.

Lemma headed_more ts allowed x acc :
  headed ts allowed acc -> headed ts (allowed ++ [x]) acc.
Proof.
  intros (kss & Hpaths & Hnd & Hheads). exists kss. split; [done|]. split; [done|].
  eapply Forall_impl; [exact Hheads|]. intros ks (k & ks' & -> & Hk).
  exists k, ks'. split; [done|]. apply elem_of_app. by left.
Qed.

Lemma headed_push ts allowed x acc new kss' :
  headed ts allowed acc -> x ∉ allowed ->
  Forall2 (fun p ks => path p = foldl append "" ((ts ++ [x]) ++ ks)) new kss' ->
  NoDup kss' ->
  headed ts (allowed ++ [x]) (acc ++ new).
Proof.
  intros (kss & Hpaths & Hnd & Hheads) Hx Hnew Hnd'.
  exists (kss ++ ((x ::.) <$> kss')). split; [|split].
  - apply Forall2_app; [done|]. apply Forall2_fmap_r.
    eapply Forall2_impl; [exact Hnew|]. intros p ks ->. by rewrite <- app_assoc.
  - apply NoDup_app. split; [done|]. split.
    + intros ks Hks (ks' & -> & _)%list_elem_of_fmap.
      rewrite Forall_forall in Hheads.
      destruct (Hheads _ Hks) as (k & ks'' & [= <- <-] & Hk). done.
    + by apply (NoDup_fmap_2 _).
  - apply Forall_app. split.
    + eapply Forall_impl; [exact Hheads|]. intros ks (k & ks' & -> & Hk).
      exists k, ks'. split; [done|]. apply elem_of_app. by left.
    + apply Forall_forall. intros ks (ks' & -> & _)%list_elem_of_fmap.
      exists x, ks'. split; [done|]. apply elem_of_app. right. by left.
Qed.

Lemma diff_tokens same fuel : forall prev next ts patches,
  is_json prev = true -> is_json next = true ->
  diff same fuel prev next (foldl append "" ts) = Return patches ->
  exists kss : list (list string),
    Forall2 (fun p ks => path p = foldl append "" (ts ++ ks)) patches kss
    /\ NoDup kss.
Proof.
  induction fuel as [|fuel IH]; intros prev next ts patches Hjp Hjn; [done|].
  rewrite diff_unfold.
  destruct (strict_eq _ prev next).
  { intros [= <-]. exists []. split; constructor. }
  destruct (isScalar prev) eqn:Hsp; simpl.
  { intros [= <-]. exists [[]]. split; [|apply NoDup_singleton].
    repeat constructor. simpl. by rewrite app_nil_r. }
  destruct (isScalar next) eqn:Hsn; simpl.
  { intros [= <-]. exists [[]]. split; [|apply NoDup_singleton].
    repeat constructor. simpl. by rewrite app_nil_r. }
  destruct (keys next) as [nks| |] eqn:Hnks; simpl; [|done|done].
  destruct (for_of _ nks []) as [ps1| |] eqn:H1; simpl; [|done|done].
  destruct (keys prev) as [pks| |] eqn:Hpks; simpl; [|done|done].
  intros H2.
  pose proof (json_keys_NoDup next nks Hjn Hnks) as Hnd_n.
  pose proof (json_keys_NoDup prev pks Hjp Hpks) as Hnd_p.
  assert (headed ts nks ps1) as Hfirst.
  { revert H1. apply (for_of_prefix_invariant (headed ts)).
    { exists []. split; [constructor|]. split; constructor. }
    intros done x rest acc r Hsplit Hacc. unfold change_turn.
    assert (x ∉ done) as Hx.
    { rewrite Hsplit in Hnd_n. apply NoDup_app in Hnd_n as (_ & Hdisj & _).
      intros Hin. apply (Hdisj x Hin). by left. }
    destruct (json_key_read next nks x Hjn Hsn Hnks) as (nv & Hn & Hjnv).
    { rewrite Hsplit. apply elem_of_app. right. by left. }
    destruct (get prev x) as [pv| |] eqn:Hp; simpl; [|done|done].
    rewrite Hn. simpl.
    assert (foldl append "" (ts ++ [x]) = append (foldl append "" ts) x) as Hpath
      by by rewrite foldl_app.
    case_bool_decide as Hu.
    { intros [= <-]. apply (headed_push ts done x acc _ [[]]); [done..| |].
      - repeat constructor. by rewrite app_nil_r.
      - apply NoDup_singleton. }
    destruct (_ && _) eqn:Hboth.
    { rewrite <- Hpath.
      destruct (diff same fuel pv nv _) as [nested| |] eqn:Hnested;
        simpl; [|done|done].
      intros [= <-].
      assert (is_json pv = true) as Hjpv.
      { apply not_scalar_container in Hsp as [[l ->]|[p ->]]; simpl in Hp;
          injection Hp as <-.
        - rewrite andb_true_iff, !bool_decide_eq_true in Hboth.
          destruct Hboth as [_ Hobj].
          destruct (decide (x = "length")) as [->|Hx'].
          { unfold array_get in Hobj. by rewrite decide_True in Hobj. }
          unfold array_get in *. rewrite decide_False in * by done.
          clear -Hjp Hobj. apply is_json_Arr in Hjp. revert Hobj. generalize 0%nat.
          induction Hjp as [|a l Ha _ IHl]; intros i; simpl; [done|].
          case_decide; [by intros _|apply IHl].
        - clear -Hjp Hu. apply is_json_Obj in Hjp as [_ Hall].
          induction Hall as [|[k a] p Ha _ IHp]; simpl in *; [done|].
          case_decide; [done|by apply IHp]. }
      destruct (IH pv nv (ts ++ [x]) nested Hjpv Hjnv Hnested)
        as (kss' & Hpaths & Hnd').
      by apply (headed_push ts done x acc nested kss'). }
    destruct (negb _); intros [= <-]; [|by apply headed_more].
    apply (headed_push ts done x acc _ [[]]); [done..| |].
    - repeat constructor. by rewrite app_nil_r.
    - apply NoDup_singleton. }
  assert (headed ts (nks ++ pks) patches) as (kss & Hpaths & Hnd & _);
    [|by exists kss].
  revert H2.
  apply (for_of_prefix_invariant (fun done acc => headed ts (nks ++ done) acc)).
  { by rewrite app_nil_r. }
  intros done x rest acc r Hsplit Hacc. unfold removal_turn.
  destruct (get next x) as [nv| |] eqn:Hn; simpl; [|done|done].
  rewrite app_assoc.
  case_bool_decide as Hu; intros [= <-]; [|by apply headed_more].
  apply (headed_push ts (nks ++ done) x acc _ [[]]); [done| | |].
  - intros [Hin|Hin]%elem_of_app.
    + destruct (json_key_read next nks x Hjn Hsn Hnks Hin) as (nv' & Hn' & Hjnv).
      rewrite Hn in Hn'. injection Hn' as <-.
      by apply is_json_defined in Hjnv.
    + rewrite Hsplit in Hnd_p. apply NoDup_app in Hnd_p as (_ & Hdisj & _).
      apply (Hdisj x Hin). by left.
  - repeat constructor. rewrite app_nil_r. by rewrite foldl_app.
  - apply NoDup_singleton.
Qed.

(** On JSON documents, no two patches of [diff(prev, next)] have the same
    pointer: every location is added, replaced or removed at most once. *)
Theorem patch_pointers_are_distinct (same : string -> bool) (fuel : nat)
    (prev next : value) (patches : list Patch) :
  is_json prev = true -> is_json next = true ->
  diff same fuel prev next "" = Return patches ->
  NoDup (path <$> patches).
Proof.
  intros Hjp Hjn Hdiff.
  apply (diff_tokens same fuel prev next []) in Hdiff as (kss & Hpaths & Hnd);
    [|done..].
  apply (NoDup_fmap_1 RFC6902.parse_pointer).
  replace (RFC6902.parse_pointer <$> (path <$> patches)) with (Some <$> kss).
  { by apply (NoDup_fmap_2 _). }
  clear Hnd. induction Hpaths as [|p ks ps kss' Hp _ IHp]; csimpl; [done|].
  rewrite Hp, IHp. simpl. by rewrite parse_pointer_foldl.
Qed.

Lemma patch_pointers_are_distinct_witness :
  NoDup (path <$> [mk_replace "/0" (num 2); mk_replace "/1" (num 3); mk_remove "/2"]).
Proof.
  apply (patch_pointers_are_distinct distinct_objects 2
           (Arr [num 1; num 2; num 3]) (Arr [num 2; num 3]));
    reflexivity.
Defined.

(** ** Parts that do not change *)

Lemma foldl_append_inj (ts a b : list string) :
  foldl append "" (ts ++ a) = foldl append "" (ts ++ b) -> a = b.
Proof.
  intros H. apply (f_equal RFC6902.parse_pointer) in H.
  rewrite !parse_pointer_foldl in H. injection H as H. by apply app_inv_head in H.
Qed.

Lemma diff_deep_equal_any_fuel same fuel x y path patches :
  is_json x = true -> is_json y = true -> deep_equal x y = true ->
  diff same fuel x y path = Return patches -> patches = [].
Proof.
  intros Hx Hy Heq Hdiff.
  apply (diff_fuel_mono same fuel (fuel + S (depth y))) in Hdiff; [|lia].
  rewrite (diff_deep_equal same (fuel + S (depth y)) x y path Hx Hy Heq) in Hdiff
    by lia.
  by injection Hdiff as <-.
Qed.

Lemma json_get v k a :
  is_json v = true -> get v k = Return a -> a = Undefined \/ is_json a = true.
Proof.
  destruct v as [| |b|n|s|l|p]; simpl; try done; intros Hj Hget;
    injection Hget as <-; auto.
  - unfold array_get, chars. case_decide; [by right|]. generalize 0%nat.
    induction (String.list_ascii_of_string s) as [|c cs IH]; intros i; csimpl;
      [by left|].
    case_decide; [by right|apply IH].
  - unfold array_get. case_decide; [by right|].
    apply is_json_Arr in Hj. generalize 0%nat.
    induction Hj as [|x l Hx _ IH]; intros i; simpl; [by left|].
    case_decide; [by right|apply IH].
  - apply is_json_Obj in Hj as [_ Hall].
    induction Hall as [|[k' x] p Hx _ IH]; simpl; [by left|].
    case_decide; [by right|apply IH].
Qed.

Lemma read_cons v k ks : read v (k :: ks) = get v k ≫= fun a => read a ks.
Proof. reflexivity. Qed.

Lemma read_Undefined ks x :
  read Undefined ks = Return x -> is_json x = true -> False.
Proof. destruct ks; simpl; [by intros [= <-]|done]. Qed.

Lemma not_both_scalar_equal s pv nv :
  is_json pv = true -> deep_equal pv nv = true ->
  bool_decide (typeof nv = "object") && bool_decide (typeof pv = "object") = false ->
  strict_eq s pv nv = true.
Proof.
  intros Hj Heq Hboth. apply deep_equal_scalar; [done..|].
  rewrite <- (deep_equal_typeof pv nv Heq) in Hboth.
  unfold isScalar. destruct (bool_decide (typeof pv = "object")); done.
Qed.

Lemma diff_local same fuel : forall prev next ts patches ks x y,
  is_json prev = true -> is_json next = true ->
  diff same fuel prev next (foldl append "" ts) = Return patches ->
  read prev ks = Return x -> read next ks = Return y ->
  is_json x = true -> deep_equal x y = true ->
  Forall (fun p => forall ks', path p <> foldl append "" (ts ++ ks ++ ks')) patches.
Proof.
  induction fuel as [|fuel IH]; intros prev next ts patches ks x y Hjp Hjn; [done|].
  destruct ks as [|k ks1].
  { intros Hdiff [= <-] [= <-] Hjx Heq.
    by rewrite (diff_deep_equal_any_fuel _ _ _ _ _ _ Hjp Hjn Heq Hdiff). }
  rewrite diff_unfold. intros Hdiff Hrp Hrn Hjx Heq.
  assert (forall (prop : string) (ks'' ks' : list string),
             prop <> k ->
             foldl append "" ((ts ++ [prop]) ++ ks'')
             <> foldl append "" (ts ++ (k :: ks1) ++ ks')) as Hother.
  { intros prop ks'' ks' Hne H. rewrite <- app_assoc in H.
    apply foldl_append_inj in H. by injection H. }
  destruct (strict_eq _ prev next); [by injection Hdiff as <-|].
  destruct (isScalar prev || isScalar next).
  { injection Hdiff as <-. repeat constructor. simpl. intros ks' H.
    rewrite <- (app_nil_r ts) in H at 1. by apply foldl_append_inj in H. }
  destruct (keys next) as [nks| |]; simpl in Hdiff; [|done|done].
  destruct (for_of _ nks []) as [ps1| |] eqn:H1; simpl in Hdiff; [|done|done].
  destruct (keys prev) as [pks| |]; simpl in Hdiff; [|done|done].
  rewrite read_cons in Hrp, Hrn.
  revert Hdiff. apply for_of_preserves.
  - intros acc prop r Hacc. unfold removal_turn.
    destruct (get next prop) as [nv| |] eqn:Hn; simpl; [|done|done].
    case_bool_decide as Hu; intros [= <-]; [|done].
    apply Forall_app. split; [done|]. repeat constructor. simpl. intros ks'.
    destruct (decide (prop = k)) as [->|Hne].
    + exfalso. rewrite Hn in Hrn. simpl in Hrn.
      apply typeof_undefined in Hu as ->.
      destruct ks1; simpl in Hrn; [|done]. injection Hrn as <-.
      by destruct x.
    + replace (append (foldl append "" ts) prop)
        with (foldl append "" ((ts ++ [prop]) ++ []))
        by by rewrite app_nil_r, foldl_app.
      by apply Hother.
  - revert H1. apply for_of_preserves; [|constructor].
    intros acc prop r Hacc. unfold change_turn.
    destruct (get prev prop) as [pv| |] eqn:Hp; simpl; [|done|done].
    destruct (get next prop) as [nv| |] eqn:Hn; simpl; [|done|done].
    assert (append (foldl append "" ts) prop = foldl append "" ((ts ++ [prop]) ++ []))
      as Hpath by by rewrite app_nil_r, foldl_app.
    destruct (decide (prop = k)) as [->|Hne].
    + rewrite Hp in Hrp. rewrite Hn in Hrn. simpl in Hrp, Hrn.
      case_bool_decide as Hu.
      { exfalso. apply typeof_undefined in Hu as ->. by eapply read_Undefined. }
      destruct (_ && _) eqn:Hboth.
      * replace (append (foldl append "" ts) k) with (foldl append "" (ts ++ [k]))
          by by rewrite foldl_app.
        destruct (diff same fuel pv nv _) as [nested| |] eqn:Hnested;
          simpl; [|done|done].
        intros [= <-]. apply Forall_app. split; [done|].
        destruct (json_get prev k pv Hjp Hp) as [->|Hjpv]; [done|].
        destruct (json_get next k nv Hjn Hn) as [->|Hjnv]; [by simpl in Hboth|].
        pose proof (IH pv nv (ts ++ [k]) nested ks1 x y Hjpv Hjnv Hnested
                      Hrp Hrn Hjx Heq) as Hnest.
        eapply Forall_impl; [exact Hnest|]. intros p Hp' ks'.
        specialize (Hp' ks'). by rewrite <- app_assoc in Hp'.
      * destruct (negb _) eqn:Hneq; intros [= <-]; [|done].
        apply Forall_app. split; [done|]. repeat constructor. simpl. intros ks'.
        rewrite Hpath. intros H. rewrite <- app_assoc in H.
        apply foldl_append_inj in H. injection H as H.
        symmetry in H. apply app_eq_nil in H as [-> ->].
        injection Hrp as <-. injection Hrn as <-.
        apply negb_true_iff in Hneq.
        by rewrite (not_both_scalar_equal _ pv nv Hjx Heq Hboth) in Hneq.
    + case_bool_decide as Hu.
      { intros [= <-]. apply Forall_app. split; [done|]. repeat constructor.
        simpl. intros ks'. rewrite Hpath. by apply Hother. }
      destruct (_ && _).
      * replace (append (foldl append "" ts) prop)
          with (foldl append "" (ts ++ [prop])) by by rewrite foldl_app.
        destruct (diff same fuel pv nv _) as [nested| |] eqn:Hnested;
          simpl; [|done|done].
        intros [= <-]. apply Forall_app. split; [done|].
        apply diff_located in Hnested.
        eapply Forall_impl; [exact Hnested|]. intros p (ks'' & -> & _) ks'.
        by apply Hother.
      * destruct (negb _); intros [= <-]; [|done].
        apply Forall_app. split; [done|]. repeat constructor.
        simpl. intros ks'. rewrite Hpath. by apply Hother.
Qed.

(** The patches of [diff] leave alone what did not change: when the two
    JSON documents hold deeply equal values under the keys [ks], no patch
    has a pointer at or below [ks]. *)
Theorem unchanged_parts_get_no_patch (same : string -> bool) (fuel : nat)
    (prev next : value) (patches : list Patch) (ks : list string) (x y : value) :
  is_json prev = true -> is_json next = true ->
  diff same fuel prev next "" = Return patches ->
  read prev ks = Return x -> read next ks = Return y ->
  is_json x = true -> deep_equal x y = true ->
  Forall (fun p => forall tokens : list string,
            RFC6902.parse_pointer (path p) = Some tokens ->
            ~ ks `prefix_of` tokens) patches.
Proof.
  intros Hjp Hjn Hdiff Hrp Hrn Hjx Heq.
  pose proof (diff_local same fuel prev next [] patches ks x y Hjp Hjn Hdiff
                Hrp Hrn Hjx Heq) as Hlocal.
  pose proof (diff_located same fuel prev next [] patches Hdiff) as Hloc.
  rewrite Forall_forall in Hlocal, Hloc. apply Forall_forall.
  intros p Hin tokens Hparse [ks' ->].
  destruct (Hloc p Hin) as (ksp & Hpath & _). simpl in Hpath.
  rewrite Hpath, parse_pointer_foldl in Hparse. injection Hparse as ->.
  by apply (Hlocal p Hin ks').
Qed.

Lemma unchanged_parts_get_no_patch_witness :
  Forall (fun p => forall tokens : list string,
            RFC6902.parse_pointer (path p) = Some tokens ->
            ~ ["a"; "1"] `prefix_of` tokens)
    [mk_replace "/a/0" (num 5); mk_replace "/b" (Str "y")].
Proof.
  apply (unchanged_parts_get_no_patch distinct_objects 5
           (Obj [("a", Arr [num 1; Obj [("c", Null)]]); ("b", Str "x")])
           (Obj [("a", Arr [num 5; Obj [("c", Null)]]); ("b", Str "y")])
           _ ["a"; "1"] (Obj [("c", Null)]) (Obj [("c", Null)]));
    reflexivity.
Defined.

(** ** Schemas that [compile] rejects *)

Lemma compile_cases {E : Type} (json_of : E -> value) (schema : SchemaInput E) :
  if invalid_schema schema
  then exists e, compile json_of schema = Throw e
  else exists fn, compile json_of schema = Return fn.
Proof.
  destruct schema as [[| |b|n|s|l|p]| | | | | | | |fn]; simpl; eauto.
Qed.

(** [compile] throws exactly on [undefined], on [null] and on an object
    that is neither an array nor a function, and returns a getter for every
    other schema.  So [null] is rejected, although [LITERAL_TYPES] lists it:
    [typeof null] is ["object"]. *)
Theorem compile_rejects {E : Type} (json_of : E -> value) (schema : SchemaInput E) :
  ((exists e, compile json_of schema = Throw e)
   <-> exists v, schema = SValue v
                 /\ (v = Undefined \/ v = Null \/ exists props, v = Obj props))
  /\ ((exists fn, compile json_of schema = Return fn)
      <-> ~ exists e, compile json_of schema = Throw e).
Proof.
  pose proof (compile_cases json_of schema) as H.
  destruct schema as [[| |b|n|s|l|p]| | | | | | | |fn]; simpl in H;
    destruct H as [x Hx]; rewrite Hx; (split; split).
  all: try (intros ?; eauto 10; fail).
  all: try (intros [? ?]; done).
  all: try (intros (v & [= <-] & [?|[?|[? ?]]]); done).
  all: try (intros (v & ? & _); done).
  all: try (intros H; exfalso; apply H; eauto; fail).
  all: try (intros _ [? ?]; done).
Qed.

Lemma compile_not_OutOfFuel {E : Type} (json_of : E -> value) (schema : SchemaInput E) :
  compile json_of schema <> OutOfFuel.
Proof. by destruct schema as [[| |b|n|s|l|p]| | | | | | | |fn]. Qed.

Lemma constructor_loop_returns {E : Type} (json_of : E -> value) entries :
  forall (this : Instance E) (calls : nat),
    (exists this' calls',
        constructor_loop json_of entries this calls = (Return this', calls'))
    <-> Forall (fun entry => exists fn, compile json_of entry.2 = Return fn) entries.
Proof.
  induction entries as [|[key input] entries IH]; intros this calls; simpl.
  - split; [constructor|eauto].
  - rewrite Forall_cons. simpl.
    destruct (compile json_of input) as [fn|e|] eqn:Hc.
    + rewrite IH. split; [eauto|by intros [_ ?]].
    + split; [by intros (? & ? & ?)|by intros [[? ?] _]].
    + split; [by intros (? & ? & ?)|by intros [[? ?] _]].
Qed.

Lemma constructor_loop_throws {E : Type} (json_of : E -> value) entries :
  forall (this : Instance E) (calls : nat),
    (exists e calls',
        constructor_loop json_of entries this calls = (Throw e, calls'))
    <-> Exists (fun entry => exists e, compile json_of entry.2 = Throw e) entries.
Proof.
  induction entries as [|[key input] entries IH]; intros this calls; simpl.
  - split; [by intros (? & ? & ?)|by intros ?%Exists_nil].
  - rewrite Exists_cons. simpl.
    destruct (compile json_of input) as [fn|e|] eqn:Hc.
    + rewrite IH. split; [eauto|]. by intros [[? ?]|?].
    + split; eauto.
    + by apply compile_not_OutOfFuel in Hc.
Qed.

Lemma compile_all_returns {E : Type} (json_of : E -> value) schemata :
  (exists fns, compile_all json_of schemata = Return fns)
  <-> Forall (fun schema => exists fn, compile json_of schema = Return fn) schemata.
Proof.
  induction schemata as [|schema schemata IH]; simpl.
  - split; [constructor|eauto].
  - rewrite Forall_cons, <- IH.
    destruct (compile json_of schema) as [fn|e|]; simpl.
    + destruct (compile_all json_of schemata) as [fns|e|]; simpl.
      * split; eauto.
      * split; [by intros [? ?]|by intros [_ [? ?]]].
      * split; [by intros [? ?]|by intros [_ [? ?]]].
    + split; [by intros [? ?]|by intros [[? ?] _]].
    + split; [by intros [? ?]|by intros [[? ?] _]].
Qed.

(** A schema that [compile] rejects is rejected early: the constructor
    returns an instance exactly when every entry of the schema compiles, and
    throws exactly when one does not; and [Enum] returns a getter exactly
    when every alternative compiles.  The errors of [compile] come up when
    the element is constructed or [Enum] is called, not when the JSON is
    read. *)
Theorem invalid_schema_is_rejected_early {E : Type} (json_of : E -> value) :
  (forall (static_schema : list (string * SchemaInput E)) (calls : nat),
      ((exists this calls',
           constructor json_of static_schema calls = (Return this, calls'))
       <-> Forall (fun entry => exists fn, compile json_of entry.2 = Return fn)
             static_schema)
      /\ ((exists e calls',
              constructor json_of static_schema calls = (Throw e, calls'))
          <-> Exists (fun entry => exists e, compile json_of entry.2 = Throw e)
                static_schema))
  /\ (forall schemata : list (SchemaInput E),
        (exists g, Enum json_of schemata = Return g)
        <-> Forall (fun schema => exists fn, compile json_of schema = Return fn)
              schemata).
Proof.
  split.
  - intros static_schema calls. split.
    + apply constructor_loop_returns.
    + apply constructor_loop_throws.
  - intros schemata. rewrite <- compile_all_returns. unfold Enum.
    destruct (compile_all json_of schemata) as [fns|e|]; simpl.
    + split; eauto.
    + split; by intros [? ?].
    + split; by intros [? ?].
Qed.

(** ** What construction leaves in the instance *)

Lemma constructor_loop_slots {E : Type} (json_of : E -> value) entries :
  forall (this this' : Instance E) (calls calls' : nat),
    constructor_loop json_of entries this calls = (Return this', calls') ->
    slots this'
    = slots this ++ (filter (fun entry => isCompositeSchema entry.2 = true) entries).*1
    /\ prev this' = prev this /\ queued this' = queued this.
Proof.
  induction entries as [|[key input] entries IH]; intros this this' calls calls'; simpl.
  - intros [= <- _]. by rewrite app_nil_r.
  - destruct (compile json_of input) as [fn| |]; [|done|done].
    intros (-> & -> & ->)%IH. simpl. split; [|done].
    rewrite filter_cons. simpl. case_decide as Hc.
    + rewrite Hc. by rewrite <- app_assoc.
    + apply not_true_is_false in Hc. by rewrite Hc.
Qed.

Lemma compile_composite {E : Type} (json_of : E -> value) (input : SchemaInput E) fn :
  compile json_of input = Return fn ->
  isCompositeSchema (SFunction fn) = isCompositeSchema input.
Proof.
  destruct input as [[| |b|n|s|l|p]| | | | | | | |f]; simpl; try done;
    by intros [= <-].
Qed.

Lemma constructed {E : Type} (json_of : E -> value)
    (static_schema : list (string * SchemaInput E)) calls this calls' :
  constructor json_of static_schema calls = (Return this, calls') ->
  own_keys static_schema.*1 ->
  (schema this).*1 = static_schema.*1
  /\ (forall k input, (k, input) ∈ static_schema ->
        exists fn, compile json_of input = Return fn /\ (k, fn) ∈ schema this)
  /\ (forall k fn, (k, fn) ∈ schema this ->
        exists input, (k, input) ∈ static_schema /\ compile json_of input = Return fn)
  /\ slots this
     = (filter (fun entry => isCompositeSchema entry.2 = true) static_schema).*1.
Proof.
  intros Hc Hown. unfold constructor in Hc.
  pose proof (constructor_loop_slots _ _ _ _ _ _ Hc) as (Hslots & _).
  apply constructor_loop_schema in Hc as (compiled & Hs & Hall); [|done].
  simpl in Hs, Hslots. rewrite Hs. split; [|split; [|split]]; [| | |done].
  - clear Hs Hown Hslots.
    induction Hall as [|[k i] [k' f] ? ? [Hk _] _ IH]; csimpl; [done|].
    simpl in Hk. by rewrite Hk, IH.
  - intros k input Hin. clear Hs Hown Hslots.
    induction Hall as [|[k1 i] [k' f] ? ? [Hk Hf] _ IH]; [by apply elem_of_nil in Hin|].
    simpl in Hk, Hf. subst k'.
    apply elem_of_cons in Hin as [[= -> ->]|Hin].
    + exists f. split; [done|]. by left.
    + destruct (IH Hin) as (fn & ? & ?). exists fn. split; [done|]. by right.
  - intros k fn Hin. clear Hs Hown Hslots.
    induction Hall as [|[k1 i] [k' f] ? ? [Hk Hf] _ IH]; [by apply elem_of_nil in Hin|].
    simpl in Hk, Hf. subst k'.
    apply elem_of_cons in Hin as [[= -> ->]|Hin].
    + exists i. split; [by left|done].
    + destruct (IH Hin) as (input & ? & ?). exists input. split; [by right|done].
Qed.

Lemma own_keys_constructed {E : Type} (json_of : E -> value)
    (static_schema : list (string * SchemaInput E)) calls this calls' :
  constructor json_of static_schema calls = (Return this, calls') ->
  own_keys static_schema.*1 -> own_keys (schema this).*1.
Proof.
  intros Hc Hown. by rewrite (proj1 (constructed _ _ _ _ _ Hc Hown)).
Qed.

(** The slots the constructor creates are the slots the JSON getter asks
    for.  [compile] keeps the answer of [isCompositeSchema]: the getter it
    returns is composite exactly when the schema it was given is; the getter
    of an [Enum] is always composite; and after construction the shadow root
    has one slot for each composite entry of the schema, in order, so that a
    getter of the instance is given slotted elements exactly when a slot of
    its key exists. *)
Theorem slots_match_getters {E : Type} (json_of : E -> value) :
  (forall (input : SchemaInput E) (fn : ValueGetter E),
      compile json_of input = Return fn ->
      isCompositeSchema (SFunction fn) = isCompositeSchema input)
  /\ (forall (schemata : list (SchemaInput E)) (g : ValueGetter E),
        Enum json_of schemata = Return g -> isCompositeSchema (SFunction g) = true)
  /\ (forall (static_schema : list (string * SchemaInput E)) (calls calls' : nat)
             (this : Instance E),
        constructor json_of static_schema calls = (Return this, calls') ->
        well_keyed static_schema ->
        slots this
        = (filter (fun entry => isCompositeSchema entry.2 = true) static_schema).*1
        /\ forall (k : string) (fn : ValueGetter E),
             (k, fn) ∈ schema this ->
             (isCompositeSchema (SFunction fn) = true <-> k ∈ slots this)).
Proof.
  split; [apply compile_composite|split].
  - intros schemata g. unfold Enum.
    destruct (compile_all json_of schemata); simpl; [|done|done].
    by intros [= <-].
  - intros static_schema calls calls' this Hc [Hown _].
    destruct (constructed _ _ _ _ _ Hc Hown) as (Hkeys & _ & Hinput & Hslots).
    split; [done|]. intros k fn Hin.
    destruct (Hinput k fn Hin) as (input & Hi & Hcomp).
    rewrite (compile_composite _ _ _ Hcomp), Hslots. split.
    + intros Hci. apply list_elem_of_fmap. exists (k, input). split; [done|].
      by apply list_elem_of_filter.
    + intros ([k' input'] & -> & [Hci Hin']%list_elem_of_filter)%list_elem_of_fmap.
      simpl in *.
      assert (input' = input) as <-; [|done].
      destruct Hown as [Hnd _].
      pose proof (member_NoDup _ _ _ Hnd Hi). pose proof (member_NoDup _ _ _ Hnd Hin').
      congruence.
Qed.

Lemma slots_match_getters_witness :
  slots (mkInstance false Null
           [("name", Getters.string); ("geometry", Getters.object (fun _ : unit => Null));
            ("items", Getters.array (fun _ : unit => Null))]
           ["geometry"; "items"])
  = ["geometry"; "items"].
Proof.
  refine (proj1 (proj2 (proj2 (slots_match_getters (fun _ : unit => Null)))
            [("name", SString); ("geometry", SElement); ("items", SArray)] 0%nat 3%nat
            _ eq_refl _)).
  split; [split; [|reflexivity]|split; [|reflexivity]];
    apply (bool_decide_unpack _); by vm_compute.
Defined.

(** ** The keys of the JSON, schema by schema *)

Lemma member_assembled {E : Type} (this : Instance E) (dom : Dom E) k fn :
  NoDup (schema this).*1 -> (k, fn) ∈ schema this ->
  member (assembled this dom) k
  = if strict_eq false (getter_result this dom k fn) Undefined then None
    else Some (getter_result this dom k fn).
Proof.
  unfold assembled. induction (schema this) as [|[k' f] entries IH]; csimpl.
  { by intros _ ?%elem_of_nil. }
  intros [Hk Hnd]%NoDup_cons [[= -> ->]|Hin]%elem_of_cons.
  - destruct (strict_eq false (getter_result this dom k' f) Undefined) eqn:Hr; simpl.
    + apply member_None. intros Hin.
      apply Hk. revert Hin. apply omap_keys_subset.
      intros [k1 f1] kv'. simpl. by destruct (negb _); intros [= <-].
    + by rewrite decide_True.
  - assert (k' <> k) as Hne.
    { intros ->. apply Hk. apply list_elem_of_fmap. by exists (k, fn). }
    destruct (negb (strict_eq false (getter_result this dom k' f) Undefined));
      simpl; [rewrite decide_False by done|]; by apply IH.
Qed.

(** Reading the key [k] of the JSON gives what the getter of [k] returned,
    and the key is listed exactly when that is not [undefined]. *)
Lemma json_field {E : Type} (this : Instance E) (dom : Dom E) k fn :
  own_keys (schema this).*1 -> (k, fn) ∈ schema this ->
  get (json this dom) k = Return (getter_result this dom k fn)
  /\ ((exists ks, Object_keys (json this dom) = Return ks /\ k ∈ ks)
      <-> getter_result this dom k fn <> Undefined).
Proof.
  intros Hown Hin.
  assert (json this dom = Obj (assembled this dom)) as ->.
  { rewrite json_unfold. f_equal. by apply foldl_json_turn. }
  destruct Hown as [Hnd _].
  pose proof (member_assembled this dom k fn Hnd Hin) as Hm.
  split.
  - simpl. rewrite obj_get_member, Hm.
    destruct (getter_result this dom k fn); done.
  - rewrite <- (not_strict_eq_Undefined false). simpl.
    destruct (strict_eq false _ Undefined).
    + apply member_None in Hm. split; [|done]. by intros (ks & [= <-] & ?).
    + split; [done|]. intros _. eexists. split; [done|]. by eapply member_keys.
Qed.

Lemma hasAttribute_getAttribute {E : Type} (dom : Dom E) k :
  bool_decide (getAttribute dom k <> None) = hasAttribute dom k.
Proof.
  unfold hasAttribute, getAttribute. apply bool_decide_ext.
  by rewrite is_Some_alt; destruct (member _ _).
Qed.

(** In an element whose schema is well keyed, a key whose schema is
    [Boolean] or a literal is in the JSON of every DOM state: a [Boolean]
    key holds whether the element has the attribute (also when the attribute
    is empty), and a literal key holds the literal. *)
Theorem boolean_and_literal_keys {E : Type} (json_of : E -> value)
    (static_schema : list (string * SchemaInput E)) (calls calls' : nat)
    (this : Instance E) (dom : Dom E) (k : string) :
  constructor json_of static_schema calls = (Return this, calls') ->
  well_keyed static_schema ->
  ((k, SBoolean) ∈ static_schema ->
     get (json this dom) k = Return (Bool (hasAttribute dom k)))
  /\ (forall v : value,
        (k, SValue v) ∈ static_schema -> isLiteralSchema (SValue (E:=E) v) = true ->
        get (json this dom) k = Return v)
  /\ (forall input : SchemaInput E,
        (k, input) ∈ static_schema ->
        input = SBoolean \/ isLiteralSchema input = true ->
        exists ks, Object_keys (json this dom) = Return ks /\ k ∈ ks).
Proof.
  intros Hc [Hown _].
  pose proof (own_keys_constructed _ _ _ _ _ Hc Hown) as Hown'.
  destruct (constructed _ _ _ _ _ Hc Hown) as (_ & Hfn & _ & _).
  split; [|split].
  - intros (fn & Hcomp & Hin)%Hfn. injection Hcomp as <-.
    rewrite (proj1 (json_field this dom k _ Hown' Hin)).
    unfold getter_result. simpl. by rewrite hasAttribute_getAttribute.
  - intros v (fn & Hcomp & Hin)%Hfn Hlit. unfold compile in Hcomp.
    rewrite Hlit in Hcomp. injection Hcomp as <-.
    by rewrite (proj1 (json_field this dom k _ Hown' Hin)).
  - intros input (fn & Hcomp & Hin)%Hfn Hcase.
    apply (json_field this dom k fn Hown' Hin).
    destruct Hcase as [->|Hlit].
    + by injection Hcomp as <-.
    + unfold compile in Hcomp. rewrite Hlit in Hcomp. injection Hcomp as <-.
      unfold getter_result. simpl.
      destruct input as [[| |b|n|s|l|p]| | | | | | | |f]; done.
Qed.

Lemma boolean_and_literal_keys_witness :
  get (json (mkInstance (E:=unit) false Null
               [("literal", literal (Str "literal")); ("bool", Getters.boolean)] [])
         (mkDom [("bool", "")] (fun _ => []))) "bool"
  = Return (Bool true).
Proof.
  refine (proj1 (boolean_and_literal_keys (fun _ : unit => Null)
            [("literal", SValue (Str "literal")); ("bool", SBoolean)] 0%nat 2%nat
            _ (mkDom [("bool", "")] (fun _ => [])) "bool" eq_refl _) _).
  - split; [split; [|reflexivity]|split; [|reflexivity]];
      apply (bool_decide_unpack _); by vm_compute.
  - right; left.
Defined.

(** In an element whose schema is well keyed, a key whose schema is
    [String] is in the JSON exactly when the element has the attribute with
    a text that is not empty, and then holds that text unchanged; a key
    whose schema is [Number] is in the JSON exactly when the element has the
    attribute with a text that [Number] does not turn into [NaN], and then
    holds that number. *)
Theorem string_and_number_keys {E : Type} (json_of : E -> value)
    (static_schema : list (string * SchemaInput E)) (calls calls' : nat)
    (this : Instance E) (dom : Dom E) (k : string) :
  constructor json_of static_schema calls = (Return this, calls') ->
  well_keyed static_schema ->
  ((k, SString) ∈ static_schema ->
     ((exists ks, Object_keys (json this dom) = Return ks /\ k ∈ ks)
      <-> exists s, getAttribute dom k = Some s /\ s <> "")
     /\ (forall s, getAttribute dom k = Some s -> s <> "" ->
           get (json this dom) k = Return (Str s)))
  /\ ((k, SNumber) ∈ static_schema ->
        ((exists ks, Object_keys (json this dom) = Return ks /\ k ∈ ks)
         <-> exists s, getAttribute dom k = Some s /\ Number s <> NaN)
        /\ (forall s, getAttribute dom k = Some s -> Number s <> NaN ->
              get (json this dom) k = Return (Num (Number s)))).
Proof.
  intros Hc [Hown _].
  pose proof (own_keys_constructed _ _ _ _ _ Hc Hown) as Hown'.
  destruct (constructed _ _ _ _ _ Hc Hown) as (_ & Hfn & _ & _).
  split.
  - intros (fn & Hcomp & Hin)%Hfn. injection Hcomp as <-.
    rewrite (proj2 (json_field this dom k _ Hown' Hin)).
    rewrite (proj1 (json_field this dom k _ Hown' Hin)).
    unfold getter_result. simpl. destruct (getAttribute dom k) as [s|]; split.
    + case_decide as Hs.
      * split; [done|]. by intros (t & [= <-] & Ht).
      * split; [eauto|done].
    + intros t [= <-] Ht. by rewrite decide_False.
    + split; [done|]. by intros (s & ? & _).
    + done.
  - intros (fn & Hcomp & Hin)%Hfn. injection Hcomp as <-.
    rewrite (proj2 (json_field this dom k _ Hown' Hin)).
    rewrite (proj1 (json_field this dom k _ Hown' Hin)).
    unfold getter_result. simpl. destruct (getAttribute dom k) as [s|]; split.
    + destruct (Number s) eqn:Hn; simpl.
      * split; [done|]. intros (t & [= <-] & Ht). congruence.
      * split; [|done]. intros _. exists s. split; [done|]. congruence.
      * split; [|done]. intros _. exists s. split; [done|]. congruence.
    + intros t [= <-] Ht. by destruct (Number s).
    + split; [done|]. by intros (s & ? & _).
    + done.
Qed.

Lemma string_and_number_keys_witness :
  get (json (mkInstance (E:=unit) false Null
               [("string", Getters.string); ("number", Getters.number)] [])
         (mkDom [("string", "test"); ("number", "10")] (fun _ => []))) "string"
  = Return (Str "test").
Proof.
  refine (proj2 (proj1 (string_and_number_keys (fun _ : unit => Null)
            [("string", SString); ("number", SNumber)] 0%nat 2%nat
            _ (mkDom [("string", "test"); ("number", "10")] (fun _ => [])) "string"
            eq_refl _) _) "test" eq_refl _).
  - split; [split; [|reflexivity]|split; [|reflexivity]];
      apply (bool_decide_unpack _); by vm_compute.
  - left.
  - discriminate.
Defined.

Lemma identifier_nonempty k : identifier k = true -> k <> "".
Proof. by destruct k. Qed.

Lemma slotted_created {E : Type} (json_of : E -> value)
    (static_schema : list (string * SchemaInput E)) calls this calls' dom k input :
  constructor json_of static_schema calls = (Return this, calls') ->
  own_keys static_schema.*1 ->
  (k, input) ∈ static_schema -> isCompositeSchema input = true ->
  k <> "" ->
  slotted this dom k = json_elements (assigned dom k).
Proof.
  intros Hc Hown Hin Hcomp Hk.
  destruct (constructed _ _ _ _ _ Hc Hown) as (_ & _ & _ & Hslots).
  unfold slotted. rewrite decide_False by done.
  rewrite decide_True; [done|].
  rewrite Hslots. apply list_elem_of_fmap. exists (k, input). split; [done|].
  by apply list_elem_of_filter.
Qed.

(** In an element whose schema is well keyed, a key whose schema is
    [Object] or an element class holds the JSON of the first instance of
    [JSONElement] assigned to the slot of its name, elements of other kinds
    being passed over, and is left out when there is none; a key whose
    schema is [Array] or an array holds the JSON of all these instances, in
    the order of assignment, and is in the JSON of every DOM state, as the
    empty array when there is none. *)
Theorem slot_keys {E : Type} (json_of : E -> value)
    (static_schema : list (string * SchemaInput E)) (calls calls' : nat)
    (this : Instance E) (dom : Dom E) (k : string) (input : SchemaInput E) :
  constructor json_of static_schema calls = (Return this, calls') ->
  well_keyed static_schema ->
  (k, input) ∈ static_schema ->
  (isObjectSchema input = true ->
     get (json this dom) k
     = Return (from_option json_of Undefined (head (json_elements (assigned dom k)))))
  /\ (isArraySchema input = true ->
        get (json this dom) k
        = Return (Arr (json_of <$> json_elements (assigned dom k)))
        /\ exists ks, Object_keys (json this dom) = Return ks /\ k ∈ ks).
Proof.
  intros Hc (Hown & _ & Hids) Hin.
  assert (isCompositeSchema input = true -> k <> "") as Hid.
  { intros Hci. apply forallb_Forall_true in Hids. rewrite Forall_forall in Hids.
    specialize (Hids _ Hin). simpl in Hids. rewrite Hci in Hids.
    by apply identifier_nonempty. }
  pose proof (own_keys_constructed _ _ _ _ _ Hc Hown) as Hown'.
  destruct (constructed _ _ _ _ _ Hc Hown) as (_ & Hfn & _ & _).
  destruct (Hfn k input Hin) as (fn & Hcomp & Hinfn).
  pose proof (compile_composite _ _ _ Hcomp) as Hcc.
  pose proof (slotted_created json_of static_schema calls this calls' dom k input
                Hc Hown Hin) as Hslotted.
  destruct (json_field this dom k fn Hown' Hinfn) as (Hget & Hlisted).
  split.
  - intros Hobj.
    assert (isCompositeSchema input = true) as Hci.
    { unfold isCompositeSchema. by rewrite Hobj. }
    rewrite Hget. unfold getter_result. rewrite Hcc, Hci, Hslotted by auto.
    destruct input as [[| |b|n|s|l|p]| | | | | | | |f]; try done;
      injection Hcomp as <-; simpl; by destruct (json_elements _).
  - intros Harr.
    assert (isCompositeSchema input = true) as Hci.
    { unfold isCompositeSchema. rewrite Harr. by rewrite orb_true_r. }
    assert (getter_result this dom k fn
            = Arr (json_of <$> json_elements (assigned dom k))) as Hr.
    { unfold getter_result. rewrite Hcc, Hci, Hslotted by auto.
      destruct input as [[| |b|n|s|l|p]| | | | | | | |f]; try done;
        by injection Hcomp as <-. }
    split; [by rewrite Hget, Hr|].
    apply Hlisted. by rewrite Hr.
Qed.

Lemma slot_keys_witness :
  get (json (mkInstance false Null
               [("object", Getters.object (fun n : nat => num (Z.of_nat n)))]
               ["object"])
         (mkDom [] (fun _ => [OtherElement; IsJSONElement 7%nat; IsJSONElement 8%nat])))
      "object"
  = Return (num 7).
Proof.
  refine (proj1 (slot_keys (fun n : nat => num (Z.of_nat n))
            [("object", SObject)] 0%nat 1%nat _
            (mkDom [] (fun _ => [OtherElement; IsJSONElement 7%nat; IsJSONElement 8%nat]))
            "object" SObject eq_refl _ _) eq_refl).
  - split; [split; [|reflexivity]|split; [|reflexivity]];
      apply (bool_decide_unpack _); by vm_compute.
  - left.
Defined.

(** ** Composition of [Enum] *)

Lemma compile_all_app {E : Type} (json_of : E -> value) (xs ys : list (SchemaInput E)) :
  compile_all json_of (xs ++ ys)
  = fs ← compile_all json_of xs; gs ← compile_all json_of ys; Return (fs ++ gs).
Proof.
  induction xs as [|x xs IH]; simpl.
  - by destruct (compile_all json_of ys).
  - destruct (compile json_of x); simpl; [|done|done].
    rewrite IH. destruct (compile_all json_of xs); simpl; [|done|done].
    by destruct (compile_all json_of ys).
Qed.

Lemma first_defined_app {E : Type} (fs gs : list (ValueGetter E)) attr els :
  first_defined (fs ++ gs) attr els
  = if negb (strict_eq false (first_defined fs attr els) Undefined)
    then first_defined fs attr els
    else first_defined gs attr els.
Proof.
  induction fs as [|f fs IH]; simpl; [done|].
  destruct (negb (strict_eq false (call f attr els) Undefined)) eqn:Hf; [|done].
  by rewrite Hf.
Qed.

Lemma first_defined_single {E : Type} (f : ValueGetter E) attr els :
  first_defined [f] attr els = call f attr els.
Proof.
  simpl. destruct (strict_eq false (call f attr els) Undefined) eqn:Hf; simpl; [|done].
  symmetry. by apply (strict_eq_Undefined false).
Qed.

Lemma Enum_inv {E : Type} (json_of : E -> value) schemata g :
  Enum json_of schemata = Return g ->
  exists fns, compile_all json_of schemata = Return fns
              /\ g = mkGetter 2 (first_defined fns).
Proof.
  unfold Enum. destruct (compile_all json_of schemata) as [fns| |]; simpl; [|done|done].
  intros [= <-]. eauto.
Qed.

(** [Enum] of one schema answers as the getter of that schema, and an
    [Enum] used as an alternative of another [Enum] can be flattened:
    [Enum(...pre, Enum(...inner), ...post)] answers as
    [Enum(...pre, ...inner, ...post)] for every attribute and every list of
    slotted elements. *)
Theorem Enum_flattens {E : Type} (json_of : E -> value) :
  (forall (schema : SchemaInput E) (fn : ValueGetter E),
      compile json_of schema = Return fn ->
      exists g, Enum json_of [schema] = Return g
                /\ forall attr els, call g attr els = call fn attr els)
  /\ (forall (pre inner post : list (SchemaInput E)) (gi g : ValueGetter E),
        Enum json_of inner = Return gi ->
        Enum json_of (pre ++ inner ++ post) = Return g ->
        exists g', Enum json_of (pre ++ SFunction gi :: post) = Return g'
                   /\ forall attr els, call g' attr els = call g attr els).
Proof.
  split.
  - intros schema fn Hc. unfold Enum. simpl. rewrite Hc. simpl.
    eexists. split; [done|]. intros attr els. apply first_defined_single.
  - intros pre inner post gi g (fi & Hi & ->)%Enum_inv (fs & Hall & ->)%Enum_inv.
    rewrite !compile_all_app, Hi in Hall. unfold Enum.
    rewrite compile_all_app. simpl.
    destruct (compile_all json_of pre) as [fpre| |]; simpl in *; [|done|done].
    destruct (compile_all json_of post) as [fpost| |]; simpl in *; [|done|done].
    injection Hall as <-.
    eexists. split; [done|]. intros attr els. simpl.
    rewrite !first_defined_app. simpl.
    by destruct (negb (strict_eq false (first_defined fpre attr els) Undefined)).
Qed.

Lemma Enum_flattens_witness :
  exists g' : ValueGetter unit,
    Enum (fun _ => Null)
      [SNumber; SFunction (mkGetter 2 (first_defined
                             [Getters.string; Getters.object (fun _ : unit => Null)]))]
    = Return g'
    /\ forall attr els,
         call g' attr els
         = first_defined [Getters.number; Getters.string;
                          Getters.object (fun _ : unit => Null)] attr els.
Proof.
  exact (proj2 (Enum_flattens (fun _ : unit => Null)) [SNumber] [SString; SObject] []
           _ _ eq_refl eq_refl).
Defined.

Lemma always_defined_call {E : Type} (json_of : E -> value) (schema : SchemaInput E) fn :
  always_defined schema = true -> compile json_of schema = Return fn ->
  forall attr els, strict_eq false (call fn attr els) Undefined = false.
Proof.
  destruct schema as [[| |b|n|s|l|p]| | | | | | | |f]; try done;
    by intros _ [= <-].
Qed.

(** The alternatives of an [Enum] listed after [Boolean], after an array
    schema or after a literal are never consulted: the getters of these
    schemas always return a value, so the [Enum] answers as if it ended
    there. *)
Theorem Enum_dead_alternatives {E : Type} (json_of : E -> value)
    (pre post : list (SchemaInput E)) (schema : SchemaInput E) (g : ValueGetter E) :
  always_defined schema = true ->
  Enum json_of (pre ++ schema :: post) = Return g ->
  exists g', Enum json_of (pre ++ [schema]) = Return g'
             /\ forall attr els, call g attr els = call g' attr els.
Proof.
  intros Hd (fs & Hall & ->)%Enum_inv.
  rewrite compile_all_app in Hall. unfold Enum. rewrite compile_all_app.
  destruct (compile_all json_of pre) as [fpre| |]; simpl in *; [|done|done].
  destruct (compile json_of schema) as [fn| |] eqn:Hc; simpl in *; [|done|done].
  destruct (compile_all json_of post) as [fpost| |]; simpl in *; [|done|done].
  injection Hall as <-.
  eexists. split; [done|]. intros attr els. simpl.
  rewrite !first_defined_app. simpl.
  by rewrite (always_defined_call json_of schema fn Hd Hc attr els).
Qed.

Lemma Enum_dead_alternatives_witness :
  exists g' : ValueGetter unit,
    Enum (fun _ => Null) ([SNumber] ++ [SBoolean]) = Return g'
    /\ forall attr els,
         first_defined [Getters.number; Getters.boolean; Getters.string] attr els
         = call g' attr els.
Proof.
  exact (Enum_dead_alternatives (fun _ : unit => Null) [SNumber] [SString] SBoolean
           _ eq_refl eq_refl).
Defined.

(** ** The JSON of an element is a JSON document *)

Lemma Forall_forallb_true {A : Type} (f : A -> bool) (l : list A) :
  Forall (fun x => f x = true) l -> forallb f l = true.
Proof. induction 1 as [|x l Hx _ IH]; simpl; [done|]. by rewrite Hx, IH. Qed.

Lemma is_json_Obj_intro (p : list (string * value)) :
  NoDup p.*1 -> Forall (fun kv => is_json kv.2 = true) p -> is_json (Obj p) = true.
Proof.
  intros Hnd Hall. simpl. apply andb_true_iff. split.
  - by apply bool_decide_eq_true.
  - by apply Forall_forallb_true.
Qed.

(** The JSON of an element is a JSON document, with every key once and
    neither [undefined] nor [NaN] nor an infinity in it, when the schema is
    well keyed, with its keys in lower case, and uses the built-in getters
    and JSON literals only, the slotted elements report JSON documents, and
    the attributes of the [Number] keys are ASCII texts that spell numbers
    of the finite range. *)
Theorem json_is_a_json_document {E : Type} (json_of : E -> value)
    (static_schema : list (string * SchemaInput E)) (calls calls' : nat)
    (this : Instance E) (dom : Dom E) :
  constructor json_of static_schema calls = (Return this, calls') ->
  well_keyed static_schema ->
  lower_case_keys static_schema ->
  Forall (fun entry => builtin_schema entry.2 = true) static_schema ->
  (forall el : E, is_json (json_of el) = true) ->
  finite_numbers static_schema dom ->
  is_json (json this dom) = true.
Proof.
  intros Hc [Hown _] _ Hbuiltin Hchildren Hfinite.
  pose proof (own_keys_constructed _ _ _ _ _ Hc Hown) as Hown'.
  destruct (constructed _ _ _ _ _ Hc Hown) as (_ & _ & Hinput & _).
  assert (json this dom = Obj (assembled this dom)) as ->.
  { rewrite json_unfold. f_equal. by apply foldl_json_turn. }
  apply is_json_Obj_intro.
  - destruct Hown' as [Hnd _]. eapply sublist_NoDup; [exact Hnd|].
    unfold assembled. clear.
    induction (schema this) as [|[k f] entries IH]; csimpl; [constructor|].
    destruct (negb (strict_eq false (getter_result this dom k f) Undefined)); csimpl.
    + by apply sublist_skip.
    + by apply sublist_cons.
  - apply Forall_forall. intros [k v] Hin. simpl.
    unfold assembled in Hin. apply list_elem_of_omap in Hin as ([k' fn] & Hin & Hkv).
    simpl in Hkv.
    destruct (strict_eq false (getter_result this dom k' fn) Undefined) eqn:Hdef;
      simpl in Hkv; [done|]. injection Hkv as <- <-.
    apply (not_strict_eq_Undefined false) in Hdef.
    destruct (Hinput k' fn Hin) as (input & Hi & Hcomp).
    rewrite Forall_forall in Hbuiltin. pose proof (Hbuiltin _ Hi) as Hb. simpl in Hb.
    unfold getter_result in *.
    destruct input as [[| |b|n|s|l|p]| | | | | | | |f]; try done;
      injection Hcomp as <-; simpl in *; try done.
    + apply Forall_forallb_true, Forall_fmap, Forall_forall.
      intros el _. apply Hchildren.
    + apply Forall_forallb_true, Forall_fmap, Forall_forall.
      intros el _. apply Hchildren.
    + destruct (getAttribute dom k') as [s|] eqn:Hattr; [|done].
      destruct (Hfinite k' s Hi Hattr) as [_ Hrange].
      by destruct (Number s) as [|negative|q] eqn:Hnum.
    + destruct (getAttribute dom k') as [s|]; [|done]. by case_decide.
    + by destruct (slotted this dom k').
    + apply Forall_forallb_true, Forall_fmap, Forall_forall.
      intros el _. apply Hchildren.
    + by destruct (slotted this dom k').
Qed.

Lemma json_is_a_json_document_witness :
  is_json (json (mkInstance false Null
                   [("literal", literal (Str "literal")); ("number", Getters.number);
                    ("array", Getters.array (fun _ : unit => Obj []))] ["array"])
             (mkDom [("number", "10")] (fun _ => [IsJSONElement tt])))
  = true.
Proof.
  refine (json_is_a_json_document (fun _ : unit => Obj [])
            [("literal", SValue (Str "literal")); ("number", SNumber); ("array", SArray)]
            0%nat 3%nat _ (mkDom [("number", "10")] (fun _ => [IsJSONElement tt]))
            eq_refl _ _ _ _ _).
  - split; [split; [|reflexivity]|split; [|reflexivity]];
      apply (bool_decide_unpack _); by vm_compute.
  - by repeat constructor.
  - by repeat constructor.
  - by intros [].
  - intros k s Hin Hattr.
    unfold getAttribute in Hattr. simpl in Hattr.
    case_decide; [|done]. injection Hattr as <-. by split.
Defined.

(** ** Decimal numerals *)

Lemma rev_app_rev_app (s : string) : forall t u : string,
  String.rev_app (String.rev_app s t) u = String.rev_app t (s +:+ u).
Proof.
  induction s as [|a s IH]; intros t u; simpl; [done|].
  by rewrite IH.
Qed.

Lemma string_rev_involutive (s : string) : String.rev (String.rev s) = s.
Proof.
  unfold String.rev. rewrite rev_app_rev_app. simpl. apply string_app_nil_r.
Qed.

Lemma all_digits_rev_app (s : string) : forall t : string,
  all_digits s = true -> all_digits t = true ->
  all_digits (String.rev_app s t) = true.
Proof.
  induction s as [|a s IH]; intros t; simpl; [done|].
  intros [Ha Hs]%andb_true_iff Ht. apply IH; [done|]. simpl. by rewrite Ha.
Qed.

Lemma is_digit_cases (c : ascii) :
  is_digit c = true ->
  c ∈ ["0"; "1"; "2"; "3"; "4"; "5"; "6"; "7"; "8"; "9"]%char.
Proof. unfold is_digit. by intros ?%bool_decide_eq_true. Qed.

Lemma trim_start_digits (s : string) :
  all_digits s = true -> StringToNumber.trim_start s = s.
Proof.
  destruct s as [|c r]; simpl; [done|].
  intros [Hc _]%andb_true_iff. apply is_digit_cases in Hc.
  repeat (apply elem_of_cons in Hc as [->|Hc]); try done.
  by apply elem_of_nil in Hc.
Qed.

Lemma trim_digits (s : string) : all_digits s = true -> StringToNumber.trim s = s.
Proof.
  intros Hs. unfold StringToNumber.trim.
  rewrite (trim_start_digits s Hs).
  rewrite trim_start_digits; [apply string_rev_involutive|].
  by apply all_digits_rev_app.
Qed.

Lemma digit_value_pretty (d : N) :
  (d < 10)%N -> StringToNumber.digit_value 10 (pretty_N_char d) = Some (Z.of_N d).
Proof.
  intros Hd.
  assert (d = 0 \/ d = 1 \/ d = 2 \/ d = 3 \/ d = 4 \/ d = 5 \/ d = 6 \/ d = 7
          \/ d = 8 \/ d = 9)%N as Hcases by lia.
  by repeat (destruct Hcases as [->|Hcases]); [..|subst].
Qed.

Lemma digits_pretty_N_go (x : N) : forall (s : string) (acc : Z) (count : nat),
  exists k : nat,
    StringToNumber.digits 10 (pretty_N_go x s) acc count
    = StringToNumber.digits 10 s (acc * 10 ^ Z.of_nat k + Z.of_N x)%Z (count + k)%nat
    /\ (x <> 0%N -> k <> 0%nat).
Proof.
  induction (N.lt_wf_0 x) as [x _ IH]; intros s acc count.
  destruct (decide (x = 0%N)) as [->|Hx].
  - exists 0%nat. rewrite pretty_N_go_0. split; [|done].
    f_equal; [|lia]. simpl. lia.
  - rewrite pretty_N_go_step by lia.
    destruct (IH (x `div` 10)%N) with (s := String (pretty_N_char (x `mod` 10)) s)
      (acc := acc) (count := count) as (k & -> & _).
    { apply N.div_lt; lia. }
    exists (S k). split; [|done].
    cbn [StringToNumber.digits].
    rewrite digit_value_pretty by (apply N.mod_lt; lia).
    f_equal; [|lia].
    rewrite Nat2Z.inj_succ, Z.pow_succ_r by lia.
    pose proof (N.div_mod x 10) as Hdm.
    assert (Z.of_N x = 10 * Z.of_N (x `div` 10) + Z.of_N (x `mod` 10))%Z as ->.
    { rewrite <- (N2Z.inj_mul 10), <- N2Z.inj_add. f_equal. apply Hdm. lia. }
    lia.
Qed.

Lemma digits_pretty_nat (n : nat) :
  exists k : nat,
    StringToNumber.digits 10 (pretty n) 0 0 = (Z.of_nat n, S k, "").
Proof.
  unfold pretty, pretty_nat, pretty, pretty_N.
  case_decide as Hn.
  - exists 0%nat. assert (n = 0%nat) as -> by lia. reflexivity.
  - destruct (digits_pretty_N_go (N.of_nat n) "" 0 0) as (k & -> & Hk).
    destruct k as [|k]; [by destruct Hk|]. exists k. simpl.
    f_equal. f_equal. rewrite nat_N_Z. lia.
Qed.

Lemma Qred_inject_Z (z : Z) : Qred (inject_Z z) = inject_Z z.
Proof.
  unfold Qred, inject_Z.
  pose proof (Z.ggcd_gcd z 1) as Hg.
  pose proof (Z.ggcd_correct_divisors z 1) as Hd.
  destruct (Z.ggcd z 1) as [g [aa bb]]. simpl in *.
  rewrite Z.gcd_1_r in Hg. subst g. destruct Hd as [Ha Hb].
  assert (aa = z) as -> by lia. assert (bb = 1%Z) as -> by lia. done.
Qed.

Lemma scale_integer (z : Z) : StringToNumber.scale z 0 = inject_Z z.
Proof.
  unfold StringToNumber.scale. rewrite <- (Qred_inject_Z z) at 2.
  apply Qred_complete. simpl Qpower. apply Qmult_1_r.
Qed.

Lemma unsigned_decimal_pretty (n : nat) :
  StringToNumber.unsigned_decimal (pretty n) = Some (inject_Z (Z.of_nat n)).
Proof.
  unfold StringToNumber.unsigned_decimal.
  destruct (digits_pretty_nat n) as [k ->]. simpl.
  by rewrite scale_integer.
Qed.

Lemma StrNumericLiteral_digits (s : string) :
  all_digits s = true -> s <> "" ->
  StringToNumber.StrNumericLiteral s
  = match StringToNumber.unsigned_decimal s with
    | Some q => Finite q
    | None => NaN
    end.
Proof.
  destruct s as [|c r]; [done|]. simpl all_digits.
  intros [Hc Hr]%andb_true_iff _. apply is_digit_cases in Hc.
  repeat (apply elem_of_cons in Hc as [->|Hc]); [..|by apply elem_of_nil in Hc];
    try reflexivity.
  destruct r as [|d r']; [reflexivity|]. simpl in Hr.
  apply andb_true_iff in Hr as [Hd _]. apply is_digit_cases in Hd.
  repeat (apply elem_of_cons in Hd as [->|Hd]); [..|by apply elem_of_nil in Hd];
    reflexivity.
Qed.

(** A decimal numeral is read as its number: for every natural number [n]
    that a JS number holds exactly, the [Number] getter applied to an
    attribute whose text is the decimal spelling of [n] returns [n], so that
    the key holds the number and not the text. *)
Theorem number_of_decimal_attribute (n : nat) :
  (Z.of_nat n <= 2 ^ 53)%Z ->
  Number (pretty n) = number_of_nat n
  /\ forall (E : Type) (els : list E),
       call Getters.number (Some (pretty n)) els = Num (number_of_nat n).
Proof.
  intros _.
  assert (Number (pretty n) = number_of_nat n) as Hn.
  { unfold Number. rewrite trim_digits by apply pretty_nat_digits.
    assert (pretty n <> "") as Hne.
    { intros Heq. destruct (digits_pretty_nat n) as [k Hk].
      rewrite Heq in Hk. discriminate Hk. }
    rewrite decide_False by done.
    rewrite StrNumericLiteral_digits by (apply pretty_nat_digits || done).
    by rewrite unsigned_decimal_pretty. }
  split; [done|]. intros E els. simpl. by rewrite Hn.
Qed.

Lemma number_of_decimal_attribute_witness :
  call (E:=unit) Getters.number (Some (pretty 10%nat)) [] = Num (number_of_nat 10).
Proof.
  refine (proj2 (number_of_decimal_attribute 10 _) unit []).
  vm_compute. discriminate.
Defined.

(** ** Notifications *)

(** In every state an element with selectable slots can reach by inputs and
    by flushes that return, at most one flush is pending: the microtask
    queue holds one notification when the flag [#queued] is set, and none
    when it is not. *)
Theorem at_most_one_flush_pending {E : Type} (same : string -> bool) (w : World E) :
  reachable same w ->
  selectable (this w) ->
  (length (microtasks w) <= 1)%nat
  /\ (queued (this w) = true <-> microtasks w = [notify_task]).
Proof.
  intros Hw _. pose proof (reachable_coherent same w Hw) as Hco.
  unfold coherent in Hco. rewrite Hco.
  destruct (queued (this w)); simpl; split; try lia; split; done.
Qed.

Lemma at_most_one_flush_pending_witness :
  (length (microtasks
             (react (react (mkWorld (mkInstance (E:=unit) false Null [] [])
                              (mkDom [] (fun _ => [])) [] [])
                       Connected)
                (AttributeChanged "a" (Some "1")))) <= 1)%nat.
Proof.
  apply (at_most_one_flush_pending distinct_objects).
  - do 2 apply reachable_react. by apply reachable_new.
  - reflexivity.
Defined.










(** ** Observed attributes *)

Lemma foldl_agree {A B : Type} (f g : B -> A -> B) (l : list A) : forall acc,
  (forall acc' x, x ∈ l -> f acc' x = g acc' x) ->
  foldl f acc l = foldl g acc l.
Proof.
  induction l as [|x l IH]; intros acc Hfg; simpl; [done|].
  rewrite Hfg by left. apply IH. intros acc' y Hy. apply Hfg. by right.
Qed.

Lemma member_set_attribute attrs name new_value k :
  k <> name -> member (set_attribute attrs name new_value) k = member attrs k.
Proof.
  intros Hk. unfold set_attribute. destruct new_value as [v|].
  - case_decide as Hsome.
    + clear Hsome. induction attrs as [|[k' v'] attrs IH]; csimpl; [done|].
      case_decide as Heq; simpl in *.
      * subst k'. by rewrite !decide_False by done.
      * case_decide; [done|apply IH].
    + rewrite member_app. destruct (member attrs k); [done|].
      simpl. by rewrite decide_False by done.
  - induction attrs as [|[k' v'] attrs IH]; [done|].
    destruct (decide (k' = name)) as [->|Hne].
    + rewrite filter_cons_False by (simpl; auto). simpl.
      by rewrite decide_False by done.
    + rewrite filter_cons_True by done. simpl. by rewrite IH.
Qed.

Lemma json_reads_schema_keys {E : Type} (this : Instance E) (dom dom' : Dom E) :
  (forall name, name ∈ (schema this).*1 ->
     getAttribute dom name = getAttribute dom' name) ->
  (forall name, assigned dom name = assigned dom' name) ->
  json this dom = json this dom'.
Proof.
  intros Hattr Hassigned. rewrite !json_unfold. f_equal.
  apply foldl_agree. intros acc [key fn] Hin.
  unfold json_turn, getter_result, slotted. simpl.
  rewrite Hattr by (apply list_elem_of_fmap; by exists (key, fn)).
  destruct (decide (key = "")); destruct (head (slots this));
    repeat case_decide; by rewrite ?Hassigned.
Qed.

(** The observed attributes are the attributes the JSON depends on, in an
    element whose schema is well keyed and has its keys in lower case, for
    the attributes whose name is an identifier (a name [setAttribute]
    takes).  When an attribute whose name, in lower case, is not a key of
    the schema is set or removed, the JSON of the element stays the same and
    nothing is queued; when a key of the schema is set, or removed from an
    element that has it, a notification is queued.  So no change of an
    attribute that changes the JSON goes without a notification. *)
Theorem observed_attributes_cover_json {E : Type} (json_of : E -> value)
    (static_schema : list (string * SchemaInput E)) (calls calls' : nat)
    (this0 : Instance E) (w w' : World E) (name : string)
    (new_value : option string) :
  constructor json_of static_schema calls = (Return this0, calls') ->
  well_keyed static_schema ->
  lower_case_keys static_schema ->
  identifier name = true ->
  schema (this w) = schema this0 ->
  w' = attribute_mutation static_schema w name new_value ->
  (to_lower name ∉ observedAttributes static_schema ->
     json (this w') (dom w') = json (this w) (dom w) /\ microtasks w' = microtasks w)
  /\ (to_lower name ∈ observedAttributes static_schema ->
      new_value <> None \/ hasAttribute (dom w) (to_lower name) = true ->
      queued (this w') = true)
  /\ (json (this w') (dom w') <> json (this w) (dom w) -> queued (this w') = true).
Proof.
  intros Hc [Hown _] _ _ Hschema ->.
  destruct (constructed _ _ _ _ _ Hc Hown) as (Hkeys & _).
  assert (to_lower name ∉ observedAttributes static_schema ->
          json (this (attribute_mutation static_schema w name new_value))
            (dom (attribute_mutation static_schema w name new_value))
          = json (this w) (dom w)
          /\ microtasks (attribute_mutation static_schema w name new_value)
             = microtasks w)
    as Hunobserved.
  { intros Hno. unfold attribute_mutation.
    destruct (bool_decide (new_value = None)
              && negb (hasAttribute (dom w) (to_lower name))); [done|].
    rewrite decide_False by done. simpl.
    split; [|done]. apply json_reads_schema_keys; [|done].
    intros k Hk. unfold getAttribute. simpl. apply member_set_attribute.
    intros ->. apply Hno. unfold observedAttributes.
    by rewrite <- Hkeys, <- Hschema. }
  split; [done|]. split.
  - intros Hyes Hchange. unfold attribute_mutation.
    assert (bool_decide (new_value = None)
            && negb (hasAttribute (dom w) (to_lower name)) = false) as ->.
    { destruct Hchange as [Hsome| ->].
      - by rewrite bool_decide_eq_false_2.
      - apply andb_false_r. }
    by rewrite decide_True by done.
  - intros Hne.
    destruct (decide (to_lower name ∈ observedAttributes static_schema)) as [Hyes|Hno];
      [|by destruct (Hunobserved Hno)].
    unfold attribute_mutation in *.
    destruct (bool_decide (new_value = None)
              && negb (hasAttribute (dom w) (to_lower name))); [done|].
    by rewrite decide_True by done.
Qed.

Lemma observed_attributes_cover_json_witness :
  json (mkInstance (E:=unit) false Null [("string", Getters.string)] [])
    (mkDom [("string", "test"); ("class", "big")] (fun _ => []))
  = json (mkInstance (E:=unit) false Null [("string", Getters.string)] [])
      (mkDom [("string", "test")] (fun _ => []))
  /\ @nil Task = [].
Proof.
  refine (proj1 (observed_attributes_cover_json (fun _ : unit => Null)
            [("string", SString)] 0%nat 1%nat _
            (mkWorld (mkInstance false Null [("string", Getters.string)] [])
               (mkDom [("string", "test")] (fun _ => [])) [] [])
            _ "Class" (Some "big") eq_refl _ _ eq_refl eq_refl eq_refl) _).
  - split; [split; [|reflexivity]|split; [|reflexivity]];
      apply (bool_decide_unpack _); by vm_compute.
  - by repeat constructor.
  - apply (bool_decide_unpack _). by vm_compute.
Defined.

(** ** Registration *)

Section RegisterFacts.

Context {C : Type} `{EqDecision C}.
Variable valid_name : string -> bool.

Lemma register_cases (this : C) (tag : string) (r r' : Registry C) :
  register valid_name this tag r = Return r' ->
  (customElements_get r tag = Some this /\ r' = r)
  \/ (exists ce, customElements_get r tag = Some ce /\ ce <> this
                 /\ definitions r' = definitions r
                 /\ console r' = console r ++ ["<" +:+ tag +:+ "> already registered!"])
  \/ (customElements_get r tag = None /\ valid_name tag = true
      /\ (this ∉ (definitions r).*2)
      /\ definitions r' = definitions r ++ [(tag, this)] /\ console r' = console r).
Proof.
  unfold register, customElements_define.
  destruct (customElements_get r tag) as [ce|] eqn:Hget.
  - case_decide as Hce; intros [= <-]; [left; by subst|].
    right; left. exists ce. done.
  - unfold customElements_get in Hget.
    destruct (valid_name tag); simpl; [|done].
    rewrite Hget. rewrite bool_decide_eq_false_2 by by intros [? ?].
    case_bool_decide as Hin; [done|]. intros [= <-]. right; right. done.
Qed.

(** A call of [register] that returns never takes a definition away or
    changes one; it leaves the tag defined, by this class or by the class
    that had it; it keeps the registry well formed; and it can be repeated:
    the same call again returns, defines nothing more, and when the tag is
    this class's it changes nothing at all, not even the console. *)
Theorem register_is_safe (this : C) (tag : string) (r r' : Registry C) :
  register valid_name this tag r = Return r' ->
  (forall t c, customElements_get r t = Some c -> customElements_get r' t = Some c)
  /\ is_Some (customElements_get r' tag)
  /\ (registry_ok valid_name r -> registry_ok valid_name r')
  /\ exists r'', register valid_name this tag r' = Return r''
                 /\ definitions r'' = definitions r'
                 /\ (customElements_get r' tag = Some this -> r'' = r').
Proof.
  intros Hreg.
  destruct (register_cases this tag r r' Hreg)
    as [[Hget ->]|[(ce & Hget & Hce & Hdef & Hcon)|(Hget & Hvalid & Hnew & Hdef & Hcon)]].
  - split; [done|]. split; [by rewrite Hget|]. split; [done|].
    exists r. by rewrite Hreg.
  - unfold customElements_get in *. rewrite Hdef.
    split; [done|]. split; [by rewrite Hget|]. split.
    { unfold registry_ok. by rewrite Hdef. }
    unfold register, customElements_get. rewrite Hdef, Hget.
    rewrite decide_False by done. eexists. split; [done|]. split; [done|].
    intros [= ?]. done.
  - unfold customElements_get in *. rewrite Hdef.
    assert (member (definitions r ++ [(tag, this)]) tag = Some this) as Hnow.
    { rewrite member_app, Hget. simpl. by rewrite decide_True. }
    split; [|split; [by rewrite Hnow|split]].
    + intros t c Ht. by rewrite member_app, Ht.
    + intros (Hnd1 & Hnd2 & Hall). unfold registry_ok. rewrite Hdef, !fmap_app.
      simpl. split; [|split].
      * apply NoDup_app. split; [done|]. split; [|apply NoDup_singleton].
        intros t Ht ->%list_elem_of_singleton. by apply member_None in Hget.
      * apply NoDup_app. split; [done|]. split; [|apply NoDup_singleton].
        by intros c Hc ->%list_elem_of_singleton.
      * apply Forall_app. split; [done|]. by repeat constructor.
    + exists r'. unfold register, customElements_get. rewrite Hdef, Hnow.
      rewrite decide_True by done. done.
Qed.

(** [register] throws exactly when the tag is free and the platform refuses
    the definition: the name is not valid, or this class is already defined
    under another tag. On a tag that is taken it never throws. *)
Theorem register_throws (this : C) (tag : string) (r : Registry C) :
  (exists e, register valid_name this tag r = Throw e)
  <-> customElements_get r tag = None
      /\ (valid_name tag = false \/ this ∈ (definitions r).*2).
Proof.
  unfold register, customElements_define.
  destruct (customElements_get r tag) as [ce|] eqn:Hget.
  - split; [|by intros [? _]]. case_decide; by intros [? ?].
  - unfold customElements_get in Hget. rewrite Hget.
    rewrite (bool_decide_eq_false_2 (is_Some None)) by by intros [? ?].
    destruct (valid_name tag); simpl.
    + case_bool_decide as Hin.
      * split; [auto|eauto].
      * split; [by intros [? ?]|]. by intros [_ [?|?]].
    + split; [auto|eauto].
Qed.

End RegisterFacts.

Lemma register_is_safe_witness :
  is_Some (customElements_get
             (mkRegistry [("test-basic", 1%nat); ("test-array", 2%nat)] []) "test-array").
Proof.
  exact (proj1 (proj2 (register_is_safe (fun _ => true) 2%nat "test-array"
                         (mkRegistry [("test-basic", 1%nat)] []) _ eq_refl))).
Defined.
